(** * diff-htmls: the diff engine, its block-aware layer and its renderer

    A shallow embedding of [Utils.ts], [BlockAnalyzer.ts], [types.ts],
    [index.ts] and [Diff.ts] (class [HtmlDiff]).

    Conventions.
    - A JavaScript string is a [string]: a sequence of code units, each
      below 256.  [length] counts code units, [===] is [String.eqb].
    - A JavaScript integer (an index, a length, a size) is a [Z].  The
      arithmetic of [scoreForMatch] and of [removeOrphans] on numbers that
      are not integers is binary64 ([JsNum]); a length that enters it is
      converted.
    - An array is a [list]; [Js.slice] has the behaviour of
      [Array.prototype.slice], negative bounds included.
    - A loop whose number of iterations is bounded by the size of its input
      is a [Fixpoint] on a fuel that is computed from that input; a
      recursion that may not end (it depends on the match finder) returns
      [None] when the fuel is spent. *)

From Stdlib Require Import QArith ZArith List String Ascii Bool Lia.
From Stdlib Require Import SpecFloat.
Import ListNotations.

#[local] Open Scope string_scope.
#[local] Open Scope Z_scope.

(* ------------------------------------------------------------------ *)
(** ** JavaScript arrays and strings *)

Module Js.

Definition len {A} (l : list A) : Z := Z.of_nat (List.length l).

Definition strlen (s : string) : Z := Z.of_nat (String.length s).

(** [relIndex len k]: how [slice] reads a bound. *)
Definition relIndex (n k : Z) : Z :=
  if k <? 0 then Z.max (n + k) 0 else Z.min k n.

(** [arr.slice(s, e)] *)
Definition slice {A} (l : list A) (s e : Z) : list A :=
  let k := relIndex (len l) s in
  let f := relIndex (len l) e in
  firstn (Z.to_nat (f - k)) (skipn (Z.to_nat k) l).

(** [arr.slice(s)] *)
Definition sliceFrom {A} (l : list A) (s : Z) : list A :=
  slice l s (len l).

(** [arr[i]], [None] for [undefined]. *)
Definition lookup {A} (l : list A) (i : Z) : option A :=
  if i <? 0 then None else nth_error l (Z.to_nat i).

(** [arr.join("")] *)
Definition join (l : list string) : string := String.concat "" l.

(** [arr.filter((s, pos) => p(pos))] *)
Fixpoint filterPos {A} (p : Z -> bool) (pos : Z) (l : list A) : list A :=
  match l with
  | [] => []
  | x :: l' =>
      if p pos then x :: filterPos p (pos + 1) l' else filterPos p (pos + 1) l'
  end.

(** [arr[k] = v] for [k] inside the array. *)
Fixpoint update {A} (l : list A) (k : nat) (v : A) : list A :=
  match l, k with
  | [], _ => []
  | _ :: l', O => v :: l'
  | x :: l', S k' => x :: update l' k' v
  end.

(** [s.startsWith(p)] *)
Definition startsWith (s p : string) : bool := String.prefix p s.

(** [s.endsWith(p)] *)
Definition endsWith (s p : string) : bool :=
  let n := String.length s in
  let m := String.length p in
  (m <=? n)%nat && String.eqb (String.substring (n - m) m s) p.

(** The double quote, written without a quoted quote. *)
Definition dq : string := String (ascii_of_nat 34) EmptyString.

End Js.

(* ------------------------------------------------------------------ *)
(** ** types.ts *)

Module Types.

Inductive Mode := character | tag | whitespace | number | entity.

Inductive Action := equal | delete | insert | none | replace.

(** [repeatingWordsAccuracy] is a JavaScript number that the engine
    stores and hands to the match finder without computing on it; the
    constructor of [HtmlDiff] only ever stores 1.0 in it. *)
Record MatchOptions := {
  blockSize : Z;
  repeatingWordsAccuracy : Q;
  ignoreWhitespaceDifferences : bool
}.

Record BlockDiffOptions := {
  enabled : bool;
  blockElements : option (list string);
  equivalentTypes : option (list (list string))
}.

End Types.

(* ------------------------------------------------------------------ *)
(** ** Utils.ts *)

Module Utils.

(** [\s] on code units below 256. *)
Definition isSpace (c : ascii) : bool :=
  let n := nat_of_ascii c in
  ((9 <=? n) && (n <=? 13) || (n =? 32) || (n =? 160))%nat.

Definition isLetter (c : ascii) : bool :=
  let n := nat_of_ascii c in
  ((65 <=? n) && (n <=? 90) || (97 <=? n) && (n <=? 122))%nat.

Definition isDigit (c : ascii) : bool :=
  let n := nat_of_ascii c in ((48 <=? n) && (n <=? 57))%nat.

(** [\w], [#] and [@]: the class of [wordRegex]. *)
Definition isWordChar (c : ascii) : bool :=
  let n := nat_of_ascii c in
  isLetter c || isDigit c || ((n =? 95) || (n =? 35) || (n =? 64))%nat.

(** [String.prototype.toLowerCase] on one code unit below 256: the
    letters [A] to [Z] (65 to 90) and the capital letters of Latin-1 (192
    to 222, but for the multiplication sign 215) have their small form 32
    further; every other code unit is its own lower case. *)
Definition toLowerChar (c : ascii) : ascii :=
  let n := nat_of_ascii c in
  if ((65 <=? n) && (n <=? 90)
      || (192 <=? n) && (n <=? 222) && negb (n =? 215))%nat
  then ascii_of_nat (n + 32) else c.

Fixpoint toLowerCase (s : string) : string :=
  match s with
  | EmptyString => EmptyString
  | String c s' => String (toLowerChar c) (toLowerCase s')
  end.

Fixpoint dropSpaces (s : string) : string :=
  match s with
  | String c s' => if isSpace c then dropSpaces s' else s
  | EmptyString => EmptyString
  end.

Fixpoint allSpaces (s : string) : bool :=
  match s with
  | String c s' => isSpace c && allSpaces s'
  | EmptyString => true
  end.

(** Reads [[^>]*>]: the text before the first [>] and the text after it. *)
Fixpoint untilGt (s : string) : option (string * string) :=
  match s with
  | EmptyString => None
  | String c s' =>
      if Ascii.eqb c ">" then Some (EmptyString, s')
      else match untilGt s' with
           | Some (body, rest) => Some (String c body, rest)
           | None => None
           end
  end.

(** [tagRegex = /^\s*<\/?[^>]+>\s*$/].  The optional slash is itself in
    [[^>]], so the expression accepts: spaces, [<], one or more
    characters other than [>], [>], spaces. *)
Definition tagRegex_test (s : string) : bool :=
  match dropSpaces s with
  | String c rest =>
      if Ascii.eqb c "<" then
        match untilGt rest with
        | Some (body, rest') => negb (String.eqb body "") && allSpaces rest'
        | None => false
        end
      else false
  | EmptyString => false
  end.

Definition specialCaseWordTags : list string := ["<img"].

Definition isTag (item : string) : bool :=
  if existsb (fun re => Js.startsWith item re) specialCaseWordTags then false
  else tagRegex_test item.

(** The run of characters that are neither spaces nor [>]. *)
Fixpoint tagWordRun (s : string) : string :=
  match s with
  | String c s' =>
      if isSpace c || Ascii.eqb c ">" then EmptyString
      else String c (tagWordRun s')
  | EmptyString => EmptyString
  end.

(** [tagWordRegex.exec(word)] with [tagWordRegex = /<[^\s>]+/]: the
    leftmost [<] that is followed by such a character, and the run. *)
Fixpoint tagWordRegex_exec (s : string) : option string :=
  match s with
  | EmptyString => None
  | String c s' =>
      if Ascii.eqb c "<" && negb (String.eqb (tagWordRun s') "")
      then Some (String c (tagWordRun s'))
      else tagWordRegex_exec s'
  end.

Definition stripTagAttributes (word : string) : string :=
  let tags0 := match tagWordRegex_exec word with Some t => t | None => "" end in
  tags0 ++ (if Js.endsWith word "/>" then "/>" else ">").

Definition wrapText (text tagName cssClass : string) : string :=
  Js.join ["<"; tagName; " class=" ++ Js.dq; cssClass; Js.dq ++ ">"; text;
           "</"; tagName; ">"].

Definition isStartOfTag (val : string) : bool := String.eqb val "<".
Definition isEndOfTag (val : string) : bool := String.eqb val ">".
Definition isStartOfEntity (val : string) : bool := String.eqb val "&".
Definition isEndOfEntity (val : string) : bool := String.eqb val ";".

(** [whitespaceRegex = /^(\s|&nbsp;)+$/] *)
Fixpoint whitespaceRegex_rest (fuel : nat) (s : string) : bool :=
  match fuel with
  | O => false
  | S fuel' =>
      match s with
      | EmptyString => true
      | String c s' =>
          if isSpace c then whitespaceRegex_rest fuel' s'
          else if Js.startsWith s "&nbsp;"
               then whitespaceRegex_rest fuel'
                      (String.substring 6 (String.length s - 6) s)
               else false
      end
  end.

Definition isWhiteSpace (value : string) : bool :=
  negb (String.eqb value "") &&
  whitespaceRegex_rest (S (String.length value)) value.

Definition stripAnyAttributes (word : string) : string :=
  if isTag word then stripTagAttributes word else word.

(** [/^\d$/] *)
Definition isNumber (text : string) : bool :=
  match text with
  | String c EmptyString => isDigit c
  | _ => false
  end.

(** [wordRegex = /[\w\#@]+/], not anchored. *)
Fixpoint isWord (text : string) : bool :=
  match text with
  | EmptyString => false
  | String c s' => isWordChar c || isWord s'
  end.

Fixpoint alnumRun (s : string) : string :=
  match s with
  | String c s' =>
      if isLetter c || isDigit c then String c (alnumRun s') else EmptyString
  | EmptyString => EmptyString
  end.

(** [tag.match(re)] where [re] reads [<], an optional [/], then a letter
    followed by letters and digits (group 1, case ignored); the result is
    group 1 in lower case. *)
Definition getTagName (tag : string) : option string :=
  match tag with
  | String c rest =>
      if Ascii.eqb c "<" then
        let rest' := match rest with
                     | String d r => if Ascii.eqb d "/" then r else rest
                     | EmptyString => rest
                     end in
        match rest' with
        | String d _ =>
            if isLetter d then Some (toLowerCase (alnumRun rest')) else None
        | EmptyString => None
        end
      else None
  | EmptyString => None
  end.

Definition blockLevelElements : list string :=
  ["p"; "div"; "ul"; "ol"; "li"; "h1"; "h2"; "h3"; "h4"; "h5"; "h6";
   "blockquote"; "pre"; "table"; "tr"; "td"; "th"; "thead"; "tbody";
   "tfoot"; "article"; "section"; "aside"; "header"; "footer"; "nav";
   "main"; "figure"; "figcaption"; "dl"; "dt"; "dd"].

(** [set.has(x)] on a set of strings kept as a list. *)
Definition has (set : list string) (x : string) : bool :=
  existsb (String.eqb x) set.

Definition isBlockLevelTag (tag : string) : bool :=
  match getTagName tag with
  | Some tagName => has blockLevelElements tagName
  | None => false
  end.

Definition isOpeningTag (tag : string) : bool :=
  isTag tag && negb (Js.startsWith tag "</") && negb (Js.endsWith tag "/>").

Definition isClosingTag (tag : string) : bool :=
  isTag tag && Js.startsWith tag "</".

Definition isSelfClosingTag (tag : string) : bool :=
  isTag tag && Js.endsWith tag "/>".

End Utils.

(* ------------------------------------------------------------------ *)
(** ** JavaScript numbers that are not integers *)

Module JsNum.

(** IEEE 754 binary64, through the executable specification of the
    Standard Library. *)
Definition prec : Z := 53.
Definition emax : Z := 1024.

Definition ofZ (z : Z) : spec_float := binary_normalize prec emax z 0 false.
Definition div (x y : spec_float) : spec_float := SFdiv prec emax x y.
Definition mul (x y : spec_float) : spec_float := SFmul prec emax x y.

(** [0.0] *)
Definition zero : spec_float := S754_zero false.

(** [x > y]; false when one of the two is a NaN. *)
Definition gt (x y : spec_float) : bool :=
  match SFcompare x y with
  | Some Gt => true
  | _ => false
  end.

(** A length, or a sum of lengths, as a number.  The length of a
    JavaScript string or array is an integer from 0 to 2^53 - 1 (the range
    of [ToLength]), which binary64 holds exactly; a [Z] outside this range
    is no length and is read as the nearest bound. *)
Definition maxLength : Z := 2 ^ 53 - 1.

Definition ofLength (z : Z) : spec_float :=
  ofZ (Z.min (Z.max z 0) maxLength).

(** [Math.round]: the nearest integer, a tie going up.  The value of a
    finite float is [m * 2^e]; an infinity or a NaN (no integer) is read
    as 0 and does not occur on a quotient of two lengths. *)
Definition round (x : spec_float) : Z :=
  match x with
  | S754_finite s m e =>
      let v := if s then Z.neg m else Z.pos m in
      if 0 <=? e then v * 2 ^ e
      else (2 * v + 2 ^ (- e)) / 2 ^ (1 - e)
  | _ => 0
  end.

End JsNum.

(* ------------------------------------------------------------------ *)
(** ** BlockAnalyzer.ts *)

Module BlockAnalyzer.

Record Block := {
  tagName : string;
  startIndex : Z;
  endIndex : Z;
  depth : Z
}.

(** The private fields.  [equivalentTypes] is a [Map] from a tag name to
    its group, kept as an association list with one entry per key. *)
Record t := {
  blockElements : list string;
  equivalentTypes : list (string * list string)
}.

(** [map.set(k, v)] *)
Definition mapSet (m : list (string * list string)) (k : string)
    (v : list string) : list (string * list string) :=
  (k, v) :: filter (fun e => negb (String.eqb (fst e) k)) m.

(** [map.get(k)] *)
Definition mapGet (m : list (string * list string)) (k : string)
    : option (list string) :=
  match find (fun e => String.eqb (fst e) k) m with
  | Some e => Some (snd e)
  | None => None
  end.

Definition constructor (options : option Types.BlockDiffOptions) : t :=
  let blockElements :=
    match options with
    | Some o =>
        match Types.blockElements o with
        | Some l => map Utils.toLowerCase l
        | None => Utils.blockLevelElements
        end
    | None => Utils.blockLevelElements
    end in
  let equivalentTypes :=
    match options with
    | Some o =>
        match Types.equivalentTypes o with
        | Some groups =>
            fold_left
              (fun m group =>
                 let groupSet := map Utils.toLowerCase group in
                 fold_left
                   (fun m element => mapSet m (Utils.toLowerCase element) groupSet)
                   group m)
              groups []
        | None => []
        end
    | None => []
    end in
  {| blockElements := blockElements; equivalentTypes := equivalentTypes |}.

(** An entry of the stack of [findBlocks]. *)
Record Open := {
  openTagName : string;
  openStartIndex : Z;
  openDepth : Z
}.

(** The search [for (j = stack.length - 1; j >= 0; j--)] for the nearest
    entry with the tag name, and [stack.splice(j, 1)].  The stack is kept
    with its top first. *)
Fixpoint spliceNearest (tagName : string) (stack : list Open)
    : option (Open * list Open) :=
  match stack with
  | [] => None
  | e :: stack' =>
      if String.eqb (openTagName e) tagName then Some (e, stack')
      else match spliceNearest tagName stack' with
           | Some (o, rest) => Some (o, e :: rest)
           | None => None
           end
  end.

(** The body of [for (let i = 0; i < words.length; i++)]. *)
Fixpoint findBlocksLoop (this : t) (words : list string) (i : Z)
    (blocks : list Block) (stack : list Open) (currentDepth : Z)
    : list Block :=
  match words with
  | [] => blocks
  | word :: words' =>
      if negb (Utils.isTag word) then
        findBlocksLoop this words' (i + 1) blocks stack currentDepth
      else
        match Utils.getTagName word with
        | None => findBlocksLoop this words' (i + 1) blocks stack currentDepth
        | Some tagName =>
            if negb (Utils.has (blockElements this) tagName) then
              findBlocksLoop this words' (i + 1) blocks stack currentDepth
            else if Utils.isOpeningTag word then
              findBlocksLoop this words' (i + 1) blocks
                ({| openTagName := tagName; openStartIndex := i;
                    openDepth := currentDepth |} :: stack)
                (currentDepth + 1)
            else if Utils.isClosingTag word && (0 <? Js.len stack) then
              match spliceNearest tagName stack with
              | Some (openingTag, stack') =>
                  let blocks' :=
                    if openDepth openingTag =? 0 then
                      (blocks ++ [{| tagName := openTagName openingTag;
                                     startIndex := openStartIndex openingTag;
                                     endIndex := i;
                                     depth := openDepth openingTag |}])%list
                    else blocks in
                  findBlocksLoop this words' (i + 1) blocks' stack'
                    (currentDepth - 1)
              | None =>
                  findBlocksLoop this words' (i + 1) blocks stack currentDepth
              end
            else findBlocksLoop this words' (i + 1) blocks stack currentDepth
        end
  end.

(** [blocks.sort((a, b) => a.startIndex - b.startIndex)]: a stable sort,
    here by insertion. *)
Fixpoint insertBlock (b : Block) (l : list Block) : list Block :=
  match l with
  | [] => [b]
  | c :: l' =>
      if startIndex b <? startIndex c then b :: l
      else c :: insertBlock b l'
  end.

Definition sortBlocks (l : list Block) : list Block :=
  fold_left (fun acc b => insertBlock b acc) l [].

Definition findBlocks (this : t) (words : list string) : list Block :=
  sortBlocks (findBlocksLoop this words 0 [] [] 0).

(** [while (oldIdx < oldBlocks.length || newIdx < newBlocks.length)];
    every round advances an index.  [blocks[idx] || null] is the block
    or, past the end, [null]: [None]. *)
Fixpoint matchBlocksByPositionLoop (fuel : nat)
    (oldBlocks newBlocks : list Block) (oldIdx newIdx : Z)
    (pairs : list (option Block * option Block))
    : list (option Block * option Block) :=
  match fuel with
  | O => pairs
  | S fuel' =>
      if (oldIdx <? Js.len oldBlocks) || (newIdx <? Js.len newBlocks) then
        let oldBlock := Js.lookup oldBlocks oldIdx in
        let newBlock := Js.lookup newBlocks newIdx in
        match oldBlock, newBlock with
        | None, _ =>
            matchBlocksByPositionLoop fuel' oldBlocks newBlocks
              oldIdx (newIdx + 1) (pairs ++ [(None, newBlock)])%list
        | Some _, None =>
            matchBlocksByPositionLoop fuel' oldBlocks newBlocks
              (oldIdx + 1) newIdx (pairs ++ [(oldBlock, None)])%list
        | Some _, Some _ =>
            matchBlocksByPositionLoop fuel' oldBlocks newBlocks
              (oldIdx + 1) (newIdx + 1) (pairs ++ [(oldBlock, newBlock)])%list
        end
      else pairs
  end.

Definition matchBlocksByPosition (oldBlocks newBlocks : list Block)
    : list (option Block * option Block) :=
  matchBlocksByPositionLoop (List.length oldBlocks + List.length newBlocks)
    oldBlocks newBlocks 0 0 [].

Definition isSameBlockType (this : t) (block1 block2 : option Block) : bool :=
  match block1, block2 with
  | Some b1, Some b2 =>
      let tag1 := tagName b1 in
      let tag2 := tagName b2 in
      if String.eqb tag1 tag2 then true
      else match mapGet (equivalentTypes this) tag1 with
           | Some equivalentGroup => Utils.has equivalentGroup tag2
           | None => false
           end
  | _, _ => false
  end.

Definition getBlockContent (words : list string) (block : Block) : string :=
  Js.join (Js.slice words (startIndex block) (endIndex block + 1)).

Definition getBlockInnerWords (words : list string) (block : Block)
    : list string :=
  Js.slice words (startIndex block + 1) (endIndex block).

End BlockAnalyzer.

(* ------------------------------------------------------------------ *)
(** ** Match.ts and Operation.ts *)

Module Match.

(** Modelled from the spec: [Match.ts] is not among the sources.  A Match
    is [{ startInOld, startInNew, size }] with
    [endInOld = startInOld + size] and [endInNew = startInNew + size];
    the constructor takes the three fields in this order. *)
Record t := {
  startInOld : Z;
  startInNew : Z;
  size : Z
}.

Definition endInOld (m : t) : Z := startInOld m + size m.
Definition endInNew (m : t) : Z := startInNew m + size m.

End Match.

Module Operation.

(** Modelled from the spec: [Operation.ts] is not among the sources.  An
    Operation is a typed range descriptor
    [{ action, startInOld, endInOld, startInNew, endInNew }]. *)
Record t := {
  action : Types.Action;
  startInOld : Z;
  endInOld : Z;
  startInNew : Z;
  endInNew : Z
}.

End Operation.

(* ------------------------------------------------------------------ *)
(** ** Diff.ts: class HtmlDiff *)

Module HtmlDiff.

Import BlockAnalyzer.

Definition MatchGranularityMaximum : Z := 4.

(** An element of [matches] in [matchBlocksByTypeSimilarity]. *)
Record Anchor := {
  oldIndex : Z;
  newIndex : Z
}.

(** An element of [changes] in [detectBlockTypeChanges]. *)
Record Change := {
  oldStart : Z;
  oldEnd : Z;
  newStart : Z;
  newEnd : Z
}.

(** [reduce((t, n) => t + n.length, 0)] *)
Definition sumLength (l : list string) : Z :=
  fold_left (fun t n => t + Js.strlen n) l 0.

(** [`<${tag} class="${cssClass}">${text}</${tag}>`] *)
Definition marker (tag cssClass text : string) : string :=
  "<" ++ tag ++ " class=" ++ Js.dq ++ cssClass ++ Js.dq ++ ">" ++ text
  ++ "</" ++ tag ++ ">".

(** The loop of [consecutiveWhere]: the last index that satisfies the
    predicate before the first one that does not. *)
Fixpoint lastMatching (predicate : string -> bool) (content : list string)
    (index : Z) (lastMatchingIndex : option Z) : option Z :=
  match content with
  | [] => lastMatchingIndex
  | token :: content' =>
      if predicate token
      then lastMatching predicate content' (index + 1) (Some index)
      else lastMatchingIndex
  end.

Definition consecutiveWhere (start : Z) (content : list string)
    (predicate : string -> bool) : list string :=
  let content := Js.slice content start (Js.len content + 1) in
  match lastMatching predicate content 0 None with
  | Some lastMatchingIndex => Js.slice content 0 (lastMatchingIndex + 1)
  | None => []
  end.

(** The [while (true)] of [insertTag]; every round consumes a token. *)
Fixpoint insertTagLoop (fuel : nat) (tag cssClass : string)
    (content : list string) (position : Z) (rendering : string) : string :=
  match fuel with
  | O => rendering
  | S fuel' =>
      if position >=? Js.len content then rendering
      else
        let nonTags :=
          consecutiveWhere position content (fun x => negb (Utils.isTag x)) in
        let position := position + Js.len nonTags in
        let rendering :=
          if negb (Js.len nonTags =? 0)
          then rendering ++ marker tag cssClass (Js.join nonTags)
          else rendering in
        if position >=? Js.len content then rendering
        else
          let tags := consecutiveWhere position content Utils.isTag in
          let position := position + Js.len tags in
          let rendering := rendering ++ Js.join tags in
          insertTagLoop fuel' tag cssClass content position rendering
  end.

(** What [insertTag] pushes on [this.content]. *)
Definition insertTagRendering (tag cssClass : string) (content : list string)
    : string :=
  insertTagLoop (List.length content) tag cssClass content 0 "".

Section Engine.

(** [BlockExpression] holds regular expressions; the engine only hands
    the list to the word splitter. *)
Variable BlockExpression : Type.

(** [WordSplitter.convertHtmlToListOfWords]: every word with, for some
    tags, its original form.  [WordSplitter.ts] is not among the
    sources. *)
Variable convertHtmlToListOfWords :
  string -> list BlockExpression -> list (string * option string).

(** [new MatchFinder({ oldWords, newWords, startInOld, endInOld,
    startInNew, endInNew, options }).findMatch()].  [MatchFinder.ts] is
    not among the sources. *)
Variable MatchFinder_findMatch :
  list string -> list string -> Z -> Z -> Z -> Z -> Types.MatchOptions ->
  option Match.t.

(** The fields of the class.  A [Map<number, string>] is the list of its
    entries in insertion order.  [specialTagDiffStack] is never read. *)
Record t := {
  content : list string;
  newText : string;
  oldText : string;
  newWords : list string;
  oldWords : list string;
  originalWordsInNew : list (Z * string);
  originalWordsInOld : list (Z * string);
  matchGranularity : Z;
  blockExpressions : list BlockExpression;
  repeatingWordsAccuracy : Q;
  ignoreWhiteSpaceDifferences : bool;
  orphanMatchThreshold : spec_float;
  blockDiffOptions : option Types.BlockDiffOptions;
  blockAnalyzer : option BlockAnalyzer.t;
  oldBlocks : list BlockAnalyzer.Block;
  newBlocks : list BlockAnalyzer.Block
}.

Definition set_content (this : t) (v : list string) : t :=
  {| content := v;
     newText := newText this;
     oldText := oldText this;
     newWords := newWords this;
     oldWords := oldWords this;
     originalWordsInNew := originalWordsInNew this;
     originalWordsInOld := originalWordsInOld this;
     matchGranularity := matchGranularity this;
     blockExpressions := blockExpressions this;
     repeatingWordsAccuracy := repeatingWordsAccuracy this;
     ignoreWhiteSpaceDifferences := ignoreWhiteSpaceDifferences this;
     orphanMatchThreshold := orphanMatchThreshold this;
     blockDiffOptions := blockDiffOptions this;
     blockAnalyzer := blockAnalyzer this;
     oldBlocks := oldBlocks this;
     newBlocks := newBlocks this |}.

Definition set_newText (this : t) (v : string) : t :=
  {| content := content this;
     newText := v;
     oldText := oldText this;
     newWords := newWords this;
     oldWords := oldWords this;
     originalWordsInNew := originalWordsInNew this;
     originalWordsInOld := originalWordsInOld this;
     matchGranularity := matchGranularity this;
     blockExpressions := blockExpressions this;
     repeatingWordsAccuracy := repeatingWordsAccuracy this;
     ignoreWhiteSpaceDifferences := ignoreWhiteSpaceDifferences this;
     orphanMatchThreshold := orphanMatchThreshold this;
     blockDiffOptions := blockDiffOptions this;
     blockAnalyzer := blockAnalyzer this;
     oldBlocks := oldBlocks this;
     newBlocks := newBlocks this |}.

Definition set_oldText (this : t) (v : string) : t :=
  {| content := content this;
     newText := newText this;
     oldText := v;
     newWords := newWords this;
     oldWords := oldWords this;
     originalWordsInNew := originalWordsInNew this;
     originalWordsInOld := originalWordsInOld this;
     matchGranularity := matchGranularity this;
     blockExpressions := blockExpressions this;
     repeatingWordsAccuracy := repeatingWordsAccuracy this;
     ignoreWhiteSpaceDifferences := ignoreWhiteSpaceDifferences this;
     orphanMatchThreshold := orphanMatchThreshold this;
     blockDiffOptions := blockDiffOptions this;
     blockAnalyzer := blockAnalyzer this;
     oldBlocks := oldBlocks this;
     newBlocks := newBlocks this |}.

Definition set_newWords (this : t) (v : list string) : t :=
  {| content := content this;
     newText := newText this;
     oldText := oldText this;
     newWords := v;
     oldWords := oldWords this;
     originalWordsInNew := originalWordsInNew this;
     originalWordsInOld := originalWordsInOld this;
     matchGranularity := matchGranularity this;
     blockExpressions := blockExpressions this;
     repeatingWordsAccuracy := repeatingWordsAccuracy this;
     ignoreWhiteSpaceDifferences := ignoreWhiteSpaceDifferences this;
     orphanMatchThreshold := orphanMatchThreshold this;
     blockDiffOptions := blockDiffOptions this;
     blockAnalyzer := blockAnalyzer this;
     oldBlocks := oldBlocks this;
     newBlocks := newBlocks this |}.

Definition set_oldWords (this : t) (v : list string) : t :=
  {| content := content this;
     newText := newText this;
     oldText := oldText this;
     newWords := newWords this;
     oldWords := v;
     originalWordsInNew := originalWordsInNew this;
     originalWordsInOld := originalWordsInOld this;
     matchGranularity := matchGranularity this;
     blockExpressions := blockExpressions this;
     repeatingWordsAccuracy := repeatingWordsAccuracy this;
     ignoreWhiteSpaceDifferences := ignoreWhiteSpaceDifferences this;
     orphanMatchThreshold := orphanMatchThreshold this;
     blockDiffOptions := blockDiffOptions this;
     blockAnalyzer := blockAnalyzer this;
     oldBlocks := oldBlocks this;
     newBlocks := newBlocks this |}.

Definition set_originalWordsInNew (this : t) (v : list (Z * string)) : t :=
  {| content := content this;
     newText := newText this;
     oldText := oldText this;
     newWords := newWords this;
     oldWords := oldWords this;
     originalWordsInNew := v;
     originalWordsInOld := originalWordsInOld this;
     matchGranularity := matchGranularity this;
     blockExpressions := blockExpressions this;
     repeatingWordsAccuracy := repeatingWordsAccuracy this;
     ignoreWhiteSpaceDifferences := ignoreWhiteSpaceDifferences this;
     orphanMatchThreshold := orphanMatchThreshold this;
     blockDiffOptions := blockDiffOptions this;
     blockAnalyzer := blockAnalyzer this;
     oldBlocks := oldBlocks this;
     newBlocks := newBlocks this |}.

Definition set_originalWordsInOld (this : t) (v : list (Z * string)) : t :=
  {| content := content this;
     newText := newText this;
     oldText := oldText this;
     newWords := newWords this;
     oldWords := oldWords this;
     originalWordsInNew := originalWordsInNew this;
     originalWordsInOld := v;
     matchGranularity := matchGranularity this;
     blockExpressions := blockExpressions this;
     repeatingWordsAccuracy := repeatingWordsAccuracy this;
     ignoreWhiteSpaceDifferences := ignoreWhiteSpaceDifferences this;
     orphanMatchThreshold := orphanMatchThreshold this;
     blockDiffOptions := blockDiffOptions this;
     blockAnalyzer := blockAnalyzer this;
     oldBlocks := oldBlocks this;
     newBlocks := newBlocks this |}.

Definition set_matchGranularity (this : t) (v : Z) : t :=
  {| content := content this;
     newText := newText this;
     oldText := oldText this;
     newWords := newWords this;
     oldWords := oldWords this;
     originalWordsInNew := originalWordsInNew this;
     originalWordsInOld := originalWordsInOld this;
     matchGranularity := v;
     blockExpressions := blockExpressions this;
     repeatingWordsAccuracy := repeatingWordsAccuracy this;
     ignoreWhiteSpaceDifferences := ignoreWhiteSpaceDifferences this;
     orphanMatchThreshold := orphanMatchThreshold this;
     blockDiffOptions := blockDiffOptions this;
     blockAnalyzer := blockAnalyzer this;
     oldBlocks := oldBlocks this;
     newBlocks := newBlocks this |}.

Definition set_blockExpressions (this : t) (v : list BlockExpression) : t :=
  {| content := content this;
     newText := newText this;
     oldText := oldText this;
     newWords := newWords this;
     oldWords := oldWords this;
     originalWordsInNew := originalWordsInNew this;
     originalWordsInOld := originalWordsInOld this;
     matchGranularity := matchGranularity this;
     blockExpressions := v;
     repeatingWordsAccuracy := repeatingWordsAccuracy this;
     ignoreWhiteSpaceDifferences := ignoreWhiteSpaceDifferences this;
     orphanMatchThreshold := orphanMatchThreshold this;
     blockDiffOptions := blockDiffOptions this;
     blockAnalyzer := blockAnalyzer this;
     oldBlocks := oldBlocks this;
     newBlocks := newBlocks this |}.

Definition set_oldBlocks (this : t) (v : list BlockAnalyzer.Block) : t :=
  {| content := content this;
     newText := newText this;
     oldText := oldText this;
     newWords := newWords this;
     oldWords := oldWords this;
     originalWordsInNew := originalWordsInNew this;
     originalWordsInOld := originalWordsInOld this;
     matchGranularity := matchGranularity this;
     blockExpressions := blockExpressions this;
     repeatingWordsAccuracy := repeatingWordsAccuracy this;
     ignoreWhiteSpaceDifferences := ignoreWhiteSpaceDifferences this;
     orphanMatchThreshold := orphanMatchThreshold this;
     blockDiffOptions := blockDiffOptions this;
     blockAnalyzer := blockAnalyzer this;
     oldBlocks := v;
     newBlocks := newBlocks this |}.

Definition set_newBlocks (this : t) (v : list BlockAnalyzer.Block) : t :=
  {| content := content this;
     newText := newText this;
     oldText := oldText this;
     newWords := newWords this;
     oldWords := oldWords this;
     originalWordsInNew := originalWordsInNew this;
     originalWordsInOld := originalWordsInOld this;
     matchGranularity := matchGranularity this;
     blockExpressions := blockExpressions this;
     repeatingWordsAccuracy := repeatingWordsAccuracy this;
     ignoreWhiteSpaceDifferences := ignoreWhiteSpaceDifferences this;
     orphanMatchThreshold := orphanMatchThreshold this;
     blockDiffOptions := blockDiffOptions this;
     blockAnalyzer := blockAnalyzer this;
     oldBlocks := oldBlocks this;
     newBlocks := v |}.


Record HtmlDiffOptions := {
  blockDiff : option Types.BlockDiffOptions
}.

Definition constructor (oldText newText : string)
    (options : option HtmlDiffOptions) : t :=
  let blockDiffOptions :=
    match options with Some o => blockDiff o | None => None end in
  {| content := [];
     newText := newText;
     oldText := oldText;
     newWords := [];
     oldWords := [];
     originalWordsInNew := [];
     originalWordsInOld := [];
     matchGranularity := 0;
     blockExpressions := [];
     repeatingWordsAccuracy := 1;
     ignoreWhiteSpaceDifferences := false;
     orphanMatchThreshold := JsNum.zero;
     blockDiffOptions := blockDiffOptions;
     blockAnalyzer :=
       match blockDiffOptions with
       | Some o =>
           if Types.enabled o
           then Some (BlockAnalyzer.constructor blockDiffOptions)
           else None
       | None => None
       end;
     oldBlocks := [];
     newBlocks := [] |}.

Definition addBlockExpression (this : t) (exp : BlockExpression) : t :=
  set_blockExpressions this (blockExpressions this ++ [exp])%list.

(** [words.forEach((el, idx) => el[1] && map.set(idx, el[1]))] *)
Fixpoint originals (words : list (string * option string)) (idx : Z)
    : list (Z * string) :=
  match words with
  | [] => []
  | (_, Some o) :: words' =>
      if String.eqb o "" then originals words' (idx + 1)
      else (idx, o) :: originals words' (idx + 1)
  | (_, None) :: words' => originals words' (idx + 1)
  end.

Definition splitInputsIntoWords (this : t) : t :=
  let words := convertHtmlToListOfWords (oldText this) (blockExpressions this) in
  let this := set_originalWordsInOld this (originals words 0) in
  let this := set_oldWords this (map fst words) in
  let this := set_oldText this "" in
  let newWords := convertHtmlToListOfWords (newText this) (blockExpressions this) in
  let this := set_originalWordsInNew this (originals newWords 0) in
  let this := set_newWords this (map fst newWords) in
  set_newText this "".

(** [map.forEach((value, key) => { words[key] = value })] *)
Definition restore (words : list string) (m : list (Z * string))
    : list string :=
  fold_left (fun ws e => Js.update ws (Z.to_nat (fst e)) (snd e)) m words.

(* -------------------------------------------------------------- *)
(** *** Matching *)

(** [for (let i = this.matchGranularity; i > 0; i--)] *)
Fixpoint findMatchFrom (this : t) (i : nat)
    (startInOld endInOld startInNew endInNew : Z) : option Match.t :=
  match i with
  | O => None
  | S i' =>
      let options :=
        {| Types.blockSize := Z.of_nat i;
           Types.repeatingWordsAccuracy := repeatingWordsAccuracy this;
           Types.ignoreWhitespaceDifferences :=
             ignoreWhiteSpaceDifferences this |} in
      match MatchFinder_findMatch (oldWords this) (newWords this)
              startInOld endInOld startInNew endInNew options with
      | Some m => Some m
      | None => findMatchFrom this i' startInOld endInOld startInNew endInNew
      end
  end.

Definition findMatch (this : t)
    (startInOld endInOld startInNew endInNew : Z) : option Match.t :=
  findMatchFrom this (Z.to_nat (matchGranularity this))
    startInOld endInOld startInNew endInNew.

(** The recursion ends only if the finder returns matches that shrink
    the window; [None] is a recursion that did not end within [fuel]
    nested calls. *)
Fixpoint findMatchingBlocks (fuel : nat) (this : t)
    (startInOld endInOld startInNew endInNew : Z)
    (matchingBlocks : list Match.t) : option (list Match.t) :=
  match fuel with
  | O => None
  | S fuel' =>
      match findMatch this startInOld endInOld startInNew endInNew with
      | None => Some matchingBlocks
      | Some m =>
          let before :=
            if (startInOld <? Match.startInOld m)
               && (startInNew <? Match.startInNew m)
            then findMatchingBlocks fuel' this
                   startInOld (Match.startInOld m)
                   startInNew (Match.startInNew m) matchingBlocks
            else Some matchingBlocks in
          match before with
          | None => None
          | Some matchingBlocks =>
              let matchingBlocks := (matchingBlocks ++ [m])%list in
              if (Match.endInOld m <? endInOld)
                 && (Match.endInNew m <? endInNew)
              then findMatchingBlocks fuel' this
                     (Match.endInOld m) endInOld
                     (Match.endInNew m) endInNew matchingBlocks
              else Some matchingBlocks
          end
      end
  end.

Definition matchingBlocks (this : t) : option (list Match.t) :=
  findMatchingBlocks
    (S (List.length (oldWords this) + List.length (newWords this)))
    this 0 (Js.len (oldWords this)) 0 (Js.len (newWords this)) [].

(** The generator after its first element: [prev] and [curr] are set.
    The first branch yields [curr] and leaves [prev] as it is. *)
Fixpoint removeOrphansLoop (this : t) (prev curr : Match.t)
    (matches : list Match.t) : list Match.t :=
  match matches with
  | [] => [curr]
  | next :: matches' =>
      if (Match.endInOld prev =? Match.startInOld curr)
         && (Match.endInNew prev =? Match.startInNew curr)
         || (Match.endInOld curr =? Match.startInOld next)
            && (Match.endInNew curr =? Match.startInNew next)
      then curr :: removeOrphansLoop this prev next matches'
      else
        let oldDistanceInChars :=
          sumLength (Js.slice (oldWords this)
                       (Match.endInOld prev) (Match.startInOld next)) in
        let newDistanceInChars :=
          sumLength (Js.slice (newWords this)
                       (Match.endInNew prev) (Match.startInNew next)) in
        let currMatchLengthInChars :=
          sumLength (Js.slice (newWords this)
                       (Match.startInNew curr) (Match.endInNew curr)) in
        let kept :=
          if JsNum.gt (JsNum.ofLength currMatchLengthInChars)
               (JsNum.mul
                  (JsNum.ofLength
                     (Z.max oldDistanceInChars newDistanceInChars))
                  (orphanMatchThreshold this))
          then [curr] else [] in
        (kept ++ removeOrphansLoop this curr next matches')%list
  end.

(** On an empty array the generator yields the [null] that [curr]
    still holds: [None]. *)
Definition removeOrphans (this : t) (matches : list Match.t)
    : list (option Match.t) :=
  match matches with
  | [] => [None]
  | next :: matches' =>
      map Some
        (removeOrphansLoop this
           {| Match.startInOld := 0; Match.startInNew := 0; Match.size := 0 |}
           next matches')
  end.

(** [for (let match of matchesWithoutOrphans)]; reading a field of
    [null] throws: [None]. *)
Fixpoint operationsLoop (matches : list (option Match.t))
    (positionInOld positionInNew : Z) (operations : list Operation.t)
    : option (list Operation.t) :=
  match matches with
  | [] => Some operations
  | None :: _ => None
  | Some m :: matches' =>
      let matchStartsAtCurrentPositionInOld :=
        positionInOld =? Match.startInOld m in
      let matchStartsAtCurrentPositionInNew :=
        positionInNew =? Match.startInNew m in
      let action :=
        if negb matchStartsAtCurrentPositionInOld
           && negb matchStartsAtCurrentPositionInNew
        then Types.replace
        else if matchStartsAtCurrentPositionInOld
                && negb matchStartsAtCurrentPositionInNew
        then Types.insert
        else if negb matchStartsAtCurrentPositionInOld
        then Types.delete
        else Types.none in
      let operations :=
        match action with
        | Types.none => operations
        | _ =>
            (operations ++
             [{| Operation.action := action;
                 Operation.startInOld := positionInOld;
                 Operation.endInOld := Match.startInOld m;
                 Operation.startInNew := positionInNew;
                 Operation.endInNew := Match.startInNew m |}])%list
        end in
      let operations :=
        if negb (Match.size m =? 0)
        then (operations ++
              [{| Operation.action := Types.equal;
                  Operation.startInOld := Match.startInOld m;
                  Operation.endInOld := Match.endInOld m;
                  Operation.startInNew := Match.startInNew m;
                  Operation.endInNew := Match.endInNew m |}])%list
        else operations in
      operationsLoop matches' (Match.endInOld m) (Match.endInNew m)
        operations
  end.

Definition operations (this : t) : option (list Operation.t) :=
  match matchingBlocks this with
  | None => None
  | Some matches =>
      let matches :=
        (matches ++
         [{| Match.startInOld := Js.len (oldWords this);
             Match.startInNew := Js.len (newWords this);
             Match.size := 0 |}])%list in
      let matchesWithoutOrphans := removeOrphans this matches in
      operationsLoop matchesWithoutOrphans 0 0 []
  end.

(* -------------------------------------------------------------- *)
(** *** Rendering *)

Definition insertTag (this : t) (tag cssClass : string)
    (content' : list string) : t :=
  set_content this
    (content this ++ [insertTagRendering tag cssClass content'])%list.

Definition processInsertOperation (this : t) (opp : Operation.t)
    (cssClass : string) : t :=
  let text :=
    Js.filterPos
      (fun pos => (pos >=? Operation.startInNew opp)
                  && (pos <? Operation.endInNew opp))
      0 (newWords this) in
  insertTag this "ins" cssClass text.

Definition processDeleteOperation (this : t) (opp : Operation.t)
    (cssClass : string) : t :=
  let text :=
    Js.filterPos
      (fun pos => (pos >=? Operation.startInOld opp)
                  && (pos <? Operation.endInOld opp))
      0 (oldWords this) in
  insertTag this "del" cssClass text.

Definition processEqualOperation (this : t) (opp : Operation.t) : t :=
  let result :=
    Js.filterPos
      (fun pos => (pos >=? Operation.startInNew opp)
                  && (pos <? Operation.endInNew opp))
      0 (newWords this) in
  set_content this (content this ++ [Js.join result])%list.

(** [blocks.filter(b => b.startIndex < end && b.endIndex >= start)] *)
Definition blocksInRange (blocks : list Block) (start end_ : Z)
    : list Block :=
  filter (fun b => (startIndex b <? end_) && (endIndex b >=? start)) blocks.

(** [for (i ...) if (!isSameBlockType(a[i], b[i])) return true], over
    the indices of [a]. *)
Fixpoint anyTypeDiffers (an : BlockAnalyzer.t) (a b : list Block) : bool :=
  match a with
  | [] => false
  | x :: a' =>
      if negb (isSameBlockType an (Some x) (hd_error b)) then true
      else anyTypeDiffers an a' (tl b)
  end.

Definition shouldUseBlockReplacement (this : t) (opp : Operation.t) : bool :=
  match blockAnalyzer this with
  | None => false
  | Some an =>
      let oldBlocksInRange :=
        blocksInRange (oldBlocks this)
          (Operation.startInOld opp) (Operation.endInOld opp) in
      let newBlocksInRange :=
        blocksInRange (newBlocks this)
          (Operation.startInNew opp) (Operation.endInNew opp) in
      if (Js.len oldBlocksInRange =? 0) && (Js.len newBlocksInRange =? 0)
      then false
      else if (Js.len oldBlocksInRange =? 0) || (Js.len newBlocksInRange =? 0)
      then true
      else if negb (Js.len oldBlocksInRange =? Js.len newBlocksInRange)
      then true
      else anyTypeDiffers an oldBlocksInRange newBlocksInRange
  end.

Definition processReplaceOperation (this : t) (opp : Operation.t) : t :=
  if match blockAnalyzer this with Some _ => true | None => false end
     && shouldUseBlockReplacement this opp
  then
    let this := processDeleteOperation this opp "diffdel" in
    processInsertOperation this opp "diffins"
  else
    let this := processDeleteOperation this opp "diffmod" in
    processInsertOperation this opp "diffmod".

Definition performOperation (this : t) (opp : Operation.t) : t :=
  match Operation.action opp with
  | Types.equal => processEqualOperation this opp
  | Types.delete => processDeleteOperation this opp "diffdel"
  | Types.insert => processInsertOperation this opp "diffins"
  | Types.none => this
  | Types.replace => processReplaceOperation this opp
  end.

(* -------------------------------------------------------------- *)
(** *** Block-aware alignment *)

(** [blocks.map(block => getBlockInnerWords(words, block).join("").length)] *)
Definition innerLengths (words : list string) (blocks : list Block)
    : list Z :=
  map (fun block => Js.strlen (Js.join (getBlockInnerWords words block)))
    blocks.

(** [lengths[i]] for an index that [blocks[i]] has shown to be inside. *)
Definition lengthAt (lengths : list Z) (i : Z) : Z :=
  match Js.lookup lengths i with Some v => v | None => 0 end.

Definition scoreForMatch (this : t) (oldIndex newIndex : Z) : Z :=
  let oldLengths := innerLengths (oldWords this) (oldBlocks this) in
  let newLengths := innerLengths (newWords this) (newBlocks this) in
  match Js.lookup (oldBlocks this) oldIndex,
        Js.lookup (newBlocks this) newIndex,
        blockAnalyzer this with
  | Some oldBlock, Some newBlock, Some an =>
      if negb (isSameBlockType an (Some oldBlock) (Some newBlock)) then 0
      else
        let oldLength := lengthAt oldLengths oldIndex in
        let newLength := lengthAt newLengths newIndex in
        let maxLength := Z.max oldLength newLength in
        if maxLength =? 0 then 100
        else
          let diffRatio :=
            JsNum.div (JsNum.ofZ (Z.abs (oldLength - newLength)))
              (JsNum.ofZ maxLength) in
          100 - JsNum.round (JsNum.mul diffRatio (JsNum.ofZ 100))
  | _, _, _ => 0
  end.

(** [dp[i][j]] *)
Definition cell (dp : list (list Z)) (i j : Z) : Z :=
  nth (Z.to_nat j) (nth (Z.to_nat i) dp []) 0.

(** Row [i] of [dp] from row [i + 1]: the loop
    [for (let j = newCount - 1; j >= 0; j--)], each cell from the cell
    to its right and the two cells below. *)
Definition dpRow (score : Z -> Z) (newCount : nat) (below : list Z)
    : list Z :=
  fold_right
    (fun j row =>
       let matchScore := score (Z.of_nat j) in
       let skipOld := nth j below 0 in
       let skipNew := hd 0 row in
       let takeMatch :=
         if matchScore >? 0 then nth (S j) below 0 + matchScore else 0 in
       Z.max (Z.max skipOld skipNew) takeMatch :: row)
    [0] (seq 0 newCount).

(** The table after [for (let i = oldCount - 1; i >= 0; i--)]: the rows
    [i .. oldCount], the last one all zero. *)
Definition dpTable (score : Z -> Z -> Z) (oldCount newCount : nat)
    : list (list Z) :=
  fold_right
    (fun i rows => dpRow (score (Z.of_nat i)) newCount (hd [] rows) :: rows)
    [repeat 0 (S newCount)] (seq 0 oldCount).

(** [while (i < oldCount && j < newCount)] *)
Fixpoint backtrack (fuel : nat) (score : Z -> Z -> Z) (dp : list (list Z))
    (oldCount newCount : Z) (i j : Z) (matches : list Anchor)
    : list Anchor :=
  match fuel with
  | O => matches
  | S fuel' =>
      if (i <? oldCount) && (j <? newCount) then
        let matchScore := score i j in
        if (matchScore >? 0)
           && (cell dp i j =? cell dp (i + 1) (j + 1) + matchScore)
        then backtrack fuel' score dp oldCount newCount (i + 1) (j + 1)
               (matches ++ [{| oldIndex := i; newIndex := j |}])%list
        else if cell dp (i + 1) j >=? cell dp i (j + 1)
        then backtrack fuel' score dp oldCount newCount (i + 1) j matches
        else backtrack fuel' score dp oldCount newCount i (j + 1) matches
      else matches
  end.

Definition matchBlocksByTypeSimilarity (this : t) : list Anchor :=
  match blockAnalyzer this with
  | None => []
  | Some _ =>
      let oldCount := List.length (oldBlocks this) in
      let newCount := List.length (newBlocks this) in
      let dp := dpTable (scoreForMatch this) oldCount newCount in
      backtrack (oldCount + newCount) (scoreForMatch this) dp
        (Z.of_nat oldCount) (Z.of_nat newCount) 0 0 []
  end.

(** [for (j ...) if (!isSameBlockType(oldRange[j], newRange[j]))
    { typesMatch = false; break }] *)
Fixpoint allSameType (an : BlockAnalyzer.t) (oldRange newRange : list Block)
    : bool :=
  match oldRange with
  | [] => true
  | b :: oldRange' =>
      if negb (isSameBlockType an (Some b) (hd_error newRange)) then false
      else allSameType an oldRange' (tl newRange)
  end.

(** [for (let i = 0; i < anchoredMatches.length - 1; i++)] with
    [current = anchoredMatches[i]] and [next = anchoredMatches[i + 1]].
    In the branch that pushes a change both ranges have a first and a
    last block. *)
Fixpoint detectLoop (this : t) (an : BlockAnalyzer.t)
    (anchoredMatches : list Anchor) (changes : list Change) : list Change :=
  match anchoredMatches with
  | current :: ((next :: _) as rest) =>
      let oldRange :=
        Js.slice (oldBlocks this) (oldIndex current + 1) (oldIndex next) in
      let newRange :=
        Js.slice (newBlocks this) (newIndex current + 1) (newIndex next) in
      if (Js.len oldRange =? 0) || (Js.len newRange =? 0)
      then detectLoop this an rest changes
      else
        let typesMatch :=
          (Js.len oldRange =? Js.len newRange)
          && allSameType an oldRange newRange in
        if negb typesMatch then
          match Js.lookup oldRange 0,
                Js.lookup oldRange (Js.len oldRange - 1),
                Js.lookup newRange 0,
                Js.lookup newRange (Js.len newRange - 1) with
          | Some oldFirst, Some oldLast, Some newFirst, Some newLast =>
              detectLoop this an rest
                (changes ++
                 [{| oldStart := startIndex oldFirst;
                     oldEnd := endIndex oldLast;
                     newStart := startIndex newFirst;
                     newEnd := endIndex newLast |}])%list
          | _, _, _, _ => detectLoop this an rest changes
          end
        else detectLoop this an rest changes
  | _ => changes
  end.

Definition detectBlockTypeChanges (this : t) : list Change :=
  match blockAnalyzer this with
  | None => []
  | Some an =>
      let matches := matchBlocksByTypeSimilarity this in
      let anchoredMatches :=
        ({| oldIndex := -1; newIndex := -1 |} :: matches
         ++ [{| oldIndex := Js.len (oldBlocks this);
                newIndex := Js.len (newBlocks this) |}])%list in
      detectLoop this an anchoredMatches []
  end.

(** [subDiff] is [new HtmlDiff(oldText, newText).diff()]. *)
Definition diffWordRanges (subDiff : string -> string -> option string)
    (oldWords' newWords' : list string) : option string :=
  if (Js.len oldWords' =? 0) && (Js.len newWords' =? 0) then Some ""
  else
    let oldText := Js.join oldWords' in
    let newText := Js.join newWords' in
    if String.eqb oldText newText then Some newText
    else subDiff oldText newText.

(** [for (const change of blockTypeChanges)] *)
Fixpoint blockChangesLoop (subDiff : string -> string -> option string)
    (this : t) (blockTypeChanges : list Change) (oldPos newPos : Z)
    (result : list string) : option (list string * Z * Z) :=
  match blockTypeChanges with
  | [] => Some (result, oldPos, newPos)
  | change :: rest =>
      let before :=
        if (oldPos <? oldStart change) || (newPos <? newStart change) then
          let beforeOldWords :=
            Js.slice (oldWords this) oldPos (oldStart change) in
          let beforeNewWords :=
            Js.slice (newWords this) newPos (newStart change) in
          if (Js.len beforeOldWords >? 0) || (Js.len beforeNewWords >? 0)
          then
            match diffWordRanges subDiff beforeOldWords beforeNewWords with
            | Some beforeDiff => Some (result ++ [beforeDiff])%list
            | None => None
            end
          else Some result
        else Some result in
      match before with
      | None => None
      | Some result =>
          let oldBlockContent :=
            Js.join (Js.slice (oldWords this)
                       (oldStart change) (oldEnd change + 1)) in
          let newBlockContent :=
            Js.join (Js.slice (newWords this)
                       (newStart change) (newEnd change + 1)) in
          let result :=
            (result ++ [marker "del" "diffdel" oldBlockContent])%list in
          let result :=
            (result ++ [marker "ins" "diffins" newBlockContent])%list in
          blockChangesLoop subDiff this rest
            (oldEnd change + 1) (newEnd change + 1) result
      end
  end.

Definition diffWithBlockTypeChanges
    (subDiff : string -> string -> option string) (this : t)
    (blockTypeChanges : list Change) : option string :=
  match blockChangesLoop subDiff this blockTypeChanges 0 0 [] with
  | None => None
  | Some (result, oldPos, newPos) =>
      if (oldPos <? Js.len (oldWords this))
         || (newPos <? Js.len (newWords this)) then
        let afterOldWords := Js.sliceFrom (oldWords this) oldPos in
        let afterNewWords := Js.sliceFrom (newWords this) newPos in
        if (Js.len afterOldWords >? 0) || (Js.len afterNewWords >? 0) then
          match diffWordRanges subDiff afterOldWords afterNewWords with
          | Some afterDiff => Some (Js.join (result ++ [afterDiff])%list)
          | None => None
          end
        else Some (Js.join result)
      else Some (Js.join result)
  end.

(* -------------------------------------------------------------- *)
(** *** diff *)

(** The part of [diff()] after the block-aware branch. *)
Definition diffWords (this : t) : option string :=
  let this :=
    set_matchGranularity this
      (Z.min (Z.min MatchGranularityMaximum (Js.len (oldWords this)))
         (Js.len (newWords this))) in
  match operations this with
  | None => None
  | Some operations =>
      let this :=
        set_oldWords this (restore (oldWords this) (originalWordsInOld this)) in
      let this :=
        set_newWords this (restore (newWords this) (originalWordsInNew this)) in
      let this := fold_left performOperation operations this in
      Some (Js.join (content this))
  end.

(** [diff()], the sub-diff of [diffWordRanges] given. *)
Definition diffWith (subDiff : string -> string -> option string)
    (this : t) : option string :=
  if String.eqb (oldText this) (newText this) then Some (newText this)
  else
    let this := splitInputsIntoWords this in
    match blockAnalyzer this with
    | Some an =>
        let this := set_oldBlocks this (findBlocks an (oldWords this)) in
        let this := set_newBlocks this (findBlocks an (newWords this)) in
        let blockTypeChanges := detectBlockTypeChanges this in
        if Js.len blockTypeChanges >? 0
        then diffWithBlockTypeChanges subDiff this blockTypeChanges
        else diffWords this
    | None => diffWords this
    end.

(** [diff()] with [depth] nested instances allowed.  [diffWordRanges]
    builds its instance without options, so that instance has no block
    analyzer and builds none itself: two levels are all there are. *)
Fixpoint diffDepth (depth : nat) (this : t) : option string :=
  match depth with
  | O => None
  | S depth' =>
      diffWith
        (fun oldText newText =>
           diffDepth depth' (constructor oldText newText None))
        this
  end.

Definition diff (this : t) : option string := diffDepth 2 this.

End Engine.

End HtmlDiff.

(* ------------------------------------------------------------------ *)
(** ** Diff.ts before the weighted alignment

    The earlier [detectBlockTypeChanges], which pairs the blocks by their
    rank with [BlockAnalyzer.matchBlocksByPosition]. *)

Module PositionalDiff.

Import BlockAnalyzer.

(** An element of [changes]. *)
Record Change := {
  oldBlock : Block;
  newBlock : Block
}.

(** [for (const pair of pairs)] *)
Fixpoint detectLoop (an : BlockAnalyzer.t)
    (pairs : list (option Block * option Block)) (changes : list Change)
    : list Change :=
  match pairs with
  | [] => changes
  | (Some o, Some n) :: pairs' =>
      if negb (isSameBlockType an (Some o) (Some n))
      then detectLoop an pairs'
             (changes ++ [{| oldBlock := o; newBlock := n |}])%list
      else detectLoop an pairs' changes
  | _ :: pairs' => detectLoop an pairs' changes
  end.

Definition detectBlockTypeChanges {BlockExpression : Type}
    (this : HtmlDiff.t BlockExpression) : list Change :=
  match HtmlDiff.blockAnalyzer _ this with
  | None => []
  | Some an =>
      let pairs :=
        matchBlocksByPosition (HtmlDiff.oldBlocks _ this)
          (HtmlDiff.newBlocks _ this) in
      detectLoop an pairs []
  end.

End PositionalDiff.

(* ------------------------------------------------------------------ *)
(** ** index.ts *)

Module Index.

Record Options (BlockExpression : Type) := {
  blocksExpression : option (list BlockExpression);
  blockDiff : option Types.BlockDiffOptions
}.
Arguments blocksExpression {BlockExpression}.
Arguments blockDiff {BlockExpression}.

Section Entry.

Variable BlockExpression : Type.
Variable convertHtmlToListOfWords :
  string -> list BlockExpression -> list (string * option string).
Variable MatchFinder_findMatch :
  list string -> list string -> Z -> Z -> Z -> Z -> Types.MatchOptions ->
  option Match.t.

(** [diff(oldText, newText, options = {})]; [None] when the engine does
    not return. *)
Definition diff (oldText newText : string)
    (options : Options BlockExpression) : option string :=
  let finder :=
    HtmlDiff.constructor BlockExpression oldText newText
      (Some {| HtmlDiff.blockDiff := blockDiff options |}) in
  let finder :=
    match blocksExpression options with
    | Some l => fold_left (HtmlDiff.addBlockExpression BlockExpression) l finder
    | None => finder
    end in
  HtmlDiff.diff BlockExpression convertHtmlToListOfWords
    MatchFinder_findMatch finder.

End Entry.

End Index.

(* ------------------------------------------------------------------ *)
(** ** WordSplitter.ts and MatchFinder.ts *)

Module WordSplitter.

(** The tag names of [specialCaseOpeningTagRegex] and of
    [specialCaseClosingTags] in [Diff.ts]. *)
Definition specialCaseTagNames : list string :=
  ["strong"; "b"; "i"; "dfn"; "em"; "big"; "small"; "u"; "sub"; "sup";
   "strike"; "s"].

Definition isSpecialCaseTag (word : string) : bool :=
  match Utils.getTagName word with
  | Some name => Utils.has specialCaseTagNames name
  | None => false
  end.

(** Reads a tag after its [<]: the text through the next [>], unless the
    input ends or another [<] comes first. *)
Fixpoint readTag (s : string) : option (string * string) :=
  match s with
  | EmptyString => None
  | String c s' =>
      if Ascii.eqb c ">" then Some (String c EmptyString, s')
      else if Ascii.eqb c "<" then None
      else match readTag s' with
           | Some (body, rest) => Some (String c body, rest)
           | None => None
           end
  end.

(** Reads an entity after its [&]: word characters through a [;]. *)
Fixpoint readEntity (s : string) : option (string * string) :=
  match s with
  | EmptyString => None
  | String c s' =>
      if Ascii.eqb c ";" then Some (String c EmptyString, s')
      else if Utils.isWordChar c then
        match readEntity s' with
        | Some (body, rest) => Some (String c body, rest)
        | None => None
        end
      else None
  end.

(** A run of white space, the literal [&nbsp;] included. *)
Fixpoint readSpaces (fuel : nat) (s : string) : string * string :=
  match fuel with
  | O => (EmptyString, s)
  | S fuel' =>
      match s with
      | EmptyString => (EmptyString, s)
      | String c s' =>
          if Utils.isSpace c then
            let (run, rest) := readSpaces fuel' s' in (String c run, rest)
          else if Js.startsWith s "&nbsp;" then
            let (run, rest) :=
              readSpaces fuel' (String.substring 6 (String.length s - 6) s) in
            ("&nbsp;" ++ run, rest)
          else (EmptyString, s)
      end
  end.

(** A run of word characters. *)
Fixpoint readWord (s : string) : string * string :=
  match s with
  | EmptyString => (EmptyString, s)
  | String c s' =>
      if Utils.isWordChar c then
        let (run, rest) := readWord s' in (String c run, rest)
      else (EmptyString, s)
  end.

Fixpoint scan (fuel : nat) (s : string) : list (string * option string) :=
  match fuel with
  | O => []
  | S fuel' =>
      match s with
      | EmptyString => []
      | String c s' =>
          if Ascii.eqb c "<" then
            match readTag s' with
            | Some (body, rest) =>
                let word := String c body in
                (if isSpecialCaseTag word then (word, None)
                 else (Utils.stripAnyAttributes word, Some word))
                :: scan fuel' rest
            | None => (String c EmptyString, None) :: scan fuel' s'
            end
          else if Utils.isSpace c || Js.startsWith s "&nbsp;" then
            let (run, rest) := readSpaces (String.length s) s in
            (run, None) :: scan fuel' rest
          else if Ascii.eqb c "&" then
            match readEntity s' with
            | Some (body, rest) => (String c body, None) :: scan fuel' rest
            | None => (String c EmptyString, None) :: scan fuel' s'
            end
          else if Utils.isWordChar c then
            let (run, rest) := readWord s in
            (run, None) :: scan fuel' rest
          else (String c EmptyString, None) :: scan fuel' s'
      end
  end.

(** Modelled from the spec: [WordSplitter.convertHtmlToListOfWords]
    ([WordSplitter.ts] is not among the sources), section 4.1.  A [<]
    starts a tag that runs through the next [>]; without one before the
    end of the input or before another [<], the [<] is ordinary text.  A
    [&] starts an entity that runs through a [;], and is ordinary text
    without one.  A run of white space (the literal [&nbsp;] included) is
    one token, a run of word characters (letters, digits, [_], [#], [@])
    is one token, any other character is a token of its own.  A tag is
    compared without its attributes and keeps its original form, except
    the emphasis tags, which are compared as they are written.  The
    custom atomic patterns are regular expressions and are modelled for
    the empty list only. *)
Definition convertHtmlToListOfWords (text : string)
    (blockExpressions : list Empty_set) : list (string * option string) :=
  scan (String.length text) text.

End WordSplitter.

Module MatchFinder.

Section Finder.

Variables oldWords newWords : list string.
Variables startInOld endInOld startInNew endInNew : Z.
Variable options : Types.MatchOptions.

(** A token as it is compared. *)
Definition normalize (word : string) : string :=
  if Types.ignoreWhitespaceDifferences options && Utils.isWhiteSpace word
  then " " else word.

(** The group of [blockSize] tokens that starts at [p], joined. *)
Definition group (words : list string) (p : Z) : string :=
  Js.join (map normalize (Js.slice words p (p + Types.blockSize options))).

Definition fits (p windowEnd : Z) : bool :=
  p + Types.blockSize options <=? windowEnd.

(** How often the group at [q] occurs in the new window. *)
Definition frequency (q : Z) : Z :=
  Js.len
    (filter
       (fun p => fits p endInNew && String.eqb (group newWords p) (group newWords q))
       (map (fun k => startInNew + Z.of_nat k)
          (seq 0 (Z.to_nat (endInNew - startInNew))))).

(** A group is left out of the lookup when it repeats too often for
    the size of the window. *)
Definition skipped (q : Z) : bool :=
  negb (Qle_bool (inject_Z (frequency q))
          (Types.repeatingWordsAccuracy options
           * inject_Z (endInNew - startInNew))).

Definition groupsMatch (i j : Z) : bool :=
  fits i endInOld && fits j endInNew
  && negb (skipped j)
  && String.eqb (group oldWords i) (group newWords j).

(** The number of consecutive groups that match from [(i, j)] on. *)
Fixpoint extension (fuel : nat) (i j : Z) : Z :=
  match fuel with
  | O => 0
  | S fuel' =>
      if groupsMatch i j then 1 + extension fuel' (i + 1) (j + 1) else 0
  end.

(** The candidate that starts at [(i, j)], if any. *)
Definition candidate (i j : Z) : option Match.t :=
  let n := extension (Z.to_nat (endInOld - i)) i j in
  if 0 <? n then
    Some {| Match.startInOld := i; Match.startInNew := j;
            Match.size := n + Types.blockSize options - 1 |}
  else None.

(** A later candidate replaces the best one only when it is longer. *)
Definition better (best : option Match.t) (c : option Match.t)
    : option Match.t :=
  match best, c with
  | Some b, Some m => if Match.size b <? Match.size m then c else best
  | None, _ => c
  | _, None => best
  end.

(** Modelled from the spec: [MatchFinder.findMatch] ([MatchFinder.ts]
    is not among the sources), section 4.3.  Every group of
    [blockSize] tokens of the new window is a candidate start unless
    it repeats more often than [repeatingWordsAccuracy] times the size
    of the window; from every position of the old window a match is
    extended one group at a time while the groups are equal; the
    longest extension wins, the earliest in old and then the earliest
    in new among equals; an empty or inverted window has no match. *)
Definition findMatch : option Match.t :=
  if (Types.blockSize options <? 1) || (startInOld <? 0) || (startInNew <? 0)
  then None
  else
    fold_left
      (fun best i =>
         fold_left (fun best j => better best (candidate i j))
           (map (fun k => startInNew + Z.of_nat k)
              (seq 0 (Z.to_nat (endInNew - startInNew))))
           best)
      (map (fun k => startInOld + Z.of_nat k)
         (seq 0 (Z.to_nat (endInOld - startInOld))))
      None.

End Finder.

End MatchFinder.

(** The engine on the modelled word splitter and match finder. *)
Definition diffModel (oldText newText : string)
    (options : Index.Options Empty_set) : option string :=
  Index.diff Empty_set WordSplitter.convertHtmlToListOfWords
    MatchFinder.findMatch oldText newText options.

(* ================================================================== *)
(** * Definitions used to state the properties *)

Module Spec.

(** The maximal runs of a list under a predicate, each with the value
    the predicate takes on it. *)
Fixpoint runs {A} (p : A -> bool) (l : list A) : list (bool * list A) :=
  match l with
  | [] => []
  | x :: l' =>
      match runs p l' with
      | (b, r) :: rs =>
          if Bool.eqb b (p x) then (b, x :: r) :: rs
          else (p x, [x]) :: (b, r) :: rs
      | [] => [(p x, [x])]
      end
  end.

(** Two neighbouring runs never carry the same value: runs are maximal. *)
Fixpoint alternate {A} (rs : list (bool * list A)) : Prop :=
  match rs with
  | r :: ((r' :: _) as rs') => fst r <> fst r' /\ alternate rs'
  | _ => True
  end.

(** The element [<tag class="cssClass">text</tag>], character by
    character. *)
Definition element (tag cssClass text : string) : string :=
  "<" ++ tag ++ " class=" ++ Js.dq ++ cssClass ++ Js.dq ++ ">"
  ++ text ++ "</" ++ tag ++ ">".

(** How a run is to be written: tags bare, other tokens together inside
    one element of the given tag and class. *)
Definition renderRun (tag cssClass : string) (r : bool * list string)
    : string :=
  if fst r then Js.join (snd r)
  else element tag cssClass (Js.join (snd r)).

(** The longest prefix on which a predicate holds, and what follows it. *)
Fixpoint leading {A} (p : A -> bool) (l : list A) : list A :=
  match l with
  | x :: l' => if p x then x :: leading p l' else []
  | [] => []
  end.

Fixpoint trailing {A} (p : A -> bool) (l : list A) : list A :=
  match l with
  | x :: l' => if p x then trailing p l' else l
  | [] => []
  end.

(** Two matches with no gap between them, on the old and on the new
    side. *)
Definition adjacent (a b : Match.t) : Prop :=
  Match.endInOld a = Match.startInOld b /\ Match.endInNew a = Match.startInNew b.

(** The number of characters of the tokens [from .. to). *)
Definition chars (words : list string) (from to : Z) : Z :=
  HtmlDiff.sumLength (Js.slice words from to).





(** The states of an [HtmlDiff] instance between its construction and
    its use of the matches: the constructor, then the methods and
    assignments of [diff()] that change a field. *)
Inductive Configured {BlockExpression : Type}
    (convertHtmlToListOfWords :
       string -> list BlockExpression -> list (string * option string))
    : HtmlDiff.t BlockExpression -> Prop :=
| Configured_new oldText newText options :
    Configured convertHtmlToListOfWords
      (HtmlDiff.constructor _ oldText newText options)
| Configured_addBlockExpression this exp :
    Configured convertHtmlToListOfWords this ->
    Configured convertHtmlToListOfWords (HtmlDiff.addBlockExpression _ this exp)
| Configured_split this :
    Configured convertHtmlToListOfWords this ->
    Configured convertHtmlToListOfWords
      (HtmlDiff.splitInputsIntoWords _ convertHtmlToListOfWords this)
| Configured_oldBlocks this v :
    Configured convertHtmlToListOfWords this ->
    Configured convertHtmlToListOfWords (HtmlDiff.set_oldBlocks _ this v)
| Configured_newBlocks this v :
    Configured convertHtmlToListOfWords this ->
    Configured convertHtmlToListOfWords (HtmlDiff.set_newBlocks _ this v)
| Configured_granularity this v :
    Configured convertHtmlToListOfWords this ->
    Configured convertHtmlToListOfWords (HtmlDiff.set_matchGranularity _ this v).

(** An instance with the given token arrays and orphan threshold, as
    [removeOrphans] reads them. *)
Definition thresholdState (oldWords newWords : list string)
    (threshold : spec_float) : HtmlDiff.t Empty_set :=
  {| HtmlDiff.content := [];
     HtmlDiff.newText := "";
     HtmlDiff.oldText := "";
     HtmlDiff.newWords := newWords;
     HtmlDiff.oldWords := oldWords;
     HtmlDiff.originalWordsInNew := [];
     HtmlDiff.originalWordsInOld := [];
     HtmlDiff.matchGranularity := 0;
     HtmlDiff.blockExpressions := [];
     HtmlDiff.repeatingWordsAccuracy := 1;
     HtmlDiff.ignoreWhiteSpaceDifferences := false;
     HtmlDiff.orphanMatchThreshold := threshold;
     HtmlDiff.blockDiffOptions := None;
     HtmlDiff.blockAnalyzer := None;
     HtmlDiff.oldBlocks := [];
     HtmlDiff.newBlocks := [] |}.

(** The same with a whole number as the threshold. *)
Definition orphanState (oldWords newWords : list string) (threshold : Z)
    : HtmlDiff.t Empty_set :=
  thresholdState oldWords newWords (JsNum.ofZ threshold).

Definition mkMatch (startInOld startInNew size : Z) : Match.t :=
  {| Match.startInOld := startInOld; Match.startInNew := startInNew;
     Match.size := size |}.

(** Matches in ascending order, without overlap, between two positions
    on each side. *)
Fixpoint ordered (ms : list Match.t) (posOld posNew endOld endNew : Z)
    : Prop :=
  match ms with
  | [] => posOld <= endOld /\ posNew <= endNew
  | m :: ms' =>
      posOld <= Match.startInOld m /\ posNew <= Match.startInNew m
      /\ 0 <= Match.size m
      /\ ordered ms' (Match.endInOld m) (Match.endInNew m) endOld endNew
  end.

(** Operations that follow one another from [(posOld, posNew)] to
    [(endOld, endNew)]: each starts, on both sides, where the one before
    it ends, and none ends before it starts. *)
Fixpoint tiles (ops : list Operation.t) (posOld posNew endOld endNew : Z)
    : Prop :=
  match ops with
  | [] => posOld = endOld /\ posNew = endNew
  | op :: ops' =>
      Operation.startInOld op = posOld /\ Operation.startInNew op = posNew
      /\ posOld <= Operation.endInOld op /\ posNew <= Operation.endInNew op
      /\ tiles ops' (Operation.endInOld op) (Operation.endInNew op)
           endOld endNew
  end.

Definition coversOld (i : Z) (op : Operation.t) : bool :=
  (Operation.startInOld op <=? i) && (i <? Operation.endInOld op).

Definition coversNew (i : Z) (op : Operation.t) : bool :=
  (Operation.startInNew op <=? i) && (i <? Operation.endInNew op).

Definition inWindow (startInOld endInOld startInNew endInNew : Z)
    (m : Match.t) : Prop :=
  startInOld <= Match.startInOld m /\ Match.endInOld m <= endInOld
  /\ startInNew <= Match.startInNew m /\ Match.endInNew m <= endInNew
  /\ 0 < Match.size m.

(** What the engine asks of a match finder: a match lies inside the two
    windows it was asked for and is not empty. *)
Definition finderInWindow
    (findMatch : list string -> list string -> Z -> Z -> Z -> Z ->
                 Types.MatchOptions -> option Match.t) : Prop :=
  forall oldWords newWords startInOld endInOld startInNew endInNew options m,
    0 <= startInOld <= endInOld -> 0 <= startInNew <= endInNew ->
    1 <= Types.blockSize options ->
    findMatch oldWords newWords startInOld endInOld startInNew endInNew options
    = Some m ->
    inWindow startInOld endInOld startInNew endInNew m.

(** An instance as [diff()] has it when it aligns blocks: the token
    arrays given, block-aware diffing enabled with the options given, and
    the blocks found in each array. *)
Definition alignState (oldWords newWords : list string)
    (options : Types.BlockDiffOptions) : HtmlDiff.t Empty_set :=
  let this :=
    HtmlDiff.constructor Empty_set "" ""
      (Some {| HtmlDiff.blockDiff := Some options |}) in
  let this := HtmlDiff.set_oldWords _ this oldWords in
  let this := HtmlDiff.set_newWords _ this newWords in
  match HtmlDiff.blockAnalyzer _ this with
  | Some an =>
      let this :=
        HtmlDiff.set_oldBlocks _ this (BlockAnalyzer.findBlocks an oldWords) in
      HtmlDiff.set_newBlocks _ this (BlockAnalyzer.findBlocks an newWords)
  | None => this
  end.

Definition blockDiffOn : Types.BlockDiffOptions :=
  {| Types.enabled := true; Types.blockElements := None;
     Types.equivalentTypes := None |}.

(** The score of the specification in exact arithmetic:
    [100 - round(100 * |lenOld - lenNew| / max(lenOld, lenNew))], a tie
    rounded up as [Math.round] does, and 100 when both are empty. *)
Definition scoreOfSpec (lenOld lenNew : Z) : Z :=
  let m := Z.max lenOld lenNew in
  if m =? 0 then 100
  else 100 - (2 * (100 * Z.abs (lenOld - lenNew)) + m) / (2 * m).

(** A token of [n] characters. *)
Definition word (n : nat) : string := String.concat "" (repeat "a"%string n).

(** One paragraph around one token of [n] characters. *)
Definition paragraph (n : nat) : list string := ["<p>"; word n; "</p>"]%string.

(** Anchors that increase strictly on the old and on the new axis, inside
    the two block lists. *)
Fixpoint chain (l : list HtmlDiff.Anchor) (loOld loNew hiOld hiNew : Z)
    : Prop :=
  match l with
  | [] => True
  | a :: l' =>
      loOld <= HtmlDiff.oldIndex a < hiOld
      /\ loNew <= HtmlDiff.newIndex a < hiNew
      /\ chain l' (HtmlDiff.oldIndex a + 1) (HtmlDiff.newIndex a + 1)
           hiOld hiNew
  end.

(** Blocks in ascending order, without overlap, over the token indices
    [lo .. hi). *)
Fixpoint blocksOrdered (l : list BlockAnalyzer.Block) (lo hi : Z) : Prop :=
  match l with
  | [] => lo <= hi
  | b :: l' =>
      lo <= BlockAnalyzer.startIndex b
      /\ BlockAnalyzer.startIndex b < BlockAnalyzer.endIndex b
      /\ BlockAnalyzer.endIndex b < hi
      /\ blocksOrdered l' (BlockAnalyzer.endIndex b + 1) hi
  end.

(** Change ranges in ascending order, without overlap, on both axes. *)
Fixpoint changesOrdered (l : list HtmlDiff.Change)
    (loOld loNew hiOld hiNew : Z) : Prop :=
  match l with
  | [] => loOld <= hiOld /\ loNew <= hiNew
  | c :: l' =>
      loOld <= HtmlDiff.oldStart c <= HtmlDiff.oldEnd c
      /\ HtmlDiff.oldEnd c < hiOld
      /\ loNew <= HtmlDiff.newStart c <= HtmlDiff.newEnd c
      /\ HtmlDiff.newEnd c < hiNew
      /\ changesOrdered l' (HtmlDiff.oldEnd c + 1) (HtmlDiff.newEnd c + 1)
           hiOld hiNew
  end.

(** Every entry of the stack of [findBlocks] but the bottom one was pushed
    on a stack that was not empty. *)
Fixpoint deepAbove (stack : list BlockAnalyzer.Open) : Prop :=
  match stack with
  | [] => True
  | e :: rest =>
      match rest with
      | [] => True
      | _ :: _ => 1 <= BlockAnalyzer.openDepth e /\ deepAbove rest
      end
  end.

(** Two block sequences of equal count whose blocks have, pair by pair,
    the same type. *)
Definition sameTypes (an : BlockAnalyzer.t)
    (oldRange newRange : list BlockAnalyzer.Block) : bool :=
  (Js.len oldRange =? Js.len newRange)
  && forallb
       (fun p => BlockAnalyzer.isSameBlockType an (Some (fst p)) (Some (snd p)))
       (combine oldRange newRange).

(** The verdict on one gap between two anchors, as the code gives it: no
    change range when a side has no block or when the two sides have the
    same types; otherwise one range from the first token of the first
    block to the last token of the last block, on each side. *)
Definition gapChange (an : BlockAnalyzer.t)
    (oldRange newRange : list BlockAnalyzer.Block) : list HtmlDiff.Change :=
  match oldRange, newRange with
  | oldFirst :: _, newFirst :: _ =>
      if sameTypes an oldRange newRange then []
      else [{| HtmlDiff.oldStart := BlockAnalyzer.startIndex oldFirst;
               HtmlDiff.oldEnd := BlockAnalyzer.endIndex (last oldRange oldFirst);
               HtmlDiff.newStart := BlockAnalyzer.startIndex newFirst;
               HtmlDiff.newEnd := BlockAnalyzer.endIndex (last newRange newFirst) |}]
  | _, _ => []
  end.

(** The verdict of the specification on one gap: the gap is left to the
    word-level diff exactly when the two sides have the same types. *)
Definition gapReplacedOfSpec (an : BlockAnalyzer.t)
    (oldRange newRange : list BlockAnalyzer.Block) : bool :=
  negb (sameTypes an oldRange newRange).

(** The gaps between consecutive anchors: the blocks strictly between
    them, on each side. *)
Fixpoint gaps (oldBlocks newBlocks : list BlockAnalyzer.Block)
    (anchored : list HtmlDiff.Anchor)
    : list (list BlockAnalyzer.Block * list BlockAnalyzer.Block) :=
  match anchored with
  | current :: ((next :: _) as rest) =>
      (Js.slice oldBlocks (HtmlDiff.oldIndex current + 1) (HtmlDiff.oldIndex next),
       Js.slice newBlocks (HtmlDiff.newIndex current + 1) (HtmlDiff.newIndex next))
      :: gaps oldBlocks newBlocks rest
  | _ => []
  end.

(** The anchors with the two sentinels. *)
Definition anchored {BlockExpression : Type}
    (this : HtmlDiff.t BlockExpression) : list HtmlDiff.Anchor :=
  {| HtmlDiff.oldIndex := -1; HtmlDiff.newIndex := -1 |}
  :: HtmlDiff.matchBlocksByTypeSimilarity _ this
  ++ [{| HtmlDiff.oldIndex := Js.len (HtmlDiff.oldBlocks _ this);
         HtmlDiff.newIndex := Js.len (HtmlDiff.newBlocks _ this) |}].

(** A stretch of the output of [diffWithBlockTypeChanges]: the tokens
    [oldFrom .. oldTo) and [newFrom .. newTo), written either as one
    deleted and one inserted block or by a word-level diff. *)
Record Segment := {
  isBlock : bool;
  oldFrom : Z;
  oldTo : Z;
  newFrom : Z;
  newTo : Z
}.

Fixpoint segments (changes : list HtmlDiff.Change)
    (oldPos newPos oldLength newLength : Z) : list Segment :=
  match changes with
  | [] =>
      [{| isBlock := false; oldFrom := oldPos; oldTo := oldLength;
          newFrom := newPos; newTo := newLength |}]
  | c :: changes' =>
      {| isBlock := false; oldFrom := oldPos; oldTo := HtmlDiff.oldStart c;
         newFrom := newPos; newTo := HtmlDiff.newStart c |}
      :: {| isBlock := true;
            oldFrom := HtmlDiff.oldStart c; oldTo := HtmlDiff.oldEnd c + 1;
            newFrom := HtmlDiff.newStart c; newTo := HtmlDiff.newEnd c + 1 |}
      :: segments changes' (HtmlDiff.oldEnd c + 1) (HtmlDiff.newEnd c + 1)
           oldLength newLength
  end.

(** The word-level diff of two texts: a text that did not change is
    written as it is, any other pair of texts goes to the nested diff. *)
Definition wordDiff (subDiff : string -> string -> option string)
    (oldText newText : string) : option string :=
  if String.eqb oldText newText then Some newText
  else subDiff oldText newText.

(** What one segment is to contribute to the output: a block segment one
    [del] element of class [diffdel] around its old tokens and one [ins]
    element of class [diffins] around its new tokens; any other segment
    the word-level diff of its old and new tokens, and nothing when it has
    no token at all. *)
Definition renderSegment (subDiff : string -> string -> option string)
    (oldWords newWords : list string) (s : Segment) : option (list string) :=
  let oldPart := Js.slice oldWords (oldFrom s) (oldTo s) in
  let newPart := Js.slice newWords (newFrom s) (newTo s) in
  if isBlock s then
    Some [element "del" "diffdel" (Js.join oldPart);
          element "ins" "diffins" (Js.join newPart)]
  else
    match oldPart, newPart with
    | [], [] => Some []
    | _, _ =>
        match wordDiff subDiff (Js.join oldPart) (Js.join newPart) with
        | Some d => Some [d]
        | None => None
        end
    end.

Fixpoint renderSegments (subDiff : string -> string -> option string)
    (oldWords newWords : list string) (l : list Segment)
    : option (list string) :=
  match l with
  | [] => Some []
  | s :: l' =>
      match renderSegment subDiff oldWords newWords s with
      | None => None
      | Some a =>
          match renderSegments subDiff oldWords newWords l' with
          | None => None
          | Some b => Some (a ++ b)%list
          end
      end
  end.

(** A segment as a range descriptor. *)
Definition segmentRange (s : Segment) : Operation.t :=
  {| Operation.action := if isBlock s then Types.replace else Types.none;
     Operation.startInOld := oldFrom s; Operation.endInOld := oldTo s;
     Operation.startInNew := newFrom s; Operation.endInNew := newTo s |}.

(** The tokens of a text, as the modelled word splitter cuts them. *)
Definition tokens (text : string) : list string :=
  map fst (WordSplitter.convertHtmlToListOfWords text []).

(** The options [{ blockDiff: { enabled: true } }]. *)
Definition blockDiffEnabled : Index.Options Empty_set :=
  {| Index.blocksExpression := None; Index.blockDiff := Some blockDiffOn |}.



(** [inserted l1 l2]: the list [l2] is [l1] with elements inserted. *)
Inductive inserted {A : Type} : list A -> list A -> Prop :=
| inserted_nil l : inserted [] l
| inserted_new x l1 l2 : inserted l1 l2 -> inserted l1 (x :: l2)
| inserted_same x l1 l2 : inserted l1 l2 -> inserted (x :: l1) (x :: l2).

(** The rendering of a content, run by run. *)
Definition renderRuns (tag cssClass : string) (l : list string) : string :=
  Js.join (map (renderRun tag cssClass) (runs Utils.isTag l)).

(** What [diffWithBlockTypeChanges] does with the state of its loop once
    the loop is over: the word-level diff of what is left. *)
Definition finishBlockChanges (subDiff : string -> string -> option string)
    (oldWords newWords : list string) (r : option (list string * Z * Z))
    : option string :=
  match r with
  | None => None
  | Some (result, oldPos, newPos) =>
      if (oldPos <? Js.len oldWords) || (newPos <? Js.len newWords) then
        let afterOldWords := Js.sliceFrom oldWords oldPos in
        let afterNewWords := Js.sliceFrom newWords newPos in
        if (Js.len afterOldWords >? 0) || (Js.len afterNewWords >? 0) then
          match HtmlDiff.diffWordRanges subDiff afterOldWords afterNewWords with
          | Some afterDiff => Some (Js.join (result ++ [afterDiff])%list)
          | None => None
          end
        else Some (Js.join result)
      else Some (Js.join result)
  end.

(** One cell of a row of the table, from the cell to its right and the
    two cells below; the cells [k .. k + n) of a row; one row from the row
    below; the rows [k .. k + n) of the table. *)
Definition cellStep (s : Z -> Z) (below : list Z) (j : nat) (row : list Z)
    : list Z :=
  Z.max (Z.max (nth j below 0) (hd 0 row))
    (if s (Z.of_nat j) >? 0 then nth (S j) below 0 + s (Z.of_nat j) else 0)
  :: row.

Definition rowFrom (s : Z -> Z) (below : list Z) (k n : nat) : list Z :=
  fold_right (cellStep s below) [0] (seq k n).

Definition rowStep (score : Z -> Z -> Z) (newCount : nat) (i : nat)
    (rows : list (list Z)) : list (list Z) :=
  HtmlDiff.dpRow (score (Z.of_nat i)) newCount (hd [] rows) :: rows.

Definition tableFrom (score : Z -> Z -> Z) (newCount : nat) (k n : nat)
    : list (list Z) :=
  fold_right (rowStep score newCount) [repeat 0 (S newCount)] (seq k n).

(** A word as it is written out: its original form when the word
    splitter kept one. *)
Definition originalOf (el : string * option string) : string :=
  match snd el with
  | Some o => if String.eqb o "" then fst el else o
  | None => fst el
  end.

(** A block that is what it should be: a top-level element of a block
    type, from an opening tag to a later closing tag of the same name,
    both in the token array. *)
Definition delimited (this : BlockAnalyzer.t) (words : list string)
    (b : BlockAnalyzer.Block) : Prop :=
  BlockAnalyzer.depth b = 0
  /\ Utils.has (BlockAnalyzer.blockElements this) (BlockAnalyzer.tagName b) = true
  /\ 0 <= BlockAnalyzer.startIndex b < BlockAnalyzer.endIndex b
  /\ BlockAnalyzer.endIndex b < Js.len words
  /\ (exists w, Js.lookup words (BlockAnalyzer.startIndex b) = Some w
                /\ Utils.isOpeningTag w = true
                /\ Utils.getTagName w = Some (BlockAnalyzer.tagName b))
  /\ (exists w, Js.lookup words (BlockAnalyzer.endIndex b) = Some w
                /\ Utils.isClosingTag w = true
                /\ Utils.getTagName w = Some (BlockAnalyzer.tagName b)).

(** Lower case as JavaScript has it on code units below 256: the code
    units of the capital letters, [A] to [Z] and, in Latin-1, 192 to 214
    and 216 to 222, become those of the small letters, 32 further. *)
Definition capitals : list (nat * nat) :=
  [(65, 90); (192, 214); (216, 222)]%nat.

Definition lowerUnit (c : ascii) : ascii :=
  let n := nat_of_ascii c in
  if existsb (fun r => (fst r <=? n) && (n <=? snd r))%nat capitals
  then ascii_of_nat (n + 32) else c.

Fixpoint lowerCase (s : string) : string :=
  match s with
  | EmptyString => EmptyString
  | String c s' => String (lowerUnit c) (lowerCase s')
  end.

(** The group of equivalent types that a tag name belongs to: the last
    of the configured groups that has it, in lower case. *)
Definition groupOf (groups : list (list string)) (tag : string)
    : option (list string) :=
  option_map (map lowerCase)
    (find (fun g => Utils.has (map lowerCase g) tag) (rev groups)).

(** Groups of which no two share a tag name, in lower case. *)
Fixpoint disjointGroups (groups : list (list string)) : Prop :=
  match groups with
  | [] => True
  | g :: rest =>
      (forall g' x, In g' rest ->
         Utils.has (map lowerCase g) x = true ->
         Utils.has (map lowerCase g') x = false)
      /\ disjointGroups rest
  end.

(** The options of a block analyzer with groups of equivalent types. *)
Definition withGroups (groups : list (list string)) : Types.BlockDiffOptions :=
  {| Types.enabled := true; Types.blockElements := None;
     Types.equivalentTypes := Some groups |}.

(** An operation whose ranges fit its action: an insertion takes no old
    token and a deletion no new one, an equal stretch is as long on both
    sides, and no operation is empty. *)
Definition actionFits (op : Operation.t) : Prop :=
  match Operation.action op with
  | Types.equal =>
      Operation.startInOld op < Operation.endInOld op
      /\ Operation.endInOld op - Operation.startInOld op
         = Operation.endInNew op - Operation.startInNew op
  | Types.delete =>
      Operation.startInOld op < Operation.endInOld op
      /\ Operation.startInNew op = Operation.endInNew op
  | Types.insert =>
      Operation.startInOld op = Operation.endInOld op
      /\ Operation.startInNew op < Operation.endInNew op
  | Types.replace =>
      Operation.startInOld op < Operation.endInOld op
      /\ Operation.startInNew op < Operation.endInNew op
  | Types.none => False
  end.

(** The total score of an alignment. *)
Definition weight (score : Z -> Z -> Z) (l : list HtmlDiff.Anchor) : Z :=
  fold_right
    (fun a total => score (HtmlDiff.oldIndex a) (HtmlDiff.newIndex a) + total)
    0 l.

(** What one operation writes: the new tokens of an equal stretch as
    they are, the old tokens of a deletion and the new tokens of an
    insertion run by run, both for a replacement. *)
Definition renderOperation {BlockExpression : Type}
    (this : HtmlDiff.t BlockExpression) (op : Operation.t) : list string :=
  let oldPart :=
    Js.slice (HtmlDiff.oldWords _ this)
      (Operation.startInOld op) (Operation.endInOld op) in
  let newPart :=
    Js.slice (HtmlDiff.newWords _ this)
      (Operation.startInNew op) (Operation.endInNew op) in
  match Operation.action op with
  | Types.equal => [Js.join newPart]
  | Types.delete => [renderRuns "del" "diffdel" oldPart]
  | Types.insert => [renderRuns "ins" "diffins" newPart]
  | Types.none => []
  | Types.replace =>
      if HtmlDiff.shouldUseBlockReplacement _ this op
      then [renderRuns "del" "diffdel" oldPart;
            renderRuns "ins" "diffins" newPart]
      else [renderRuns "del" "diffmod" oldPart;
            renderRuns "ins" "diffmod" newPart]
  end.

(** The text of a token array once the original forms are back. *)
Definition written (words : list (string * option string)) : list string :=
  map originalOf words.

(** An instance once [diff()] has put the original forms of the words
    back. *)
Definition restored {BlockExpression : Type}
    (this : HtmlDiff.t BlockExpression) : HtmlDiff.t BlockExpression :=
  let this :=
    HtmlDiff.set_oldWords _ this
      (HtmlDiff.restore (HtmlDiff.oldWords _ this)
         (HtmlDiff.originalWordsInOld _ this)) in
  HtmlDiff.set_newWords _ this
    (HtmlDiff.restore (HtmlDiff.newWords _ this)
       (HtmlDiff.originalWordsInNew _ this)).

(** The granularity that [diff()] sets before it looks for matches. *)
Definition granularity {BlockExpression : Type}
    (this : HtmlDiff.t BlockExpression) : Z :=
  Z.min (Z.min HtmlDiff.MatchGranularityMaximum
           (Js.len (HtmlDiff.oldWords _ this)))
    (Js.len (HtmlDiff.newWords _ this)).

(** An instance with other block-diff options kept in its field, and
    every other field as it is. *)
Definition withBlockDiffOptions {BlockExpression : Type}
    (this : HtmlDiff.t BlockExpression) (v : option Types.BlockDiffOptions)
    : HtmlDiff.t BlockExpression :=
  {| HtmlDiff.content := HtmlDiff.content _ this;
     HtmlDiff.newText := HtmlDiff.newText _ this;
     HtmlDiff.oldText := HtmlDiff.oldText _ this;
     HtmlDiff.newWords := HtmlDiff.newWords _ this;
     HtmlDiff.oldWords := HtmlDiff.oldWords _ this;
     HtmlDiff.originalWordsInNew := HtmlDiff.originalWordsInNew _ this;
     HtmlDiff.originalWordsInOld := HtmlDiff.originalWordsInOld _ this;
     HtmlDiff.matchGranularity := HtmlDiff.matchGranularity _ this;
     HtmlDiff.blockExpressions := HtmlDiff.blockExpressions _ this;
     HtmlDiff.repeatingWordsAccuracy := HtmlDiff.repeatingWordsAccuracy _ this;
     HtmlDiff.ignoreWhiteSpaceDifferences :=
       HtmlDiff.ignoreWhiteSpaceDifferences _ this;
     HtmlDiff.orphanMatchThreshold := HtmlDiff.orphanMatchThreshold _ this;
     HtmlDiff.blockDiffOptions := v;
     HtmlDiff.blockAnalyzer := HtmlDiff.blockAnalyzer _ this;
     HtmlDiff.oldBlocks := HtmlDiff.oldBlocks _ this;
     HtmlDiff.newBlocks := HtmlDiff.newBlocks _ this |}.

(** Operations of which no two that follow one another are both changes:
    after an insertion, a deletion or a replacement comes an equal
    stretch, or nothing. *)
Fixpoint changesApart (ops : list Operation.t) : Prop :=
  match ops with
  | op :: ((next :: _) as rest) =>
      (Operation.action op <> Types.equal ->
       Operation.action next = Types.equal)
      /\ changesApart rest
  | _ => True
  end.




End Spec.
(* ================================================================== *)
(** * Properties *)

#[local] Open Scope list_scope.

(** ** Strings and arrays *)

Lemma append_nil_r (s : string) : (s ++ "")%string = s.
Proof. induction s as [|c s IH]; simpl; [reflexivity|now rewrite IH]. Qed.

Lemma append_assoc (a b c : string) :
  ((a ++ b) ++ c)%string = (a ++ (b ++ c))%string.
Proof. induction a as [|x a IH]; simpl; [reflexivity|now rewrite IH]. Qed.

Lemma join_cons (x : string) (l : list string) :
  Js.join (x :: l) = (x ++ Js.join l)%string.
Proof.
  unfold Js.join. destruct l as [|y l]; simpl.
  - now rewrite append_nil_r.
  - reflexivity.
Qed.

Lemma join_app (l1 l2 : list string) :
  Js.join (l1 ++ l2) = (Js.join l1 ++ Js.join l2)%string.
Proof.
  induction l1 as [|x l1 IH]; [reflexivity|].
  rewrite <- app_comm_cons, !join_cons, IH. now rewrite append_assoc.
Qed.

Lemma len_app {A} (l1 l2 : list A) : Js.len (l1 ++ l2) = Js.len l1 + Js.len l2.
Proof. unfold Js.len. rewrite length_app. lia. Qed.

Lemma len_nonneg {A} (l : list A) : 0 <= Js.len l.
Proof. unfold Js.len. lia. Qed.

Lemma len_cons {A} (x : A) (l : list A) : Js.len (x :: l) = 1 + Js.len l.
Proof. unfold Js.len. cbn [List.length]. lia. Qed.

(** [slice] between two bounds inside the array. *)
Lemma slice_inside {A} (l : list A) (s e : Z) :
  0 <= s -> 0 <= e ->
  Js.slice l s e =
  firstn (Z.to_nat (Z.min e (Js.len l)) - Z.to_nat (Z.min s (Js.len l)))
    (skipn (Z.to_nat (Z.min s (Js.len l))) l).
Proof.
  intros Hs He. unfold Js.slice, Js.relIndex.
  destruct (Z.ltb_spec s 0); [lia|]. destruct (Z.ltb_spec e 0); [lia|].
  f_equal. lia.
Qed.

Lemma slice_to_end {A} (l : list A) (s : Z) :
  0 <= s -> Js.slice l s (Js.len l + 1) = skipn (Z.to_nat s) l.
Proof.
  intros Hs. rewrite slice_inside by (pose proof (len_nonneg l); lia).
  pose proof (len_nonneg l) as Hl.
  destruct (Z.le_gt_cases s (Js.len l)) as [H|H].
  - rewrite (Z.min_l s) by lia. rewrite Z.min_r by lia.
    apply firstn_all2. rewrite length_skipn. unfold Js.len in *. lia.
  - rewrite (Z.min_r s) by lia. rewrite Z.min_r by lia.
    rewrite !skipn_all2 by (unfold Js.len in *; lia). now rewrite firstn_nil.
Qed.

Lemma slice_prefix {A} (l : list A) (e : Z) :
  0 <= e -> Js.slice l 0 e = firstn (Z.to_nat e) l.
Proof.
  intros He. rewrite slice_inside by lia. pose proof (len_nonneg l) as Hl.
  rewrite (Z.min_l 0) by lia. simpl. rewrite Nat.sub_0_r.
  destruct (Z.le_gt_cases e (Js.len l)) as [H|H].
  - now rewrite Z.min_l by lia.
  - rewrite Z.min_r by lia. rewrite !firstn_all2; unfold Js.len in *; try lia.
    reflexivity.
Qed.

(* ------------------------------------------------------------------ *)
(** ** The fast path of [diff] *)

Section FastPath.

Variable BlockExpression : Type.
Variable convertHtmlToListOfWords :
  string -> list BlockExpression -> list (string * option string).
Variable MatchFinder_findMatch :
  list string -> list string -> Z -> Z -> Z -> Z -> Types.MatchOptions ->
  option Match.t.

Lemma addBlockExpression_texts (l : list BlockExpression)
    (this : HtmlDiff.t BlockExpression) :
  HtmlDiff.oldText _ (fold_left (HtmlDiff.addBlockExpression _) l this)
  = HtmlDiff.oldText _ this
  /\ HtmlDiff.newText _ (fold_left (HtmlDiff.addBlockExpression _) l this)
     = HtmlDiff.newText _ this.
Proof.
  revert this. induction l as [|e l IH]; intros this; [now split|].
  simpl. destruct (IH (HtmlDiff.addBlockExpression _ this e)) as [-> ->].
  now split.
Qed.

(** C2. [diff(x, x)] is [x] for every string [x] and every options value.
    The result is the same whatever the word splitter and the match
    finder are: the comparison of the two texts answers before either is
    called. *)
Theorem diff_identity_fast_path (x : string)
    (options : Index.Options BlockExpression) :
  Index.diff BlockExpression convertHtmlToListOfWords MatchFinder_findMatch
    x x options = Some x.
Proof.
  unfold Index.diff, HtmlDiff.diff, HtmlDiff.diffDepth, HtmlDiff.diffWith.
  set (this0 := HtmlDiff.constructor _ x x _).
  set (this := match Index.blocksExpression options with
               | Some l => _ | None => _ end).
  assert (H : HtmlDiff.oldText _ this = x /\ HtmlDiff.newText _ this = x).
  { subst this. destruct (Index.blocksExpression options) as [l|].
    - destruct (addBlockExpression_texts l this0) as [-> ->]. now split.
    - now split. }
  destruct H as [-> ->]. now rewrite String.eqb_refl.
Qed.

End FastPath.

(* ------------------------------------------------------------------ *)
(** ** The wrapping rule of [insertTag] *)

Section Runs.

Context {A : Type} (p : A -> bool).

Lemma runs_concat (l : list A) : List.concat (map snd (Spec.runs p l)) = l.
Proof.
  induction l as [|x l IH]; [reflexivity|]. simpl.
  destruct (Spec.runs p l) as [|[b r] rs]; simpl in *.
  - now rewrite <- IH.
  - destruct (Bool.eqb b (p x)); simpl; now rewrite <- IH.
Qed.

Lemma runs_uniform (l : list A) :
  Forall (fun r => snd r <> [] /\ Forall (fun x => p x = fst r) (snd r))
    (Spec.runs p l).
Proof.
  induction l as [|x l IH]; [constructor|]. simpl.
  destruct (Spec.runs p l) as [|[b r] rs].
  - constructor; [|constructor]. split; [discriminate|]. now constructor.
  - inversion IH as [|? ? [Hne Hall] Hrs]; subst. simpl in *.
    destruct (Bool.eqb b (p x)) eqn:E.
    + apply Bool.eqb_prop in E. constructor; [|assumption]. simpl.
      split; [discriminate|]. constructor; [now symmetry|assumption].
    + constructor; [|assumption]. simpl. split; [discriminate|].
      now constructor.
Qed.

Lemma runs_alternate (l : list A) : Spec.alternate (Spec.runs p l).
Proof.
  induction l as [|x l IH]; [exact I|]. simpl.
  destruct (Spec.runs p l) as [|[b r] rs] eqn:E; [exact I|].
  destruct (Bool.eqb b (p x)) eqn:Eb.
  - simpl in *. destruct rs; [exact I|]. exact IH.
  - simpl. split; [|exact IH]. intros Heq.
    rewrite Heq, Bool.eqb_reflx in Eb. discriminate.
Qed.

(** The first run is the longest prefix on which the predicate keeps the
    value it has on the head. *)
Lemma runs_cons_same (x : A) (l : list A) (b : bool) (r : list A) rs :
  Spec.runs p l = (b, r) :: rs -> p x = b ->
  Spec.runs p (x :: l) = (b, x :: r) :: rs.
Proof. intros H Hx. simpl. rewrite H, Hx, Bool.eqb_reflx. reflexivity. Qed.

Lemma runs_cons_other (x : A) (l : list A) :
  match l with [] => True | y :: _ => p y <> p x end ->
  Spec.runs p (x :: l) = (p x, [x]) :: Spec.runs p l.
Proof.
  intros H. simpl. destruct l as [|y l]; [reflexivity|].
  destruct (Spec.runs p (y :: l)) as [|[b r] rs] eqn:E.
  - simpl in E. destruct (Spec.runs p l) as [|[? ?] ?]; [discriminate|].
    destruct (Bool.eqb _ _); discriminate.
  - assert (Hb : b = p y).
    { pose proof (runs_uniform (y :: l)) as U. pose proof (runs_concat (y :: l)) as C.
      rewrite E in U, C. inversion U as [|? ? [Hne Hall] _]; subst. simpl in *.
      destruct r as [|z r]; [congruence|]. simpl in C. inversion C; subst.
      inversion Hall; subst. now symmetry. }
    subst b. destruct (Bool.eqb (p y) (p x)) eqn:Eb; [|reflexivity].
    apply Bool.eqb_prop in Eb. contradiction.
Qed.

End Runs.

Section Leading.

Context {A : Type} (q : A -> bool).

Lemma leading_trailing (l : list A) : Spec.leading q l ++ Spec.trailing q l = l.
Proof.
  induction l as [|x l IH]; [reflexivity|]. simpl.
  destruct (q x); [simpl; now rewrite IH|reflexivity].
Qed.

Lemma leading_all (l : list A) : Forall (fun x => q x = true) (Spec.leading q l).
Proof.
  induction l as [|x l IH]; [constructor|]. simpl.
  destruct (q x) eqn:E; [now constructor|constructor].
Qed.

Lemma trailing_head (l : list A) :
  match Spec.trailing q l with [] => True | y :: _ => q y = false end.
Proof.
  induction l as [|x l IH]; [exact I|]. simpl.
  destruct (q x) eqn:E; [exact IH|exact E].
Qed.

End Leading.

Lemma runs_app_run {A} (p : A -> bool) (b : bool) (r l : list A) :
  r <> [] -> Forall (fun x => p x = b) r ->
  match l with [] => True | y :: _ => p y <> b end ->
  Spec.runs p (r ++ l) = (b, r) :: Spec.runs p l.
Proof.
  intros Hne Hall Hl. induction r as [|x r IH]; [congruence|].
  inversion Hall as [|? ? Hx Hr]; subst.
  destruct r as [|z r].
  - simpl app. apply runs_cons_other. destruct l; [trivial|]. congruence.
  - rewrite <- app_comm_cons. apply runs_cons_same; [|reflexivity].
    apply IH; [discriminate|assumption].
Qed.

Lemma runs_single {A} (p : A -> bool) (b : bool) (r : list A) :
  r <> [] -> Forall (fun x => p x = b) r -> Spec.runs p r = [(b, r)].
Proof.
  intros Hne Hall. rewrite <- (app_nil_r r) at 1.
  now rewrite (runs_app_run p b r []).
Qed.

(** [lastMatching] finds the end of the leading run. *)
Lemma lastMatching_leading (q : string -> bool) (l : list string) (index : Z)
    (last : option Z) :
  HtmlDiff.lastMatching q l index last
  = match Spec.leading q l with
    | [] => last
    | r => Some (index + Js.len r - 1)
    end.
Proof.
  revert index last. induction l as [|x l IH]; intros index last; [reflexivity|].
  simpl. destruct (q x); [|reflexivity]. rewrite IH.
  destruct (Spec.leading q l) as [|y r]; f_equal; unfold Js.len; cbn [List.length]; lia.
Qed.

Lemma firstn_leading {A} (q : A -> bool) (l : list A) :
  firstn (List.length (Spec.leading q l)) l = Spec.leading q l.
Proof.
  rewrite <- (leading_trailing q l) at 2.
  rewrite firstn_app, Nat.sub_diag, firstn_O, app_nil_r.
  apply firstn_all.
Qed.

(** [consecutiveWhere] returns the leading run of what is left. *)
Lemma consecutiveWhere_leading (start : Z) (content : list string)
    (q : string -> bool) :
  0 <= start ->
  HtmlDiff.consecutiveWhere start content q
  = Spec.leading q (skipn (Z.to_nat start) content).
Proof.
  intros Hs. unfold HtmlDiff.consecutiveWhere.
  rewrite slice_to_end by assumption.
  set (l := skipn (Z.to_nat start) content).
  rewrite lastMatching_leading.
  destruct (Spec.leading q l) as [|y r] eqn:E; [reflexivity|].
  rewrite slice_prefix by (pose proof (len_nonneg (y :: r)); rewrite len_cons in *; lia).
  replace (Z.to_nat (0 + Js.len (y :: r) - 1 + 1)) with (List.length (y :: r))
    by (unfold Js.len; lia).
  rewrite <- E. apply firstn_leading.
Qed.

Lemma skipn_len_app {A} (pre rest : list A) :
  skipn (Z.to_nat (Js.len pre)) (pre ++ rest) = rest.
Proof.
  unfold Js.len. rewrite Nat2Z.id. rewrite skipn_app, Nat.sub_diag, skipn_all.
  reflexivity.
Qed.

Lemma geb_false (a b : Z) : a < b -> (a >=? b) = false.
Proof. intros H. rewrite Z.geb_leb. now apply Z.leb_gt. Qed.

Lemma geb_true (a b : Z) : b <= a -> (a >=? b) = true.
Proof. intros H. rewrite Z.geb_leb. now apply Z.leb_le. Qed.

Section InsertTag.

Variables tag cssClass : string.

#[local] Abbreviation renderAll := (Spec.renderRuns tag cssClass).

Lemma insertTagLoop_runs (fuel : nat) :
  forall (pre rest : list string) (rendering : string),
    (List.length rest <= fuel)%nat ->
    match rest with [] => True | y :: _ =>
      match pre with [] => True | _ => Utils.isTag y = false end end ->
    HtmlDiff.insertTagLoop fuel tag cssClass (pre ++ rest) (Js.len pre) rendering
    = (rendering ++ renderAll rest)%string.
Proof.
  induction fuel as [|fuel IH]; intros pre rest rendering Hfuel _.
  - destruct rest; [|simpl in Hfuel; lia]. simpl.
    unfold Spec.renderRuns. simpl. now rewrite append_nil_r.
  - cbn [HtmlDiff.insertTagLoop].
    destruct rest as [|x rest0].
    { rewrite app_nil_r. rewrite geb_true by lia.
      unfold Spec.renderRuns. simpl. now rewrite append_nil_r. }
    set (rest := x :: rest0) in *.
    assert (Hpos : (Js.len pre >=? Js.len (pre ++ rest)) = false).
    { rewrite len_app. subst rest. rewrite len_cons.
      pose proof (len_nonneg rest0). apply geb_false. lia. }
    rewrite Hpos.
    rewrite consecutiveWhere_leading by apply len_nonneg.
    rewrite skipn_len_app.
    set (nonTags := Spec.leading (fun x => negb (Utils.isTag x)) rest).
    set (rest1 := Spec.trailing (fun x => negb (Utils.isTag x)) rest).
    assert (Hsplit : rest = nonTags ++ rest1)
      by (symmetry; apply leading_trailing).
    assert (HnonTags : Forall (fun x => Utils.isTag x = false) nonTags).
    { eapply Forall_impl; [|apply leading_all]. simpl. intros a Ha.
      now apply negb_true_iff in Ha. }
    assert (Hrest1 : match rest1 with [] => True | y :: _ => Utils.isTag y = true end).
    { pose proof (trailing_head (fun x => negb (Utils.isTag x)) rest) as T.
      fold rest1 in T. destruct rest1; [trivial|]. now apply negb_false_iff in T. }
    replace (Js.len pre + Js.len nonTags) with (Js.len (pre ++ nonTags))
      by apply len_app.
    set (rendering1 := if negb (Js.len nonTags =? 0) then _ else _).
    assert (Hr1 : rendering1
                  = (rendering ++ Js.join (map (Spec.renderRun tag cssClass)
                                     (match nonTags with [] => []
                                      | _ => [(false, nonTags)] end)))%string).
    { subst rendering1. destruct nonTags as [|y r].
      - simpl. now rewrite append_nil_r.
      - rewrite len_cons. pose proof (len_nonneg r).
        destruct (Z.eqb_spec (1 + Js.len r) 0); [lia|]. simpl.
        unfold Spec.renderRun. simpl. rewrite ?append_nil_r. reflexivity. }
    destruct rest1 as [|t rest1'].
    + (* the non-tag run ends the content *)
      rewrite app_nil_r in Hsplit. rewrite <- Hsplit.
      rewrite geb_true by lia.
      rewrite Hr1. f_equal. unfold Spec.renderRuns.
      assert (Hne : nonTags <> []) by (rewrite <- Hsplit; subst rest; discriminate).
      rewrite Hsplit, (runs_single Utils.isTag false nonTags Hne HnonTags).
      destruct nonTags; [congruence|reflexivity].
    + set (rest1 := t :: rest1') in *.
      assert (Hpos1 : (Js.len (pre ++ nonTags) >=? Js.len (pre ++ rest)) = false).
      { rewrite Hsplit, !len_app. subst rest1. rewrite len_cons.
        pose proof (len_nonneg rest1'). apply geb_false. lia. }
      rewrite Hpos1.
      assert (Hcontent : pre ++ rest = (pre ++ nonTags) ++ rest1)
        by (rewrite <- app_assoc; f_equal; exact Hsplit).
      rewrite Hcontent.
      rewrite consecutiveWhere_leading by apply len_nonneg.
      rewrite skipn_len_app.
      set (tags := Spec.leading Utils.isTag rest1).
      set (rest2 := Spec.trailing Utils.isTag rest1).
      assert (Hsplit1 : rest1 = tags ++ rest2)
        by (symmetry; apply leading_trailing).
      assert (Htags : Forall (fun x => Utils.isTag x = true) tags)
        by apply leading_all.
      assert (Htne : tags <> []).
      { subst tags rest1. simpl. rewrite Hrest1. discriminate. }
      assert (Hrest2 : match rest2 with [] => True | y :: _ => Utils.isTag y = false end)
        by apply trailing_head.
      replace (Js.len (pre ++ nonTags) + Js.len tags)
        with (Js.len ((pre ++ nonTags) ++ tags)) by apply len_app.
      replace ((pre ++ nonTags) ++ rest1)
        with (((pre ++ nonTags) ++ tags) ++ rest2)
        by (rewrite <- (app_assoc (pre ++ nonTags) tags rest2); f_equal;
            symmetry; exact Hsplit1).
      rewrite IH.
      * rewrite Hr1, !append_assoc. f_equal.
        unfold Spec.renderRuns. rewrite Hsplit, Hsplit1.
        assert (Htail : Spec.runs Utils.isTag (tags ++ rest2)
                        = (true, tags) :: Spec.runs Utils.isTag rest2).
        { apply runs_app_run; trivial. destruct rest2; [trivial|]. congruence. }
        destruct nonTags as [|y r].
        -- simpl app. rewrite Htail. simpl map. rewrite join_cons. reflexivity.
        -- rewrite (runs_app_run Utils.isTag false); trivial; [|discriminate|].
           ++ rewrite Htail. simpl map. rewrite !join_cons.
              unfold Spec.renderRun at 1. simpl. now rewrite append_nil_r.
           ++ destruct tags; [congruence|]. simpl. inversion Htags; subst. congruence.
      * assert (List.length rest = List.length nonTags + List.length tags + List.length rest2)%nat.
        { rewrite Hsplit, Hsplit1, !length_app. lia. }
        destruct tags; [congruence|]. simpl in *. lia.
      * destruct rest2; [trivial|]. destruct (pre ++ nonTags ++ tags)%list eqn:E.
        -- destruct ((pre ++ nonTags) ++ tags)%list; trivial.
        -- destruct ((pre ++ nonTags) ++ tags)%list; trivial.
Qed.

End InsertTag.

(** C8. Whatever the operation (the tag is [ins] or [del], the class the
    one of the operation) and whatever content [insertTag] receives, what it
    pushes is the content cut into its maximal runs of tag tokens and of
    other tokens, in their order: a run of tag tokens is written bare, a run
    of other tokens is written, whole, inside one element of that tag and
    class, [<tag class="cssClass">] before it and [</tag>] after it. *)
Theorem insertTag_wraps_maximal_runs (BlockExpression : Type)
    (this : HtmlDiff.t BlockExpression) (tag cssClass : string)
    (content : list string) :
  let rs := Spec.runs Utils.isTag content in
  HtmlDiff.content _ (HtmlDiff.insertTag _ this tag cssClass content)
  = (HtmlDiff.content _ this
     ++ [Js.join (map (Spec.renderRun tag cssClass) rs)])%list
  /\ List.concat (map snd rs) = content
  /\ Forall (fun r => snd r <> []
                      /\ Forall (fun x => Utils.isTag x = fst r) (snd r)) rs
  /\ Spec.alternate rs.
Proof.
  intros rs. repeat split.
  - unfold HtmlDiff.insertTag. simpl. f_equal. f_equal.
    unfold HtmlDiff.insertTagRendering.
    change content with ([] ++ content)%list at 2.
    change 0 with (Js.len (@nil string)).
    rewrite insertTagLoop_runs; [reflexivity|apply Nat.le_refl|].
    destruct content; trivial.
  - apply runs_concat.
  - apply runs_uniform.
  - apply runs_alternate.
Qed.

(* ------------------------------------------------------------------ *)
(** ** Orphan removal *)

Lemma sumLength_from (l : list string) (a : Z) :
  fold_left (fun t n => t + Js.strlen n) l a = a + HtmlDiff.sumLength l.
Proof.
  unfold HtmlDiff.sumLength. revert a.
  induction l as [|x l IH]; intros a; simpl; [lia|].
  rewrite IH, (IH (Js.strlen x)). lia.
Qed.

Lemma sumLength_cons (x : string) (l : list string) :
  HtmlDiff.sumLength (x :: l) = Js.strlen x + HtmlDiff.sumLength l.
Proof. unfold HtmlDiff.sumLength at 1. simpl. apply sumLength_from. Qed.

Lemma sumLength_app (l1 l2 : list string) :
  HtmlDiff.sumLength (l1 ++ l2) = HtmlDiff.sumLength l1 + HtmlDiff.sumLength l2.
Proof.
  induction l1 as [|x l1 IH]; [reflexivity|].
  rewrite <- app_comm_cons, !sumLength_cons, IH. lia.
Qed.

Lemma sumLength_nonneg (l : list string) : 0 <= HtmlDiff.sumLength l.
Proof.
  induction l as [|x l IH]; [reflexivity|]. rewrite sumLength_cons.
  unfold Js.strlen. lia.
Qed.

Lemma sumLength_zero (l : list string) :
  HtmlDiff.sumLength l = 0 -> Forall (fun w => w = ""%string) l.
Proof.
  induction l as [|x l IH]; intros H; [constructor|].
  rewrite sumLength_cons in H. pose proof (sumLength_nonneg l).
  unfold Js.strlen in H. constructor.
  - destruct x; [reflexivity|]. cbn [String.length] in H. lia.
  - apply IH. lia.
Qed.

Lemma firstn_add {A} (n m : nat) (l : list A) :
  firstn (n + m) l = firstn n l ++ firstn m (skipn n l).
Proof.
  revert l. induction n as [|n IH]; intros l; [reflexivity|].
  destruct l as [|x l]; simpl; [now rewrite firstn_nil|]. now rewrite IH.
Qed.

Lemma slice_split {A} (l : list A) (a b c : Z) :
  0 <= a <= b -> b <= c ->
  Js.slice l a c = Js.slice l a b ++ Js.slice l b c.
Proof.
  intros Hab Hbc. rewrite !slice_inside by lia.
  set (n := Js.len l).
  set (a' := Z.to_nat (Z.min a n)). set (b' := Z.to_nat (Z.min b n)).
  set (c' := Z.to_nat (Z.min c n)).
  assert (H : (a' <= b' <= c')%nat) by (subst a' b' c'; lia).
  replace (c' - a')%nat with ((b' - a') + (c' - b'))%nat by lia.
  rewrite firstn_add. f_equal. rewrite skipn_skipn.
  replace (b' - a' + a')%nat with b' by lia. reflexivity.
Qed.

Lemma chars_split (words : list string) (a b c : Z) :
  0 <= a <= b -> b <= c ->
  Spec.chars words a c = Spec.chars words a b + Spec.chars words b c.
Proof.
  intros Hab Hbc. unfold Spec.chars.
  now rewrite (slice_split words a b c), sumLength_app.
Qed.

Lemma adjacent_test (a b : Match.t) :
  (Match.endInOld a =? Match.startInOld b) && (Match.endInNew a =? Match.startInNew b)
  = true <-> Spec.adjacent a b.
Proof.
  unfold Spec.adjacent. rewrite andb_true_iff, !Z.eqb_eq. reflexivity.
Qed.

(** The number of binary digits of a positive number. *)
Lemma digits2_pos_lower (p : positive) :
  2 ^ (Z.pos (digits2_pos p) - 1) <= Z.pos p.
Proof.
  induction p as [p IH|p IH|]; cbn [digits2_pos].
  - rewrite Pos2Z.inj_succ.
    replace (Z.succ (Z.pos (digits2_pos p)) - 1)
      with (Z.succ (Z.pos (digits2_pos p) - 1)) by lia.
    rewrite Z.pow_succ_r by lia. lia.
  - rewrite Pos2Z.inj_succ.
    replace (Z.succ (Z.pos (digits2_pos p)) - 1)
      with (Z.succ (Z.pos (digits2_pos p) - 1)) by lia.
    rewrite Z.pow_succ_r by lia. lia.
  - simpl. lia.
Qed.

Lemma digits2_pos_le (p : positive) (n : Z) :
  0 <= n -> Z.pos p < 2 ^ n -> Z.pos (digits2_pos p) <= n.
Proof.
  intros Hn Hp. pose proof (digits2_pos_lower p) as H.
  destruct (Z.le_gt_cases (Z.pos (digits2_pos p)) n) as [|Hgt]; [assumption|].
  exfalso.
  assert (2 ^ n <= 2 ^ (Z.pos (digits2_pos p) - 1))
    by (apply Z.pow_le_mono_r; lia).
  lia.
Qed.

Lemma digits2_pos_shift (p k : positive) :
  digits2_pos (Pos.iter xO p k) = (digits2_pos p + k)%positive.
Proof.
  induction k as [|k IH] using Pos.peano_ind.
  - simpl. lia.
  - rewrite Pos.iter_succ. cbn [digits2_pos]. rewrite IH. lia.
Qed.

Lemma shift_value (p k : positive) :
  Z.pos (Pos.iter xO p k) = Z.pos p * 2 ^ Z.pos k.
Proof.
  induction k as [|k IH] using Pos.peano_ind.
  - simpl. lia.
  - rewrite Pos.iter_succ, Pos2Z.inj_xO, IH, Pos2Z.inj_succ, Z.pow_succ_r by lia.
    lia.
Qed.

(** A positive integer below 2^53 is a finite binary64 number of the same
    value: the conversion shifts it to 53 digits and rounds nothing away. *)
Lemma ofZ_small (p : positive) :
  Z.pos p < 2 ^ 53 ->
  exists m e,
    JsNum.ofZ (Z.pos p) = S754_finite false m e
    /\ e <= 0 /\ Z.pos m = Z.pos p * 2 ^ (- e).
Proof.
  intros Hp. pose proof (digits2_pos_le p 53 ltac:(lia) Hp) as Hd.
  unfold JsNum.ofZ, binary_normalize, binary_round.
  set (d := digits2_pos p) in *.
  assert (Efexp : fexp JsNum.prec JsNum.emax (Z.pos d + 0) = Z.pos d - 53).
  { unfold fexp, emin, JsNum.prec, JsNum.emax. lia. }
  rewrite Efexp. unfold shl_align.
  assert (Haux : forall mz ez,
             Z.pos (digits2_pos mz) = 53 -> -52 <= ez <= 0 ->
             binary_round_aux JsNum.prec JsNum.emax false (Z.pos mz) ez loc_Exact
             = S754_finite false mz ez).
  { intros mz ez Hmz Hez. unfold binary_round_aux, shr_fexp.
    cbn [Zdigits2 shr_record_of_loc]. rewrite Hmz.
    assert (E : fexp JsNum.prec JsNum.emax (53 + ez) - ez = 0).
    { unfold fexp, emin, JsNum.prec, JsNum.emax. lia. }
    rewrite E. cbn [shr shr_m loc_of_shr_record round_nearest_even Zdigits2
                    shr_record_of_loc].
    rewrite Hmz, E. cbn [shr shr_m].
    unfold JsNum.emax, JsNum.prec.
    destruct (Z.leb_spec ez (1024 - 53)); [reflexivity|lia]. }
  destruct (Z.pos d - 53 - 0) as [|q|q] eqn:E.
  - exists p, 0. split; [apply Haux; [fold d; lia|lia]|]. split; [lia|].
    simpl. lia.
  - lia.
  - exists (Pos.iter xO p q), (Z.pos d - 53). split.
    + apply Haux.
      * rewrite digits2_pos_shift. fold d. lia.
      * lia.
    + split; [lia|]. rewrite shift_value. f_equal. f_equal. lia.
Qed.

(** A length is [0.0] or a positive finite number. *)
Lemma ofLength_cases (z : Z) :
  (z <= 0 /\ JsNum.ofLength z = S754_zero false)
  \/ (0 < z /\ exists m e, JsNum.ofLength z = S754_finite false m e).
Proof.
  unfold JsNum.ofLength.
  destruct (Z.le_gt_cases z 0) as [Hz|Hz].
  - left. split; [exact Hz|]. rewrite Z.max_r by lia. reflexivity.
  - right. split; [lia|]. rewrite Z.max_l by lia.
    assert (H : 0 < Z.min z JsNum.maxLength < 2 ^ 53)
      by (unfold JsNum.maxLength; lia).
    destruct (Z.min z JsNum.maxLength) as [|p|p]; try lia.
    destruct (ofZ_small p) as (m & e & E & _); [lia|].
    exists m, e. exact E.
Qed.

(** The conversion of a length is exact: the number is an integer, the
    length itself. *)
Lemma ofLength_exact (z : Z) :
  0 <= z <= JsNum.maxLength -> JsNum.round (JsNum.ofLength z) = z.
Proof.
  intros Hz. unfold JsNum.ofLength.
  rewrite Z.max_l, Z.min_l by lia.
  destruct z as [|p|p]; [reflexivity| |lia].
  destruct (ofZ_small p) as (m & e & -> & He & Hm);
    [unfold JsNum.maxLength in Hz; lia|].
  cbn [JsNum.round]. rewrite Hm.
  destruct (Z.leb_spec 0 e) as [H0|H0].
  - replace e with 0 by lia. simpl. lia.
  - set (k := - e) in *. assert (Hk : 0 < k) by lia.
    replace (1 - e) with (Z.succ k) by lia.
    rewrite Z.pow_succ_r by lia.
    assert (Hpow : 0 < 2 ^ k) by (apply Z.pow_pos_nonneg; lia).
    replace (2 * (Z.pos p * 2 ^ k) + 2 ^ k) with ((2 * Z.pos p + 1) * 2 ^ k) by lia.
    rewrite Z.div_mul_cancel_r by lia.
    replace (2 * Z.pos p + 1) with (1 + Z.pos p * 2) by lia.
    rewrite Z.div_add by lia. reflexivity.
Qed.

(** With the threshold [0.0] the test of the orphan rule asks for one
    character, whatever the distances are. *)
Lemma threshold_zero (own mx : Z) :
  JsNum.gt (JsNum.ofLength own) (JsNum.mul (JsNum.ofLength mx) JsNum.zero)
  = (0 <? own).
Proof.
  destruct (ofLength_cases mx) as [[_ ->]|[_ (m & e & ->)]];
    destruct (ofLength_cases own) as [[Ho ->]|[Ho (m' & e' & ->)]];
    cbn; symmetry; (apply Z.ltb_lt || apply Z.ltb_ge); lia.
Qed.

(** The test multiplies in binary64.  With the threshold 0.7 a match of
    seven characters inside a distance of ten is dropped, [10 * 0.7] being 7;
    with the threshold 0.29 a match of 29 characters inside a distance of 100
    is kept, [100 * 0.29] being less than 29. *)
Lemma removeOrphans_binary64 :
  let words7 := ["ab"; "abcdefg"; "c"]%string in
  let words29 := [Spec.word 35; Spec.word 29; Spec.word 36] in
  let curr := Spec.mkMatch 1 1 1 in
  let next := Spec.mkMatch 3 3 0 in
  HtmlDiff.removeOrphans _
    (Spec.thresholdState words7 words7 (JsNum.div (JsNum.ofZ 7) (JsNum.ofZ 10)))
    [curr; next] = [Some next]
  /\ HtmlDiff.removeOrphans _
       (Spec.thresholdState words29 words29
          (JsNum.div (JsNum.ofZ 29) (JsNum.ofZ 100)))
       [curr; next] = [Some curr; Some next].
Proof. vm_compute. split; reflexivity. Qed.

Section Orphans.

Variable BlockExpression : Type.
Variable convertHtmlToListOfWords :
  string -> list BlockExpression -> list (string * option string).

#[local] Abbreviation state := (HtmlDiff.t BlockExpression).
#[local] Abbreviation loop := (HtmlDiff.removeOrphansLoop BlockExpression).

Lemma configured_threshold (this : state) :
  Spec.Configured convertHtmlToListOfWords this ->
  HtmlDiff.orphanMatchThreshold _ this = JsNum.zero.
Proof. induction 1; simpl; trivial. Qed.

(** With the threshold 0 the loop keeps every match of positive length. *)
Lemma loop_keeps_positive (this : state) :
  HtmlDiff.orphanMatchThreshold _ this = JsNum.zero ->
  forall (matches : list Match.t) (prev curr m : Match.t),
    In m (curr :: matches) ->
    0 < Spec.chars (HtmlDiff.newWords _ this) (Match.startInNew m) (Match.endInNew m) ->
    In m (loop this prev curr matches).
Proof.
  intros Hthr. induction matches as [|next matches IH]; intros prev curr m Hin Hpos.
  - simpl in *. tauto.
  - cbn [HtmlDiff.removeOrphansLoop].
    destruct (_ || _).
    + destruct Hin as [<-|Hin]; [now left|]. right. now apply IH.
    + rewrite Hthr, threshold_zero. apply in_or_app.
      destruct Hin as [<-|Hin].
      * left. unfold Spec.chars in Hpos.
        apply Z.ltb_lt in Hpos. rewrite Hpos. now left.
      * right. now apply IH.
Qed.



(** One round of the loop, for any threshold.  With [prev] the match the
    loop holds as the previous one, a match that touches [prev] or the
    next match is yielded, and [prev] stays.  Any other match is yielded
    exactly when the number of its characters exceeds, in binary64, the
    threshold times the larger of the old and the new distance from the
    end of [prev] to the start of the next match: the tokens before the
    match, the match and the tokens after it. *)
Lemma removeOrphansLoop_step (this : state) (prev curr next : Match.t)
    (rest : list Match.t)
    (Hold : 0 <= Match.endInOld prev <= Match.startInOld curr
            /\ Match.startInOld curr <= Match.endInOld curr <= Match.startInOld next)
    (Hnew : 0 <= Match.endInNew prev <= Match.startInNew curr
            /\ Match.startInNew curr <= Match.endInNew curr <= Match.startInNew next) :
  let oldWords := HtmlDiff.oldWords _ this in
  let newWords := HtmlDiff.newWords _ this in
  let own := Spec.chars newWords (Match.startInNew curr) (Match.endInNew curr) in
  let oldDistance :=
    Spec.chars oldWords (Match.endInOld prev) (Match.startInOld curr)
    + Spec.chars oldWords (Match.startInOld curr) (Match.endInOld curr)
    + Spec.chars oldWords (Match.endInOld curr) (Match.startInOld next) in
  let newDistance :=
    Spec.chars newWords (Match.endInNew prev) (Match.startInNew curr)
    + own
    + Spec.chars newWords (Match.endInNew curr) (Match.startInNew next) in
  (Spec.adjacent prev curr \/ Spec.adjacent curr next ->
   loop this prev curr (next :: rest) = curr :: loop this prev next rest)
  /\ (~ Spec.adjacent prev curr -> ~ Spec.adjacent curr next ->
      loop this prev curr (next :: rest)
      = (if JsNum.gt (JsNum.ofLength own)
              (JsNum.mul (JsNum.ofLength (Z.max oldDistance newDistance))
                 (HtmlDiff.orphanMatchThreshold _ this))
         then [curr] else [])
        ++ loop this curr next rest).
Proof.
  intros oldWords newWords own oldDistance newDistance.
  assert (Eold : oldDistance
                 = Spec.chars oldWords (Match.endInOld prev) (Match.startInOld next)).
  { subst oldDistance.
    rewrite (chars_split oldWords (Match.endInOld prev) (Match.startInOld curr)
               (Match.startInOld next)) by lia.
    rewrite (chars_split oldWords (Match.startInOld curr) (Match.endInOld curr)
               (Match.startInOld next)) by lia. lia. }
  assert (Enew : newDistance
                 = Spec.chars newWords (Match.endInNew prev) (Match.startInNew next)).
  { subst newDistance own.
    rewrite (chars_split newWords (Match.endInNew prev) (Match.startInNew curr)
               (Match.startInNew next)) by lia.
    rewrite (chars_split newWords (Match.startInNew curr) (Match.endInNew curr)
               (Match.startInNew next)) by lia. lia. }
  split.
  - intros Hadj. cbn [HtmlDiff.removeOrphansLoop].
    destruct (_ || _) eqn:E; [reflexivity|].
    apply orb_false_iff in E. destruct E as [E1 E2].
    destruct Hadj as [Hadj|Hadj]; apply adjacent_test in Hadj; congruence.
  - intros H1 H2. cbn [HtmlDiff.removeOrphansLoop].
    destruct (_ || _) eqn:E.
    + apply orb_true_iff in E.
      destruct E as [E|E]; apply adjacent_test in E; contradiction.
    + rewrite Eold, Enew. reflexivity.
Qed.

(** C10. Every state the public entry point builds has the orphan
    threshold 0: the constructor stores it and nothing assigns it again.
    In such a state [removeOrphans] keeps every match whose new-side
    tokens have a positive number of characters, so a match of its input
    that it does not yield has only empty strings as tokens. *)
Theorem orphans_threshold_is_zero (this : state)
    (H : Spec.Configured convertHtmlToListOfWords this) :
  HtmlDiff.orphanMatchThreshold _ this = JsNum.zero
  /\ forall (matches : list Match.t) (m : Match.t),
       In m matches ->
       (0 < Spec.chars (HtmlDiff.newWords _ this)
              (Match.startInNew m) (Match.endInNew m) ->
        In (Some m) (HtmlDiff.removeOrphans _ this matches))
       /\ (~ In (Some m) (HtmlDiff.removeOrphans _ this matches) ->
           Forall (fun w => w = ""%string)
             (Js.slice (HtmlDiff.newWords _ this)
                (Match.startInNew m) (Match.endInNew m))).
Proof.
  pose proof (configured_threshold this H) as Hthr. split; [exact Hthr|].
  intros matches m Hin.
  assert (Hkeep : 0 < Spec.chars (HtmlDiff.newWords _ this)
                        (Match.startInNew m) (Match.endInNew m) ->
                  In (Some m) (HtmlDiff.removeOrphans _ this matches)).
  { intros Hpos. destruct matches as [|next matches]; [contradiction|].
    unfold HtmlDiff.removeOrphans. apply in_map.
    now apply loop_keeps_positive. }
  split; [exact Hkeep|]. intros Hdrop. apply sumLength_zero.
  pose proof (sumLength_nonneg
                (Js.slice (HtmlDiff.newWords _ this)
                   (Match.startInNew m) (Match.endInNew m))) as Hge.
  destruct (Z.eq_dec (HtmlDiff.sumLength
                        (Js.slice (HtmlDiff.newWords _ this)
                           (Match.startInNew m) (Match.endInNew m))) 0)
    as [E|E]; [exact E|].
  exfalso. apply Hdrop, Hkeep. unfold Spec.chars. lia.
Qed.


End Orphans.

Lemma orphans_threshold_is_zero_witness :
  Spec.Configured WordSplitter.convertHtmlToListOfWords
    (HtmlDiff.constructor Empty_set "a" "b" None)
  /\ HtmlDiff.orphanMatchThreshold _ (HtmlDiff.constructor Empty_set "a" "b" None)
     = JsNum.zero.
Proof.
  split; [constructor|].
  exact (proj1 (orphans_threshold_is_zero Empty_set
                  WordSplitter.convertHtmlToListOfWords _
                  (Spec.Configured_new _ "a" "b" None))).
Defined.


(* ------------------------------------------------------------------ *)
(** ** The partition invariant of [operations] *)

Lemma ordered_weaken (ms : list Match.t) (a b a' b' c d : Z) :
  a' <= a -> b' <= b -> Spec.ordered ms a b c d -> Spec.ordered ms a' b' c d.
Proof.
  intros Ha Hb. destruct ms as [|m ms]; simpl; intros H.
  - lia.
  - destruct H as (H1 & H2 & H3 & H4). repeat split; try lia. exact H4.
Qed.

Lemma ordered_app (ms1 ms2 : list Match.t) (a b c d e f : Z) :
  Spec.ordered ms1 a b c d -> Spec.ordered ms2 c d e f ->
  Spec.ordered (ms1 ++ ms2) a b e f.
Proof.
  revert a b. induction ms1 as [|m ms1 IH]; simpl; intros a b H1 H2.
  - eapply ordered_weaken; [| |exact H2]; lia.
  - destruct H1 as (Ha & Hb & Hs & H1). repeat split; trivial. now apply IH.
Qed.

Lemma ordered_tail (m : Match.t) (ms : list Match.t) (a b c d : Z) :
  Spec.ordered (m :: ms) a b c d -> Spec.ordered ms a b c d.
Proof.
  simpl. intros (Ha & Hb & Hs & H).
  eapply ordered_weaken; [| |exact H]; unfold Match.endInOld, Match.endInNew; lia.
Qed.

Lemma last_default {A} (l : list A) (a b : A) : l <> [] -> last l a = last l b.
Proof.
  induction l as [|x l IH]; [congruence|]. intros _.
  destruct l as [|y l]; [reflexivity|].
  change (last (y :: l) a = last (y :: l) b). apply IH. discriminate.
Qed.

Lemma last_cons {A} (x : A) (l : list A) (a : A) : last (x :: l) a = last l x.
Proof.
  destruct l as [|y l]; [reflexivity|].
  change (last (y :: l) a = last (y :: l) x). apply last_default. discriminate.
Qed.

Section Partition.

Variable BlockExpression : Type.
Variable MatchFinder_findMatch :
  list string -> list string -> Z -> Z -> Z -> Z -> Types.MatchOptions ->
  option Match.t.
Hypothesis finder_in_window : Spec.finderInWindow MatchFinder_findMatch.

#[local] Abbreviation state := (HtmlDiff.t BlockExpression).

Lemma findMatchFrom_in_window (this : state) (i : nat) (so eo sn en : Z)
    (m : Match.t) :
  0 <= so <= eo -> 0 <= sn <= en ->
  HtmlDiff.findMatchFrom _ MatchFinder_findMatch this i so eo sn en = Some m ->
  so <= Match.startInOld m /\ Match.endInOld m <= eo
  /\ sn <= Match.startInNew m /\ Match.endInNew m <= en /\ 0 < Match.size m.
Proof.
  intros Ho Hn. induction i as [|i IH]; [discriminate|].
  cbn [HtmlDiff.findMatchFrom].
  destruct (MatchFinder_findMatch _ _ _ _ _ _ _) as [m'|] eqn:E.
  - intros [= <-]. eapply finder_in_window; [exact Ho|exact Hn| |exact E].
    cbn [Types.blockSize]. lia.
  - exact IH.
Qed.

(** The recursion ends, and collects ordered matches inside the window. *)
Lemma findMatchingBlocks_ordered (fuel : nat) :
  forall (this : state) (so eo sn en : Z) (acc : list Match.t),
    0 <= so <= eo -> 0 <= sn <= en ->
    (Z.to_nat ((eo - so) + (en - sn)) < fuel)%nat ->
    exists ms,
      HtmlDiff.findMatchingBlocks _ MatchFinder_findMatch fuel this
        so eo sn en acc = Some (acc ++ ms)
      /\ Spec.ordered ms so sn eo en
      /\ Forall (fun m => 0 < Match.size m) ms.
Proof.
  induction fuel as [|fuel IH]; intros this so eo sn en acc Ho Hn Hfuel; [lia|].
  cbn [HtmlDiff.findMatchingBlocks]. unfold HtmlDiff.findMatch.
  destruct (HtmlDiff.findMatchFrom _ _ _ _ _ _ _ _) as [m|] eqn:E.
  2:{ exists []. rewrite app_nil_r. repeat split; simpl; try lia. constructor. }
  apply findMatchFrom_in_window in E; [|assumption..].
  destruct E as (E1 & E2 & E3 & E4 & E5).
  unfold Match.endInOld, Match.endInNew in *.
  (* the window before the match *)
  assert (Hbefore : exists ms1,
            (if (so <? Match.startInOld m) && (sn <? Match.startInNew m)
             then HtmlDiff.findMatchingBlocks _ MatchFinder_findMatch fuel this
                    so (Match.startInOld m) sn (Match.startInNew m) acc
             else Some acc) = Some (acc ++ ms1)
            /\ Spec.ordered ms1 so sn (Match.startInOld m) (Match.startInNew m)
            /\ Forall (fun m => 0 < Match.size m) ms1).
  { destruct ((so <? Match.startInOld m) && (sn <? Match.startInNew m)).
    - apply IH; lia.
    - exists []. rewrite app_nil_r. repeat split; simpl; try lia. constructor. }
  destruct Hbefore as (ms1 & -> & Hord1 & Hpos1).
  (* the window after the match *)
  assert (Hafter : exists ms2,
            (if (Match.startInOld m + Match.size m <? eo)
                && (Match.startInNew m + Match.size m <? en)
             then HtmlDiff.findMatchingBlocks _ MatchFinder_findMatch fuel this
                    (Match.startInOld m + Match.size m) eo
                    (Match.startInNew m + Match.size m) en
                    ((acc ++ ms1) ++ [m])
             else Some ((acc ++ ms1) ++ [m]))
            = Some (((acc ++ ms1) ++ [m]) ++ ms2)
            /\ Spec.ordered ms2 (Match.startInOld m + Match.size m)
                 (Match.startInNew m + Match.size m) eo en
            /\ Forall (fun m => 0 < Match.size m) ms2).
  { destruct ((Match.startInOld m + Match.size m <? eo)
              && (Match.startInNew m + Match.size m <? en)).
    - apply IH; lia.
    - exists []. rewrite app_nil_r. repeat split; simpl; try lia. constructor. }
  destruct Hafter as (ms2 & -> & Hord2 & Hpos2).
  exists (ms1 ++ m :: ms2). split; [|split].
  - f_equal. rewrite <- !app_assoc. reflexivity.
  - eapply ordered_app; [exact Hord1|]. simpl. repeat split; try lia.
    exact Hord2.
  - apply Forall_app. split; [assumption|]. now constructor.
Qed.

(** Orphan removal keeps the order and keeps the last match. *)
Lemma removeOrphansLoop_ordered (this : state) (ms : list Match.t) :
  forall (prev curr : Match.t) (a b c d : Z),
    Spec.ordered (curr :: ms) a b c d ->
    exists init,
      HtmlDiff.removeOrphansLoop _ this prev curr ms = init ++ [last ms curr]
      /\ Spec.ordered (init ++ [last ms curr]) a b c d.
Proof.
  induction ms as [|next ms IH]; intros prev curr a b c d Hord.
  - exists []. simpl. split; [reflexivity|exact Hord].
  - cbn [HtmlDiff.removeOrphansLoop].
    assert (Hlast : last (next :: ms) curr = last ms next) by apply last_cons.
    rewrite Hlast.
    destruct (_ || _).
    + destruct Hord as (Ha & Hb & Hs & Hord).
      destruct (IH prev next _ _ _ _ Hord) as (init & -> & Hord').
      exists (curr :: init). split; [reflexivity|].
      simpl. repeat split; assumption.
    + match goal with |- context [if ?c then _ else _] => destruct c end.
      * destruct Hord as (Ha & Hb & Hs & Hord).
        destruct (IH curr next _ _ _ _ Hord) as (init & -> & Hord').
        exists (curr :: init). split; [reflexivity|].
        simpl. repeat split; assumption.
      * apply ordered_tail in Hord.
        destruct (IH curr next _ _ _ _ Hord) as (init & -> & Hord').
        exists init. split; [reflexivity|exact Hord'].
Qed.

Lemma operationsLoop_tiles (ms : list Match.t) :
  forall (posOld posNew c d : Z) (acc : list Operation.t),
    Spec.ordered ms posOld posNew c d ->
    exists ops,
      HtmlDiff.operationsLoop (map Some ms) posOld posNew acc = Some (acc ++ ops)
      /\ Spec.tiles ops posOld posNew
           (Match.endInOld (last ms (Spec.mkMatch posOld posNew 0)))
           (Match.endInNew (last ms (Spec.mkMatch posOld posNew 0))).
Proof.
  induction ms as [|m ms IH]; intros posOld posNew c d acc Hord.
  - exists []. rewrite app_nil_r. simpl. unfold Match.endInOld, Match.endInNew.
    simpl. split; [reflexivity|lia].
  - destruct Hord as (Ha & Hb & Hs & Hord).
    cbn [map HtmlDiff.operationsLoop].
    set (acc1 := match _ with Types.none => acc | _ => _ end).
    set (acc2 := if negb (Match.size m =? 0) then _ else acc1).
    destruct (IH _ _ _ _ acc2 Hord) as (ops & -> & Htiles).
    assert (Hlast : forall x y,
               last ms (Spec.mkMatch (Match.endInOld m) (Match.endInNew m) 0) = x ->
               last (m :: ms) (Spec.mkMatch posOld posNew 0) = y ->
               Match.endInOld x = Match.endInOld y
               /\ Match.endInNew x = Match.endInNew y).
    { intros x y <- <-. rewrite last_cons. destruct ms as [|m' ms'].
      - simpl. unfold Match.endInOld, Match.endInNew. simpl. lia.
      - split; f_equal; apply last_default; discriminate. }
    destruct (Hlast _ _ eq_refl eq_refl) as [-> ->] in Htiles. clear Hlast.
    set (equalOp := {| Operation.action := Types.equal;
                       Operation.startInOld := Match.startInOld m;
                       Operation.endInOld := Match.endInOld m;
                       Operation.startInNew := Match.startInNew m;
                       Operation.endInNew := Match.endInNew m |}) in *.
    assert (Hequal : exists eqs,
               acc2 = acc1 ++ eqs
               /\ forall ops', Spec.tiles ops' (Match.endInOld m) (Match.endInNew m)
                                 (Match.endInOld (last (m :: ms) (Spec.mkMatch posOld posNew 0)))
                                 (Match.endInNew (last (m :: ms) (Spec.mkMatch posOld posNew 0))) ->
                               Spec.tiles (eqs ++ ops') (Match.startInOld m) (Match.startInNew m)
                                 (Match.endInOld (last (m :: ms) (Spec.mkMatch posOld posNew 0)))
                                 (Match.endInNew (last (m :: ms) (Spec.mkMatch posOld posNew 0)))).
    { subst acc2. destruct (Z.eqb_spec (Match.size m) 0) as [E|E]; simpl.
      - exists []. rewrite app_nil_r. split; [reflexivity|].
        intros ops' H. simpl. unfold Match.endInOld, Match.endInNew in H.
        rewrite E, !Z.add_0_r in H. exact H.
      - exists [equalOp]. split; [reflexivity|]. intros ops' H. simpl.
        unfold Match.endInOld, Match.endInNew in *. repeat split; try lia.
        exact H. }
    destruct Hequal as (eqs & -> & Heq).
    assert (Hgap : exists gaps,
               acc1 = acc ++ gaps
               /\ forall ops', Spec.tiles ops' (Match.startInOld m) (Match.startInNew m)
                                 (Match.endInOld (last (m :: ms) (Spec.mkMatch posOld posNew 0)))
                                 (Match.endInNew (last (m :: ms) (Spec.mkMatch posOld posNew 0))) ->
                               Spec.tiles (gaps ++ ops') posOld posNew
                                 (Match.endInOld (last (m :: ms) (Spec.mkMatch posOld posNew 0)))
                                 (Match.endInNew (last (m :: ms) (Spec.mkMatch posOld posNew 0)))).
    { subst acc1.
      destruct (Z.eqb_spec posOld (Match.startInOld m)) as [E1|E1];
        destruct (Z.eqb_spec posNew (Match.startInNew m)) as [E2|E2]; simpl.
      - exists []. rewrite app_nil_r. split; [reflexivity|].
        intros ops' H. simpl. subst posOld posNew. exact H.
      - eexists [_]. split; [reflexivity|]. intros ops' H. simpl.
        repeat split; try lia. exact H.
      - eexists [_]. split; [reflexivity|]. intros ops' H. simpl.
        repeat split; try lia. exact H.
      - eexists [_]. split; [reflexivity|]. intros ops' H. simpl.
        repeat split; try lia. exact H. }
    destruct Hgap as (gaps & -> & Hgap).
    exists (gaps ++ eqs ++ ops). split.
    + f_equal. rewrite <- !app_assoc. reflexivity.
    + apply Hgap, Heq, Htiles.
Qed.

Lemma tiles_none_before_old (ops : list Operation.t) (a b c d i : Z) :
  Spec.tiles ops a b c d -> i < a -> filter (Spec.coversOld i) ops = [].
Proof.
  revert a b. induction ops as [|op ops IH]; intros a b H Hi; [reflexivity|].
  destruct H as (H1 & H2 & H3 & H4 & H). simpl. unfold Spec.coversOld at 1.
  destruct (Z.leb_spec (Operation.startInOld op) i); [lia|]. simpl.
  eapply IH; [exact H|lia].
Qed.

Lemma tiles_none_before_new (ops : list Operation.t) (a b c d i : Z) :
  Spec.tiles ops a b c d -> i < b -> filter (Spec.coversNew i) ops = [].
Proof.
  revert a b. induction ops as [|op ops IH]; intros a b H Hi; [reflexivity|].
  destruct H as (H1 & H2 & H3 & H4 & H). simpl. unfold Spec.coversNew at 1.
  destruct (Z.leb_spec (Operation.startInNew op) i); [lia|]. simpl.
  eapply IH; [exact H|lia].
Qed.

Lemma tiles_cover_old (ops : list Operation.t) (a b c d i : Z) :
  Spec.tiles ops a b c d -> a <= i < c ->
  List.length (filter (Spec.coversOld i) ops) = 1%nat.
Proof.
  revert a b. induction ops as [|op ops IH]; intros a b H Hi.
  - simpl in H. lia.
  - destruct H as (H1 & H2 & H3 & H4 & H). simpl. unfold Spec.coversOld at 1.
    destruct (Z.leb_spec (Operation.startInOld op) i); [|lia].
    destruct (Z.ltb_spec i (Operation.endInOld op)); simpl.
    + now rewrite (tiles_none_before_old _ _ _ _ _ i H).
    + eapply IH; [exact H|lia].
Qed.

Lemma tiles_cover_new (ops : list Operation.t) (a b c d i : Z) :
  Spec.tiles ops a b c d -> b <= i < d ->
  List.length (filter (Spec.coversNew i) ops) = 1%nat.
Proof.
  revert a b. induction ops as [|op ops IH]; intros a b H Hi.
  - simpl in H. lia.
  - destruct H as (H1 & H2 & H3 & H4 & H). simpl. unfold Spec.coversNew at 1.
    destruct (Z.leb_spec (Operation.startInNew op) i); [|lia].
    destruct (Z.ltb_spec i (Operation.endInNew op)); simpl.
    + now rewrite (tiles_none_before_new _ _ _ _ _ i H).
    + eapply IH; [exact H|lia].
Qed.

(** C1. With a match finder that answers inside the windows it is asked
    for, [operations()] returns, whatever the two token arrays are, and
    the operations it returns follow one another without gap or overlap
    from [(0, 0)] to [(oldWords.length, newWords.length)]: each starts
    where the one before it ends, on both sides, and none ends before it
    starts.  So every old token index and every new token index lies in
    the range of exactly one operation. *)
Theorem operations_partition (this : state) :
  exists ops,
    HtmlDiff.operations _ MatchFinder_findMatch this = Some ops
    /\ Spec.tiles ops 0 0
         (Js.len (HtmlDiff.oldWords _ this)) (Js.len (HtmlDiff.newWords _ this))
    /\ (forall i, 0 <= i < Js.len (HtmlDiff.oldWords _ this) ->
        List.length (filter (Spec.coversOld i) ops) = 1%nat)
    /\ (forall j, 0 <= j < Js.len (HtmlDiff.newWords _ this) ->
        List.length (filter (Spec.coversNew j) ops) = 1%nat).
Proof.
  set (lo := Js.len (HtmlDiff.oldWords _ this)).
  set (ln := Js.len (HtmlDiff.newWords _ this)).
  assert (Hlo : 0 <= lo) by apply len_nonneg.
  assert (Hln : 0 <= ln) by apply len_nonneg.
  unfold HtmlDiff.operations, HtmlDiff.matchingBlocks. fold lo ln.
  destruct (findMatchingBlocks_ordered
              (S (List.length (HtmlDiff.oldWords _ this)
                  + List.length (HtmlDiff.newWords _ this)))
              this 0 lo 0 ln []) as (ms & -> & Hord & _);
    [lia|lia|unfold lo, ln, Js.len; lia|].
  simpl app.
  set (sentinel := {| Match.startInOld := lo; Match.startInNew := ln;
                      Match.size := 0 |}).
  assert (Hall : Spec.ordered (ms ++ [sentinel]) 0 0 lo ln).
  { eapply ordered_app; [exact Hord|]. simpl.
    unfold Match.endInOld, Match.endInNew. simpl. lia. }
  assert (Hyield : exists init,
             HtmlDiff.removeOrphans _ this (ms ++ [sentinel])
             = map Some (init ++ [sentinel])
             /\ Spec.ordered (init ++ [sentinel]) 0 0 lo ln).
  { unfold HtmlDiff.removeOrphans.
    destruct (ms ++ [sentinel]) as [|curr rest] eqn:E.
    { destruct ms; discriminate. }
    destruct (removeOrphansLoop_ordered this rest (Spec.mkMatch 0 0 0) curr
                0 0 lo ln Hall) as (init & Hloop & Hord').
    assert (Hlast : last rest curr = sentinel).
    { rewrite <- (last_cons curr rest curr), <- E. apply last_last. }
    rewrite Hlast in *. exists init. unfold Spec.mkMatch in Hloop.
    rewrite Hloop. now split. }
  destruct Hyield as (init & -> & Hinit).
  destruct (operationsLoop_tiles (init ++ [sentinel]) 0 0 lo ln [] Hinit)
    as (ops & -> & Htiles).
  rewrite last_last in Htiles.
  unfold Match.endInOld, Match.endInNew in Htiles. simpl in Htiles.
  rewrite !Z.add_0_r in Htiles.
  exists ops. split; [reflexivity|]. split; [exact Htiles|]. split.
  - intros i Hi. eapply tiles_cover_old; [exact Htiles|lia].
  - intros j Hj. eapply tiles_cover_new; [exact Htiles|lia].
Qed.

End Partition.

(** The modelled match finder answers inside its windows. *)
Section ModelledFinder.

Variables oldWords newWords : list string.
Variables so eo sn en : Z.
Variable options : Types.MatchOptions.

#[local] Abbreviation ext :=
  (MatchFinder.extension oldWords newWords eo sn en options).

Lemma extension_fits (fuel : nat) :
  forall i j,
    0 <= ext fuel i j
    /\ (0 < ext fuel i j ->
        i + ext fuel i j - 1 + Types.blockSize options <= eo
        /\ j + ext fuel i j - 1 + Types.blockSize options <= en).
Proof.
  induction fuel as [|fuel IH]; intros i j; cbn [MatchFinder.extension]; [lia|].
  destruct (MatchFinder.groupsMatch _ _ _ _ _ _ _ _) eqn:E; [|lia].
  destruct (IH (i + 1) (j + 1)) as [H0 H1].
  unfold MatchFinder.groupsMatch, MatchFinder.fits in E.
  apply andb_true_iff in E. destruct E as [E _].
  apply andb_true_iff in E. destruct E as [E _].
  apply andb_true_iff in E. destruct E as [E1 E2].
  apply Z.leb_le in E1, E2. split; [lia|]. intros _.
  destruct (Z.eq_dec (ext fuel (i + 1) (j + 1)) 0) as [Z0|Z0].
  - rewrite Z0. lia.
  - specialize (H1 ltac:(lia)). lia.
Qed.

Lemma candidate_in_window (i j : Z) (m : Match.t) :
  so <= i -> sn <= j -> 1 <= Types.blockSize options ->
  MatchFinder.candidate oldWords newWords eo sn en options i j = Some m ->
  Spec.inWindow so eo sn en m.
Proof.
  intros Hi Hj Hg. unfold MatchFinder.candidate.
  destruct (Z.ltb_spec 0 (ext (Z.to_nat (eo - i)) i j)) as [H|H]; [|discriminate].
  intros [= <-]. destruct (extension_fits (Z.to_nat (eo - i)) i j) as [_ Hfit].
  specialize (Hfit H). unfold Spec.inWindow, Match.endInOld, Match.endInNew.
  simpl. lia.
Qed.

Lemma better_in_window (best c : option Match.t) :
  (forall m, best = Some m -> Spec.inWindow so eo sn en m) ->
  (forall m, c = Some m -> Spec.inWindow so eo sn en m) ->
  forall m, MatchFinder.better best c = Some m -> Spec.inWindow so eo sn en m.
Proof.
  intros Hb Hc m. unfold MatchFinder.better.
  destruct best as [b|], c as [x|]; try destruct (_ <? _); auto.
Qed.

Lemma findMatch_in_window (m : Match.t) :
  MatchFinder.findMatch oldWords newWords so eo sn en options = Some m ->
  Spec.inWindow so eo sn en m.
Proof.
  unfold MatchFinder.findMatch.
  destruct (Z.ltb_spec (Types.blockSize options) 1) as [|Hg]; [discriminate|].
  destruct (_ || _); [discriminate|]. simpl orb.
  set (js := map (fun k => sn + Z.of_nat k) (seq 0 (Z.to_nat (en - sn)))).
  set (ks := map (fun k => so + Z.of_nat k) (seq 0 (Z.to_nat (eo - so)))).
  assert (Hjs : Forall (fun j => sn <= j) js)
    by (apply Forall_forall; intros j Hj; apply in_map_iff in Hj;
        destruct Hj as (k & <- & _); lia).
  assert (His : Forall (fun i => so <= i) ks)
    by (apply Forall_forall; intros i Hi; apply in_map_iff in Hi;
        destruct Hi as (k & <- & _); lia).
  assert (Hinner : forall i, so <= i -> forall best,
             (forall m, best = Some m -> Spec.inWindow so eo sn en m) ->
             forall m,
               fold_left
                 (fun best j =>
                    MatchFinder.better best
                      (MatchFinder.candidate oldWords newWords eo sn en options i j))
                 js best = Some m -> Spec.inWindow so eo sn en m).
  { intros i Hi. induction Hjs as [|j js' Hj _ IH]; intros best Hbest m'.
    - simpl. apply Hbest.
    - simpl. apply IH. apply better_in_window; [exact Hbest|].
      intros m''. now apply candidate_in_window. }
  assert (Houter : forall best,
             (forall m, best = Some m -> Spec.inWindow so eo sn en m) ->
             forall m,
               fold_left
                 (fun best i =>
                    fold_left
                      (fun best j =>
                         MatchFinder.better best
                           (MatchFinder.candidate oldWords newWords eo sn en
                              options i j))
                      js best)
                 ks best = Some m -> Spec.inWindow so eo sn en m).
  { induction His as [|i ks' Hi _ IH]; intros best Hbest m'; simpl.
    - apply Hbest.
    - apply IH. intros m''. apply (Hinner i Hi best Hbest). }
  intros H. eapply Houter; [|exact H]. discriminate.
Qed.

End ModelledFinder.

Lemma modelled_finder_in_window : Spec.finderInWindow MatchFinder.findMatch.
Proof.
  intros oldWords newWords so eo sn en options m _ _ _ H.
  now apply findMatch_in_window in H.
Qed.

Lemma operations_partition_witness :
  Spec.finderInWindow MatchFinder.findMatch
  /\ exists ops,
       HtmlDiff.operations Empty_set MatchFinder.findMatch
         (HtmlDiff.set_matchGranularity _
            (Spec.orphanState ["a"; " "; "b"]%string ["a"; " "; "c"]%string 0) 3)
       = Some ops.
Proof.
  split; [exact modelled_finder_in_window|].
  destruct (operations_partition Empty_set MatchFinder.findMatch
              modelled_finder_in_window
              (HtmlDiff.set_matchGranularity _
                 (Spec.orphanState ["a"; " "; "b"]%string ["a"; " "; "c"]%string 0) 3))
    as (ops & H & _).
  exists ops. exact H.
Defined.

(* ------------------------------------------------------------------ *)
(** ** The pairwise score of the block alignment *)

Lemma strlen_append (a b : string) :
  Js.strlen (a ++ b)%string = Js.strlen a + Js.strlen b.
Proof.
  unfold Js.strlen. induction a as [|c a IH]; cbn [String.append String.length].
  - lia.
  - lia.
Qed.

Lemma strlen_join (l : list string) : Js.strlen (Js.join l) = HtmlDiff.sumLength l.
Proof.
  induction l as [|x l IH]; [reflexivity|].
  now rewrite join_cons, strlen_append, sumLength_cons, IH.
Qed.

Lemma lookup_map {A B} (f : A -> B) (l : list A) (i : Z) :
  Js.lookup (map f l) i = option_map f (Js.lookup l i).
Proof. unfold Js.lookup. destruct (i <? 0); [reflexivity|apply nth_error_map]. Qed.

(** The length that the code keeps for a block is the number of characters
    of the tokens strictly between its boundary tags. *)
Lemma lengthAt_innerLengths (words : list string)
    (blocks : list BlockAnalyzer.Block) (i : Z) (b : BlockAnalyzer.Block) :
  Js.lookup blocks i = Some b ->
  HtmlDiff.lengthAt (HtmlDiff.innerLengths words blocks) i
  = Spec.chars words (BlockAnalyzer.startIndex b + 1) (BlockAnalyzer.endIndex b).
Proof.
  intros H. unfold HtmlDiff.lengthAt, HtmlDiff.innerLengths.
  rewrite lookup_map, H. simpl. apply strlen_join.
Qed.

Section Score.

Variable BlockExpression : Type.

(** C7, amended. For two blocks that exist, the score is 0 when their types
    do not match under the equivalence rules, 100 when neither has inner
    content, and otherwise [100 - Math.round((|lenOld - lenNew| / max) * 100)]
    computed as the code does, in binary64: the quotient is rounded, its
    product with 100 is rounded, and [Math.round] rounds the result to an
    integer.  The lengths are the numbers of characters of the tokens
    strictly between the boundary tags of each block. *)
Theorem scoreForMatch_rule (this : HtmlDiff.t BlockExpression)
    (oldIndex newIndex : Z) (oldBlock newBlock : BlockAnalyzer.Block)
    (an : BlockAnalyzer.t)
    (Hold : Js.lookup (HtmlDiff.oldBlocks _ this) oldIndex = Some oldBlock)
    (Hnew : Js.lookup (HtmlDiff.newBlocks _ this) newIndex = Some newBlock)
    (Han : HtmlDiff.blockAnalyzer _ this = Some an) :
  let lenOld :=
    Spec.chars (HtmlDiff.oldWords _ this)
      (BlockAnalyzer.startIndex oldBlock + 1) (BlockAnalyzer.endIndex oldBlock) in
  let lenNew :=
    Spec.chars (HtmlDiff.newWords _ this)
      (BlockAnalyzer.startIndex newBlock + 1) (BlockAnalyzer.endIndex newBlock) in
  HtmlDiff.scoreForMatch _ this oldIndex newIndex
  = if negb (BlockAnalyzer.isSameBlockType an (Some oldBlock) (Some newBlock))
    then 0
    else if Z.max lenOld lenNew =? 0 then 100
    else 100 - JsNum.round
                 (JsNum.mul
                    (JsNum.div (JsNum.ofZ (Z.abs (lenOld - lenNew)))
                       (JsNum.ofZ (Z.max lenOld lenNew)))
                    (JsNum.ofZ 100)).
Proof.
  intros lenOld lenNew. unfold HtmlDiff.scoreForMatch.
  rewrite Hold, Hnew, Han.
  rewrite (lengthAt_innerLengths _ _ _ _ Hold).
  rewrite (lengthAt_innerLengths _ _ _ _ Hnew).
  reflexivity.
Qed.

End Score.

Lemma scoreForMatch_rule_witness :
  HtmlDiff.scoreForMatch _
    (Spec.alignState (Spec.paragraph 3) (Spec.paragraph 4) Spec.blockDiffOn) 0 0
  = 75.
Proof.
  rewrite (scoreForMatch_rule Empty_set
             (Spec.alignState (Spec.paragraph 3) (Spec.paragraph 4) Spec.blockDiffOn)
             0 0
             {| BlockAnalyzer.tagName := "p"; BlockAnalyzer.startIndex := 0;
                BlockAnalyzer.endIndex := 2; BlockAnalyzer.depth := 0 |}
             {| BlockAnalyzer.tagName := "p"; BlockAnalyzer.startIndex := 0;
                BlockAnalyzer.endIndex := 2; BlockAnalyzer.depth := 0 |}
             (BlockAnalyzer.constructor (Some Spec.blockDiffOn))
             eq_refl eq_refl eq_refl).
  reflexivity.
Defined.

(** C7, as stated, fails.  Two paragraphs whose inner contents have 17 and
    40 characters: [100 * 23 / 40] is 57.5 and the score of the claim is
    100 - 58 = 42; the code divides first, and the binary64 product of the
    rounded quotient with 100 lies just below 57.5, so [Math.round] gives
    57 and the score is 43.  No other reading of "round" helps: with 199 and
    200 characters the exact value is 0.5 and the code rounds it up. *)
Lemma scoreForMatch_counterexample :
  let this := Spec.alignState (Spec.paragraph 17) (Spec.paragraph 40)
                Spec.blockDiffOn in
  let this' := Spec.alignState (Spec.paragraph 199) (Spec.paragraph 200)
                 Spec.blockDiffOn in
  HtmlDiff.scoreForMatch _ this 0 0 = 43
  /\ Spec.scoreOfSpec 17 40 = 42
  /\ 2 * (100 * Z.abs (17 - 40)) = (2 * 57 + 1) * Z.max 17 40
  /\ HtmlDiff.scoreForMatch _ this' 0 0 = 99
  /\ 2 * (100 * Z.abs (199 - 200)) = (2 * 0 + 1) * Z.max 199 200.
Proof. vm_compute. repeat split. Qed.


(* ------------------------------------------------------------------ *)
(** ** The weighted alignment of the blocks *)

Section Backtrack.

Variable score : Z -> Z -> Z.
Variable dp : list (list Z).
Variables oldCount newCount : Z.

#[local] Abbreviation walk :=
  (fun fuel => HtmlDiff.backtrack fuel score dp oldCount newCount).

Lemma backtrack_acc (fuel : nat) :
  forall i j acc, walk fuel i j acc = acc ++ walk fuel i j [].
Proof.
  induction fuel as [|fuel IH]; intros i j acc; cbn [HtmlDiff.backtrack].
  - now rewrite app_nil_r.
  - destruct ((i <? oldCount) && (j <? newCount)); [|now rewrite app_nil_r].
    destruct (_ && _).
    + rewrite IH, (IH _ _ ([] ++ _)). now rewrite <- app_assoc.
    + destruct (_ >=? _); apply IH.
Qed.

Lemma chain_weaken (l : list HtmlDiff.Anchor) (a b a' b' c d : Z) :
  a' <= a -> b' <= b -> Spec.chain l a b c d -> Spec.chain l a' b' c d.
Proof.
  intros Ha Hb. destruct l as [|x l]; simpl; [trivial|].
  intros (H1 & H2 & H3). repeat split; try lia. exact H3.
Qed.

(** The anchors are found in ascending order on both axes. *)
Lemma backtrack_chain (fuel : nat) :
  forall i j, Spec.chain (walk fuel i j []) i j oldCount newCount.
Proof.
  induction fuel as [|fuel IH]; intros i j; cbn [HtmlDiff.backtrack]; [exact I|].
  destruct (Z.ltb_spec i oldCount); [|exact I].
  destruct (Z.ltb_spec j newCount); [|exact I]. simpl andb.
  destruct (_ && _).
  - rewrite backtrack_acc. simpl. repeat split; try lia. apply IH.
  - destruct (_ >=? _).
    + eapply chain_weaken; [| |apply IH]; lia.
    + eapply chain_weaken; [| |apply IH]; lia.
Qed.

End Backtrack.

(* ------------------------------------------------------------------ *)
(** ** The blocks that [findBlocks] reports *)

Lemma blocksOrdered_weaken (l : list BlockAnalyzer.Block) (lo lo' hi hi' : Z) :
  lo' <= lo -> hi <= hi' ->
  Spec.blocksOrdered l lo hi -> Spec.blocksOrdered l lo' hi'.
Proof.
  revert lo lo'. induction l as [|b l IH]; simpl; intros lo lo' Hlo Hhi H; [lia|].
  destruct H as (H1 & H2 & H3 & H4). repeat split; try lia.
  eapply IH; [| |exact H4]; lia.
Qed.

Lemma blocksOrdered_bounds (l : list BlockAnalyzer.Block) (lo hi : Z) :
  Spec.blocksOrdered l lo hi -> lo <= hi.
Proof.
  revert lo. induction l as [|b l IH]; simpl; intros lo H; [exact H|].
  destruct H as (H1 & H2 & H3 & H4). apply IH in H4. lia.
Qed.

Lemma blocksOrdered_app (l1 l2 : list BlockAnalyzer.Block) (lo mid hi : Z) :
  Spec.blocksOrdered l1 lo mid -> Spec.blocksOrdered l2 mid hi ->
  Spec.blocksOrdered (l1 ++ l2) lo hi.
Proof.
  revert lo. induction l1 as [|b l1 IH]; simpl; intros lo H1 H2.
  - eapply blocksOrdered_weaken; [| |exact H2]; lia.
  - destruct H1 as (Ha & Hb & Hc & H1). repeat split; try lia.
    + pose proof (blocksOrdered_bounds _ _ _ H1).
      pose proof (blocksOrdered_bounds _ _ _ H2). lia.
    + now apply IH.
Qed.

Lemma spliceNearest_spec (tagName : string) (stack : list BlockAnalyzer.Open) :
  forall o rest,
    BlockAnalyzer.spliceNearest tagName stack = Some (o, rest) ->
    In o stack /\ incl rest stack
    /\ Js.len rest = Js.len stack - 1
    /\ (Spec.deepAbove stack ->
        Spec.deepAbove rest
        /\ (BlockAnalyzer.openDepth o = 0 ->
            Forall (fun e => 1 <= BlockAnalyzer.openDepth e) rest)).
Proof.
  induction stack as [|e stack IH]; intros o rest; [discriminate|].
  cbn [BlockAnalyzer.spliceNearest].
  destruct (String.eqb _ _).
  - intros [= <- <-]. split; [now left|]. split; [apply incl_tl, incl_refl|].
    split; [rewrite len_cons; lia|]. intros Hdeep.
    destruct stack as [|e' stack]; [split; [exact I|constructor]|].
    destruct Hdeep as [Hd Hdeep]. split; [exact Hdeep|]. intros H0. lia.
  - destruct (BlockAnalyzer.spliceNearest tagName stack) as [[o' rest']|] eqn:E;
      [|discriminate].
    intros [= <- <-]. destruct (IH _ _ eq_refl) as (Hin & Hincl & Hlen & Hdeep).
    split; [now right|]. split.
    { intros x [<-|Hx]; [now left|right; now apply Hincl]. }
    split; [rewrite !len_cons; lia|]. intros Hd.
    destruct stack as [|e' stack]; [discriminate|].
    destruct Hd as [Hd1 Hd2]. destruct (Hdeep Hd2) as [Hr1 Hr2].
    split.
    + destruct rest' as [|r rest']; [exact I|]. split; assumption.
    + intros H0. constructor; [exact Hd1|now apply Hr2].
Qed.

Section FindBlocks.

Variable this : BlockAnalyzer.t.

(** The loop keeps the blocks in order: a block is only ever reported for
    an opening tag that was pushed on the empty stack, after the end of the
    block reported before it. *)
Lemma findBlocksLoop_ordered (words : list string) :
  forall (i lo : Z) (blocks : list BlockAnalyzer.Block)
         (stack : list BlockAnalyzer.Open) (currentDepth : Z),
    currentDepth = Js.len stack ->
    Spec.deepAbove stack ->
    Spec.blocksOrdered blocks 0 lo -> lo <= i ->
    Forall (fun e => BlockAnalyzer.openStartIndex e < i
                     /\ (BlockAnalyzer.openDepth e = 0 ->
                         lo <= BlockAnalyzer.openStartIndex e)) stack ->
    Spec.blocksOrdered
      (BlockAnalyzer.findBlocksLoop this words i blocks stack currentDepth)
      0 (i + Js.len words).
Proof.
  induction words as [|word words IH];
    intros i lo blocks stack currentDepth Hdepth Hdeep Hblocks Hlo Hstack.
  { simpl. eapply blocksOrdered_weaken; [| |exact Hblocks]; unfold Js.len; simpl; lia. }
  assert (Hskip : Spec.blocksOrdered
                    (BlockAnalyzer.findBlocksLoop this words (i + 1) blocks stack
                       currentDepth) 0 (i + Js.len (word :: words))).
  { rewrite len_cons. replace (i + (1 + Js.len words)) with (i + 1 + Js.len words) by lia.
    apply (IH (i + 1) lo); trivial; [lia|].
    eapply Forall_impl; [|exact Hstack]. simpl. intros e [H1 H2]. split; [lia|exact H2]. }
  cbn [BlockAnalyzer.findBlocksLoop].
  destruct (negb (Utils.isTag word)); [exact Hskip|].
  destruct (Utils.getTagName word) as [tagName|]; [|exact Hskip].
  destruct (negb (Utils.has _ tagName)); [exact Hskip|].
  destruct (Utils.isOpeningTag word).
  { (* an opening tag is pushed *)
    rewrite len_cons. replace (i + (1 + Js.len words)) with (i + 1 + Js.len words) by lia.
    apply (IH (i + 1) lo); trivial.
    - rewrite len_cons. lia.
    - destruct stack as [|e stack]; [exact I|]. split; [|exact Hdeep].
      cbn [BlockAnalyzer.openDepth]. rewrite Hdepth, len_cons.
      pose proof (len_nonneg stack). lia.
    - lia.
    - constructor.
      + cbn [BlockAnalyzer.openStartIndex BlockAnalyzer.openDepth]. split; lia.
      + eapply Forall_impl; [|exact Hstack]. simpl. intros e [H1 H2].
        split; [lia|exact H2]. }
  destruct (Utils.isClosingTag word && (0 <? Js.len stack)); [|exact Hskip].
  destruct (BlockAnalyzer.spliceNearest tagName stack) as [[openingTag stack']|] eqn:E;
    [|exact Hskip].
  destruct (spliceNearest_spec _ _ _ _ E) as (Hin & Hincl & Hlen & Hd).
  destruct (Hd Hdeep) as [Hdeep' Hzero].
  rewrite len_cons. replace (i + (1 + Js.len words)) with (i + 1 + Js.len words) by lia.
  assert (Hopen : BlockAnalyzer.openStartIndex openingTag < i
                  /\ (BlockAnalyzer.openDepth openingTag = 0 ->
                      lo <= BlockAnalyzer.openStartIndex openingTag))
    by (rewrite Forall_forall in Hstack; now apply Hstack).
  destruct (Z.eqb_spec (BlockAnalyzer.openDepth openingTag) 0) as [H0|H0].
  - (* the block of a tag opened on the empty stack is reported *)
    apply (IH (i + 1) (i + 1)); trivial; [lia| |lia|].
    + eapply blocksOrdered_app; [exact Hblocks|]. simpl.
      destruct Hopen as [H1 H2]. specialize (H2 H0). repeat split; lia.
    + specialize (Hzero H0). rewrite Forall_forall in *. intros e He.
      specialize (Hzero e He). specialize (Hstack e (Hincl e He)).
      split; lia.
  - apply (IH (i + 1) lo); trivial; [lia|lia|].
    rewrite Forall_forall in *. intros e He.
    specialize (Hstack e (Hincl e He)). split; [lia|tauto].
Qed.

Lemma insertBlock_last (b : BlockAnalyzer.Block) (acc : list BlockAnalyzer.Block) :
  Forall (fun c => BlockAnalyzer.startIndex c <= BlockAnalyzer.startIndex b) acc ->
  BlockAnalyzer.insertBlock b acc = acc ++ [b].
Proof.
  induction 1 as [|c acc Hc _ IH]; [reflexivity|]. simpl.
  destruct (Z.ltb_spec (BlockAnalyzer.startIndex b) (BlockAnalyzer.startIndex c));
    [lia|]. now rewrite IH.
Qed.

Lemma sortBlocks_ordered (l : list BlockAnalyzer.Block) :
  forall (acc : list BlockAnalyzer.Block) (lo hi : Z),
    Forall (fun c => BlockAnalyzer.startIndex c < lo) acc ->
    Spec.blocksOrdered l lo hi ->
    fold_left (fun acc b => BlockAnalyzer.insertBlock b acc) l acc = acc ++ l.
Proof.
  induction l as [|b l IH]; intros acc lo hi Hacc Hl; [now rewrite app_nil_r|].
  destruct Hl as (H1 & H2 & H3 & H4). simpl.
  rewrite insertBlock_last.
  - rewrite (IH _ (BlockAnalyzer.endIndex b + 1) hi); trivial.
    + now rewrite <- app_assoc.
    + apply Forall_app. split.
      * eapply Forall_impl; [|exact Hacc]. simpl. intros c Hc. lia.
      * constructor; [lia|constructor].
  - eapply Forall_impl; [|exact Hacc]. simpl. intros c Hc. lia.
Qed.

(** The blocks of [findBlocks] are in ascending order and do not overlap;
    each lies inside the token array. *)
Lemma findBlocks_ordered (words : list string) :
  Spec.blocksOrdered (BlockAnalyzer.findBlocks this words) 0 (Js.len words).
Proof.
  unfold BlockAnalyzer.findBlocks, BlockAnalyzer.sortBlocks.
  pose proof (findBlocksLoop_ordered words 0 0 [] [] 0 eq_refl I) as H.
  simpl in H. specialize (H ltac:(lia) ltac:(lia) (Forall_nil _)).
  rewrite (sortBlocks_ordered _ [] 0 (Js.len words)); trivial.
Qed.

End FindBlocks.

(* ------------------------------------------------------------------ *)
(** ** The change ranges of [detectBlockTypeChanges] *)

Lemma slice_firstn_skipn {A} (l : list A) (s e : Z) :
  0 <= s <= e ->
  Js.slice l s e = firstn (Z.to_nat (e - s)) (skipn (Z.to_nat s) l).
Proof.
  intros H. rewrite slice_inside by lia. pose proof (len_nonneg l) as Hl.
  destruct (Z.le_gt_cases s (Js.len l)) as [Hs|Hs].
  - rewrite (Z.min_l s) by lia.
    destruct (Z.le_gt_cases e (Js.len l)) as [He|He].
    + rewrite Z.min_l by lia. f_equal. lia.
    + rewrite Z.min_r by lia.
      rewrite !firstn_all2; trivial; rewrite length_skipn; unfold Js.len in *; lia.
  - rewrite !skipn_all2 by (unfold Js.len in *; lia). now rewrite !firstn_nil.
Qed.

Lemma slice_empty {A} (l : list A) (s e : Z) :
  0 <= e <= s -> Js.slice l s e = [].
Proof.
  intros H. rewrite slice_inside by lia.
  replace (Z.to_nat (Z.min e (Js.len l)) - Z.to_nat (Z.min s (Js.len l)))%nat
    with 0%nat by lia.
  reflexivity.
Qed.

Lemma allSameType_forallb (an : BlockAnalyzer.t) (l1 : list BlockAnalyzer.Block) :
  forall l2, List.length l1 = List.length l2 ->
    HtmlDiff.allSameType an l1 l2
    = forallb
        (fun p => BlockAnalyzer.isSameBlockType an (Some (fst p)) (Some (snd p)))
        (combine l1 l2).
Proof.
  induction l1 as [|x l1 IH]; intros [|y l2] H; try discriminate; [reflexivity|].
  cbn [HtmlDiff.allSameType forallb combine hd_error tl fst snd List.length] in *.
  destruct (BlockAnalyzer.isSameBlockType an (Some x) (Some y));
    cbn [negb andb]; [|reflexivity].
  apply IH. lia.
Qed.

Lemma len_eqb_length {A B} (l1 : list A) (l2 : list B) :
  (Js.len l1 =? Js.len l2) = true -> List.length l1 = List.length l2.
Proof. intros H. apply Z.eqb_eq in H. unfold Js.len in H. lia. Qed.

Lemma lookup_first {A} (x : A) (l : list A) : Js.lookup (x :: l) 0 = Some x.
Proof. reflexivity. Qed.

Lemma lookup_last {A} (x : A) (l : list A) :
  Js.lookup (x :: l) (Js.len (x :: l) - 1) = Some (last (x :: l) x).
Proof.
  unfold Js.lookup. rewrite len_cons. pose proof (len_nonneg l).
  destruct (Z.ltb_spec (1 + Js.len l - 1) 0); [lia|].
  replace (Z.to_nat (1 + Js.len l - 1)) with (List.length l)
    by (unfold Js.len; lia).
  clear. revert x. induction l as [|y l IH]; intros x; [reflexivity|].
  cbn [List.length nth_error]. rewrite IH.
  f_equal. symmetry. change (last (y :: l) x = last (y :: l) y).
  apply last_default. discriminate.
Qed.

Section Detect.

Variable BlockExpression : Type.
Variable this : HtmlDiff.t BlockExpression.
Variable an : BlockAnalyzer.t.

#[local] Abbreviation detect := (HtmlDiff.detectLoop BlockExpression this an).

(** One round of the loop. *)
Lemma detectLoop_step (current next : HtmlDiff.Anchor)
    (rest : list HtmlDiff.Anchor) (changes : list HtmlDiff.Change) :
  detect (current :: next :: rest) changes
  = detect (next :: rest)
      (changes
       ++ Spec.gapChange an
            (Js.slice (HtmlDiff.oldBlocks _ this)
               (HtmlDiff.oldIndex current + 1) (HtmlDiff.oldIndex next))
            (Js.slice (HtmlDiff.newBlocks _ this)
               (HtmlDiff.newIndex current + 1) (HtmlDiff.newIndex next))).
Proof.
  set (oldRange := Js.slice (HtmlDiff.oldBlocks _ this) _ _).
  set (newRange := Js.slice (HtmlDiff.newBlocks _ this) _ _).
  transitivity
    (if (Js.len oldRange =? 0) || (Js.len newRange =? 0)
     then detect (next :: rest) changes
     else
       if negb ((Js.len oldRange =? Js.len newRange)
                && HtmlDiff.allSameType an oldRange newRange)
       then
         match Js.lookup oldRange 0, Js.lookup oldRange (Js.len oldRange - 1),
               Js.lookup newRange 0, Js.lookup newRange (Js.len newRange - 1) with
         | Some oldFirst, Some oldLast, Some newFirst, Some newLast =>
             detect (next :: rest)
               (changes
                ++ [{| HtmlDiff.oldStart := BlockAnalyzer.startIndex oldFirst;
                       HtmlDiff.oldEnd := BlockAnalyzer.endIndex oldLast;
                       HtmlDiff.newStart := BlockAnalyzer.startIndex newFirst;
                       HtmlDiff.newEnd := BlockAnalyzer.endIndex newLast |}])
         | _, _, _, _ => detect (next :: rest) changes
         end
       else detect (next :: rest) changes).
  { reflexivity. }
  generalize (detect (next :: rest)). intros K.
  destruct oldRange as [|ob oldRange'].
  { simpl. now rewrite app_nil_r. }
  destruct newRange as [|nb newRange'].
  { rewrite orb_true_r. simpl. now rewrite app_nil_r. }
  assert (Hz : (Js.len (ob :: oldRange') =? 0) || (Js.len (nb :: newRange') =? 0)
               = false).
  { pose proof (len_nonneg oldRange'). pose proof (len_nonneg newRange').
    rewrite (len_cons ob), (len_cons nb).
    apply orb_false_iff. split; apply Z.eqb_neq; lia. }
  rewrite Hz.
  unfold Spec.gapChange, Spec.sameTypes.
  destruct (Js.len (ob :: oldRange') =? Js.len (nb :: newRange')) eqn:El.
  - rewrite allSameType_forallb by now apply len_eqb_length.
    cbn [andb].
    destruct (forallb _ (combine (ob :: oldRange') (nb :: newRange')));
      cbn [negb]; cbv iota.
    + now rewrite app_nil_r.
    + rewrite !lookup_first, !lookup_last. reflexivity.
  - cbn [andb negb]. cbv iota.
    rewrite !lookup_first, !lookup_last. reflexivity.
Qed.

Lemma detectLoop_acc (anchors : list HtmlDiff.Anchor) :
  forall changes, detect anchors changes = changes ++ detect anchors [].
Proof.
  induction anchors as [|current anchors IH]; intros changes.
  { simpl. now rewrite app_nil_r. }
  destruct anchors as [|next rest].
  { simpl. now rewrite app_nil_r. }
  rewrite !detectLoop_step, IH, (IH ([] ++ _)). now rewrite <- app_assoc.
Qed.

(** The change ranges are the verdicts on the gaps, in order. *)
Lemma detectLoop_gaps (anchors : list HtmlDiff.Anchor) :
  detect anchors []
  = flat_map (fun g => Spec.gapChange an (fst g) (snd g))
      (Spec.gaps (HtmlDiff.oldBlocks _ this) (HtmlDiff.newBlocks _ this) anchors).
Proof.
  induction anchors as [|current anchors IH]; [reflexivity|].
  destruct anchors as [|next rest]; [reflexivity|].
  rewrite detectLoop_step, detectLoop_acc, IH. reflexivity.
Qed.

End Detect.

Lemma blocksOrdered_skipn (l : list BlockAnalyzer.Block) (n : nat) (lo hi : Z) :
  Spec.blocksOrdered l lo hi -> Spec.blocksOrdered (skipn n l) lo hi.
Proof.
  revert l lo. induction n as [|n IH]; intros l lo H; [exact H|].
  destruct l as [|b l]; [exact H|]. simpl.
  destruct H as (H1 & H2 & H3 & H4). apply IH.
  eapply blocksOrdered_weaken; [| |exact H4]; lia.
Qed.

Lemma blocksOrdered_firstn (n : nat) :
  forall (l : list BlockAnalyzer.Block) (lo hi : Z) b r,
    Spec.blocksOrdered l lo hi -> firstn n l = b :: r ->
    lo <= BlockAnalyzer.startIndex b
    /\ BlockAnalyzer.startIndex b <= BlockAnalyzer.endIndex (last (b :: r) b)
    /\ BlockAnalyzer.endIndex (last (b :: r) b) < hi
    /\ Spec.blocksOrdered (skipn n l)
         (BlockAnalyzer.endIndex (last (b :: r) b) + 1) hi.
Proof.
  induction n as [|n IH]; intros l lo hi b r H E; [discriminate|].
  destruct l as [|x l]; [discriminate|]. simpl in E. injection E as -> E.
  destruct H as (H1 & H2 & H3 & H4).
  destruct r as [|y r].
  - simpl. assert (Hs : skipn n l = l).
    { destruct n; [reflexivity|]. destruct l; [reflexivity|discriminate]. }
    rewrite Hs. repeat split; try lia. exact H4.
  - destruct (IH l _ _ y r H4 E) as (I1 & I2 & I3 & I4).
    rewrite last_cons. rewrite (last_cons y r b) in *.
    rewrite <- (last_cons y r y). simpl skipn.
    repeat split; try lia. exact I4.
Qed.

Section ChangesOrdered.

Variable an : BlockAnalyzer.t.
Variables oldBlocks newBlocks : list BlockAnalyzer.Block.
Variables oldLength newLength : Z.

Lemma gaps_changes_ordered (anchors : list HtmlDiff.Anchor) :
  forall (current : HtmlDiff.Anchor) (loOld loNew hiOld hiNew : Z),
    -1 <= HtmlDiff.oldIndex current -> -1 <= HtmlDiff.newIndex current ->
    Spec.chain anchors (HtmlDiff.oldIndex current + 1)
      (HtmlDiff.newIndex current + 1) hiOld hiNew ->
    Spec.blocksOrdered
      (skipn (Z.to_nat (HtmlDiff.oldIndex current + 1)) oldBlocks) loOld oldLength ->
    Spec.blocksOrdered
      (skipn (Z.to_nat (HtmlDiff.newIndex current + 1)) newBlocks) loNew newLength ->
    Spec.changesOrdered
      (flat_map (fun g => Spec.gapChange an (fst g) (snd g))
         (Spec.gaps oldBlocks newBlocks (current :: anchors)))
      loOld loNew oldLength newLength.
Proof.
  induction anchors as [|next rest IH];
    intros current loOld loNew hiOld hiNew Hco Hcn Hchain Hob Hnb.
  { simpl. split; eapply blocksOrdered_bounds; eassumption. }
  destruct Hchain as (Ho & Hn & Hchain).
  cbn [Spec.gaps flat_map fst snd].
  rewrite !slice_firstn_skipn by lia.
  set (So := skipn (Z.to_nat (HtmlDiff.oldIndex current + 1)) oldBlocks) in *.
  set (Sn := skipn (Z.to_nat (HtmlDiff.newIndex current + 1)) newBlocks) in *.
  set (no := Z.to_nat (HtmlDiff.oldIndex next - (HtmlDiff.oldIndex current + 1))).
  set (nn := Z.to_nat (HtmlDiff.newIndex next - (HtmlDiff.newIndex current + 1))).
  assert (Eo : skipn (Z.to_nat (HtmlDiff.oldIndex next + 1)) oldBlocks
               = skipn 1 (skipn no So)).
  { subst So no. rewrite !skipn_skipn. f_equal. lia. }
  assert (En : skipn (Z.to_nat (HtmlDiff.newIndex next + 1)) newBlocks
               = skipn 1 (skipn nn Sn)).
  { subst Sn nn. rewrite !skipn_skipn. f_equal. lia. }
  assert (Hrest : forall lo lo',
             Spec.blocksOrdered (skipn 1 (skipn no So)) lo oldLength ->
             Spec.blocksOrdered (skipn 1 (skipn nn Sn)) lo' newLength ->
             Spec.changesOrdered
               (flat_map (fun g => Spec.gapChange an (fst g) (snd g))
                  (Spec.gaps oldBlocks newBlocks (next :: rest)))
               lo lo' oldLength newLength).
  { intros lo lo' H1 H2. apply (IH next lo lo' hiOld hiNew); try lia; trivial.
    - now rewrite Eo.
    - now rewrite En. }
  assert (Hsame : Spec.changesOrdered
                    (flat_map (fun g => Spec.gapChange an (fst g) (snd g))
                       (Spec.gaps oldBlocks newBlocks (next :: rest)))
                    loOld loNew oldLength newLength).
  { apply Hrest; apply blocksOrdered_skipn, blocksOrdered_skipn; assumption. }
  unfold Spec.gapChange.
  destruct (firstn no So) as [|ob ro] eqn:Fo; [exact Hsame|].
  destruct (firstn nn Sn) as [|nb rn] eqn:Fn; [exact Hsame|].
  destruct (Spec.sameTypes an _ _); [exact Hsame|].
  destruct (blocksOrdered_firstn no So loOld oldLength ob ro Hob Fo)
    as (O1 & O2 & O3 & O4).
  destruct (blocksOrdered_firstn nn Sn loNew newLength nb rn Hnb Fn)
    as (N1 & N2 & N3 & N4).
  cbn [app Spec.changesOrdered HtmlDiff.oldStart HtmlDiff.oldEnd
       HtmlDiff.newStart HtmlDiff.newEnd].
  split; [lia|]. split; [lia|]. split; [lia|]. split; [lia|].
  apply Hrest; apply blocksOrdered_skipn; assumption.
Qed.

End ChangesOrdered.

(* ------------------------------------------------------------------ *)
(** ** The segments of [diffWithBlockTypeChanges] *)

Lemma chain_snoc (l : list HtmlDiff.Anchor) (a b hiOld hiNew : Z) :
  a <= hiOld -> b <= hiNew -> Spec.chain l a b hiOld hiNew ->
  Spec.chain (l ++ [{| HtmlDiff.oldIndex := hiOld; HtmlDiff.newIndex := hiNew |}])
    a b (hiOld + 1) (hiNew + 1).
Proof.
  revert a b. induction l as [|x l IH]; intros a b Ha Hb H.
  - simpl. repeat split; lia.
  - destruct H as (H1 & H2 & H3). simpl. repeat split; try lia.
    apply IH; [lia|lia|exact H3].
Qed.

Lemma segments_tiles (changes : list HtmlDiff.Change) :
  forall oldPos newPos oldLength newLength,
    Spec.changesOrdered changes oldPos newPos oldLength newLength ->
    Spec.tiles (map Spec.segmentRange
                  (Spec.segments changes oldPos newPos oldLength newLength))
      oldPos newPos oldLength newLength.
Proof.
  induction changes as [|c changes IH]; intros oldPos newPos oldLength newLength H.
  - simpl in *. repeat split; lia.
  - destruct H as (H1 & H2 & H3 & H4 & H5).
    cbn [Spec.segments map Spec.tiles Spec.segmentRange Operation.startInOld
         Operation.startInNew Operation.endInOld Operation.endInNew
         Spec.oldFrom Spec.oldTo Spec.newFrom Spec.newTo].
    repeat split; try lia. now apply IH.
Qed.

(** A stretch with a token is written by [diffWordRanges], which returns
    the word-level diff of the two joined texts; a stretch without a token
    is not written. *)
Lemma diffWordRanges_wordDiff (subDiff : string -> string -> option string)
    (oldPart newPart : list string) :
  (Js.len oldPart >? 0) || (Js.len newPart >? 0) = true ->
  HtmlDiff.diffWordRanges subDiff oldPart newPart
  = Spec.wordDiff subDiff (Js.join oldPart) (Js.join newPart).
Proof.
  intros H. unfold HtmlDiff.diffWordRanges, Spec.wordDiff.
  destruct ((Js.len oldPart =? 0) && (Js.len newPart =? 0)) eqn:E; [|reflexivity].
  apply andb_true_iff in E. destruct E as [E1 E2].
  apply Z.eqb_eq in E1, E2. rewrite E1, E2 in H. discriminate.
Qed.

Lemma piece_guard {A} (oldPart newPart : list string) (x : A) (y : A) :
  match oldPart, newPart with
  | [], [] => y
  | _, _ => x
  end
  = if (Js.len oldPart >? 0) || (Js.len newPart >? 0) then x else y.
Proof.
  destruct oldPart as [|a oldPart].
  - destruct newPart as [|b newPart]; [reflexivity|].
    rewrite len_cons. pose proof (len_nonneg newPart).
    destruct (Z.gtb_spec (1 + Js.len newPart) 0); [reflexivity|lia].
  - rewrite len_cons. pose proof (len_nonneg oldPart).
    destruct (Z.gtb_spec (1 + Js.len oldPart) 0); [reflexivity|lia].
Qed.

Section Segments.

Variable BlockExpression : Type.
Variable subDiff : string -> string -> option string.
Variable this : HtmlDiff.t BlockExpression.

#[local] Abbreviation oldWords := (HtmlDiff.oldWords BlockExpression this).
#[local] Abbreviation newWords := (HtmlDiff.newWords BlockExpression this).

#[local] Abbreviation finish := (Spec.finishBlockChanges subDiff oldWords newWords).

Lemma blockChangesLoop_segments (changes : list HtmlDiff.Change) :
  forall oldPos newPos result,
    0 <= oldPos -> 0 <= newPos ->
    Spec.changesOrdered changes oldPos newPos (Js.len oldWords) (Js.len newWords) ->
    finish (HtmlDiff.blockChangesLoop _ subDiff this changes oldPos newPos result)
    = match Spec.renderSegments subDiff oldWords newWords
              (Spec.segments changes oldPos newPos
                 (Js.len oldWords) (Js.len newWords)) with
      | Some pieces => Some (Js.join (result ++ pieces))
      | None => None
      end.
Proof.
  induction changes as [|c changes IH]; intros oldPos newPos result Ho Hn Hord.
  - cbn [HtmlDiff.blockChangesLoop Spec.finishBlockChanges Spec.segments
         Spec.renderSegments].
    unfold Spec.renderSegment.
    cbn [Spec.isBlock Spec.oldFrom Spec.oldTo Spec.newFrom Spec.newTo].
    rewrite piece_guard.
    unfold Js.sliceFrom.
    destruct ((oldPos <? Js.len oldWords) || (newPos <? Js.len newWords)) eqn:G.
    + destruct ((Js.len (Js.slice oldWords oldPos (Js.len oldWords)) >? 0)
                || (Js.len (Js.slice newWords newPos (Js.len newWords)) >? 0))
        eqn:G'; [|cbn [app]; rewrite ?app_nil_r; reflexivity].
      rewrite (diffWordRanges_wordDiff _ _ _ G').
      destruct (Spec.wordDiff _ _ _); [|reflexivity].
      cbn [app]. reflexivity.
    + apply orb_false_iff in G. destruct G as [G1 G2].
      apply Z.ltb_ge in G1, G2.
      pose proof (len_nonneg oldWords). pose proof (len_nonneg newWords).
      rewrite !slice_empty by lia. cbn. rewrite ?app_nil_r. reflexivity.
  - destruct Hord as (H1 & H2 & H3 & H4 & H5).
    cbn [HtmlDiff.blockChangesLoop Spec.segments Spec.renderSegments].
    unfold Spec.renderSegment at 1.
    cbn [Spec.isBlock Spec.oldFrom Spec.oldTo Spec.newFrom Spec.newTo].
    rewrite piece_guard.
    set (beforeOld := Js.slice oldWords oldPos (HtmlDiff.oldStart c)).
    set (beforeNew := Js.slice newWords newPos (HtmlDiff.newStart c)).
    assert (Hguard :
              (if (oldPos <? HtmlDiff.oldStart c) || (newPos <? HtmlDiff.newStart c)
               then
                 if (Js.len beforeOld >? 0) || (Js.len beforeNew >? 0)
                 then
                   match HtmlDiff.diffWordRanges subDiff beforeOld beforeNew with
                   | Some beforeDiff => Some (result ++ [beforeDiff])
                   | None => None
                   end
                 else Some result
               else Some result)
              = if (Js.len beforeOld >? 0) || (Js.len beforeNew >? 0)
                then
                  match Spec.wordDiff subDiff (Js.join beforeOld)
                          (Js.join beforeNew) with
                  | Some beforeDiff => Some (result ++ [beforeDiff])
                  | None => None
                  end
                else Some result).
    { destruct ((oldPos <? HtmlDiff.oldStart c) || (newPos <? HtmlDiff.newStart c))
        eqn:G.
      - destruct ((Js.len beforeOld >? 0) || (Js.len beforeNew >? 0)) eqn:G';
          [|reflexivity].
        now rewrite (diffWordRanges_wordDiff _ _ _ G').
      - apply orb_false_iff in G. destruct G as [G1 G2]. apply Z.ltb_ge in G1, G2.
        subst beforeOld beforeNew. rewrite !slice_empty by lia. reflexivity. }
    rewrite Hguard. clear Hguard.
    change (HtmlDiff.marker "del" "diffdel") with (Spec.element "del" "diffdel").
    change (HtmlDiff.marker "ins" "diffins") with (Spec.element "ins" "diffins").
    destruct ((Js.len beforeOld >? 0) || (Js.len beforeNew >? 0)).
    + destruct (Spec.wordDiff subDiff (Js.join beforeOld) (Js.join beforeNew))
        as [d|]; [|reflexivity].
      rewrite IH by (trivial; lia).
      unfold Spec.renderSegment at 1. cbn [Spec.isBlock Spec.oldFrom Spec.oldTo
                                           Spec.newFrom Spec.newTo].
      destruct (Spec.renderSegments _ _ _ _); [|reflexivity].
      f_equal. f_equal. rewrite <- !app_assoc. reflexivity.
    + rewrite IH by (trivial; lia).
      unfold Spec.renderSegment at 1. cbn [Spec.isBlock Spec.oldFrom Spec.oldTo
                                           Spec.newFrom Spec.newTo].
      destruct (Spec.renderSegments _ _ _ _); [|reflexivity].
      f_equal. f_equal. rewrite <- !app_assoc. reflexivity.
Qed.

(** The output of [diffWithBlockTypeChanges] is its segments, in order. *)
Lemma diffWithBlockTypeChanges_segments (changes : list HtmlDiff.Change) :
  Spec.changesOrdered changes 0 0 (Js.len oldWords) (Js.len newWords) ->
  HtmlDiff.diffWithBlockTypeChanges _ subDiff this changes
  = option_map Js.join
      (Spec.renderSegments subDiff oldWords newWords
         (Spec.segments changes 0 0 (Js.len oldWords) (Js.len newWords))).
Proof.
  intros Hord.
  pose proof (blockChangesLoop_segments changes 0 0 [] ltac:(lia) ltac:(lia) Hord)
    as H.
  unfold Spec.finishBlockChanges in H. unfold HtmlDiff.diffWithBlockTypeChanges.
  destruct (HtmlDiff.blockChangesLoop _ subDiff this changes 0 0 [])
    as [[[result oldPos] newPos]|]; rewrite H;
    destruct (Spec.renderSegments _ _ _ _); reflexivity.
Qed.

End Segments.

(** The loop of [matchBlocksByTypeSimilarity] ends within its fuel: more
    fuel does not change what it returns. *)
Lemma backtrack_fuel (score : Z -> Z -> Z) (dp : list (list Z))
    (oldCount newCount : Z) (fuel : nat) :
  forall fuel' i j acc,
    0 <= i -> 0 <= j ->
    (Z.to_nat (oldCount - i) + Z.to_nat (newCount - j) <= fuel)%nat ->
    (fuel <= fuel')%nat ->
    HtmlDiff.backtrack fuel score dp oldCount newCount i j acc
    = HtmlDiff.backtrack fuel' score dp oldCount newCount i j acc.
Proof.
  induction fuel as [|fuel IH]; intros fuel' i j acc Hi Hj Hf Hle.
  - destruct fuel' as [|fuel']; [reflexivity|]. cbn [HtmlDiff.backtrack].
    destruct (Z.ltb_spec i oldCount); [|reflexivity].
    destruct (Z.ltb_spec j newCount); [|reflexivity]. lia.
  - destruct fuel' as [|fuel']; [lia|]. cbn [HtmlDiff.backtrack].
    destruct (Z.ltb_spec i oldCount); [|reflexivity].
    destruct (Z.ltb_spec j newCount); [|reflexivity]. cbn [andb].
    destruct (_ && _); [apply IH; lia|].
    destruct (_ >=? _); apply IH; lia.
Qed.

Section BlockLayer.

Variable BlockExpression : Type.
Variable this : HtmlDiff.t BlockExpression.
Variable an : BlockAnalyzer.t.
Hypothesis Han : HtmlDiff.blockAnalyzer _ this = Some an.

#[local] Abbreviation oldWords := (HtmlDiff.oldWords BlockExpression this).
#[local] Abbreviation newWords := (HtmlDiff.newWords BlockExpression this).
#[local] Abbreviation oldBlocks := (HtmlDiff.oldBlocks BlockExpression this).
#[local] Abbreviation newBlocks := (HtmlDiff.newBlocks BlockExpression this).

Lemma anchors_chain :
  Spec.chain (HtmlDiff.matchBlocksByTypeSimilarity _ this) 0 0
    (Js.len oldBlocks) (Js.len newBlocks).
Proof.
  unfold HtmlDiff.matchBlocksByTypeSimilarity. rewrite Han. apply backtrack_chain.
Qed.

Lemma detect_gaps :
  HtmlDiff.detectBlockTypeChanges _ this
  = flat_map (fun g => Spec.gapChange an (fst g) (snd g))
      (Spec.gaps oldBlocks newBlocks (Spec.anchored this)).
Proof.
  unfold HtmlDiff.detectBlockTypeChanges. rewrite Han. apply detectLoop_gaps.
Qed.

Hypothesis Hold : oldBlocks = BlockAnalyzer.findBlocks an oldWords.
Hypothesis Hnew : newBlocks = BlockAnalyzer.findBlocks an newWords.

Lemma detect_ordered :
  Spec.changesOrdered (HtmlDiff.detectBlockTypeChanges _ this) 0 0
    (Js.len oldWords) (Js.len newWords).
Proof.
  rewrite detect_gaps. unfold Spec.anchored.
  apply (gaps_changes_ordered an oldBlocks newBlocks (Js.len oldWords)
           (Js.len newWords) _
           {| HtmlDiff.oldIndex := -1; HtmlDiff.newIndex := -1 |}
           0 0 (Js.len oldBlocks + 1) (Js.len newBlocks + 1));
    cbn [HtmlDiff.oldIndex HtmlDiff.newIndex]; try lia.
  - apply chain_snoc; [apply len_nonneg|apply len_nonneg|apply anchors_chain].
  - simpl. rewrite Hold. apply findBlocks_ordered.
  - simpl. rewrite Hnew. apply findBlocks_ordered.
Qed.

(** C9. The anchors of [matchBlocksByTypeSimilarity] increase strictly on
    the old and on the new axis.  With the blocks that [findBlocks] reports,
    the change ranges of [detectBlockTypeChanges] are in ascending order and
    disjoint on both token axes, and [diffWithBlockTypeChanges] writes its
    output segment by segment: before each change range the word-level diff
    of the tokens since the range before, the range itself as one [del]
    element of class [diffdel] and one [ins] element of class [diffins], and
    the word-level diff of the tokens after the last range.  The segments
    follow one another from [(0, 0)] to the two lengths, so every old token
    index and every new token index lies in exactly one of them. *)
Theorem block_alignment_partitions :
  let anchors := HtmlDiff.matchBlocksByTypeSimilarity _ this in
  let changes := HtmlDiff.detectBlockTypeChanges _ this in
  let segs := Spec.segments changes 0 0 (Js.len oldWords) (Js.len newWords) in
  Spec.chain anchors 0 0 (Js.len oldBlocks) (Js.len newBlocks)
  /\ Spec.changesOrdered changes 0 0 (Js.len oldWords) (Js.len newWords)
  /\ (forall subDiff,
        HtmlDiff.diffWithBlockTypeChanges _ subDiff this changes
        = option_map Js.join (Spec.renderSegments subDiff oldWords newWords segs))
  /\ Spec.tiles (map Spec.segmentRange segs) 0 0
       (Js.len oldWords) (Js.len newWords)
  /\ (forall i, 0 <= i < Js.len oldWords ->
        List.length (filter (Spec.coversOld i) (map Spec.segmentRange segs)) = 1%nat)
  /\ (forall j, 0 <= j < Js.len newWords ->
        List.length (filter (Spec.coversNew j) (map Spec.segmentRange segs)) = 1%nat).
Proof.
  intros anchors changes segs.
  pose proof detect_ordered as Hord. fold changes in Hord.
  pose proof (segments_tiles _ _ _ _ _ Hord) as Htiles. fold segs in Htiles.
  split; [apply anchors_chain|]. split; [exact Hord|]. split.
  { intros subDiff. now apply diffWithBlockTypeChanges_segments. }
  split; [exact Htiles|]. split.
  - intros i Hi. eapply tiles_cover_old; [exact Htiles|lia].
  - intros j Hj. eapply tiles_cover_new; [exact Htiles|lia].
Qed.

(** C4, amended. Between two consecutive anchors, the sentinels included, a
    gap gets a change range exactly when it has at least one block on each
    side and the two sides differ in their count of blocks or in the type of
    some pair; a gap with no block on one side, like a gap whose sides have
    the same types, gets none and is left to the word-level diff.  A change
    range runs from the first token of the first block of the gap to the
    last token of its last block, on each side, and is written as one
    [del] element of class [diffdel] around all the old tokens of the range
    and one [ins] element of class [diffins] around all the new ones. *)
Theorem detectBlockTypeChanges_gap_rule :
  let changes := HtmlDiff.detectBlockTypeChanges _ this in
  changes
  = flat_map (fun g => Spec.gapChange an (fst g) (snd g))
      (Spec.gaps oldBlocks newBlocks (Spec.anchored this))
  /\ forall subDiff,
       HtmlDiff.diffWithBlockTypeChanges _ subDiff this changes
       = option_map Js.join
           (Spec.renderSegments subDiff oldWords newWords
              (Spec.segments changes 0 0 (Js.len oldWords) (Js.len newWords))).
Proof.
  intros changes. split; [apply detect_gaps|].
  intros subDiff. apply diffWithBlockTypeChanges_segments. apply detect_ordered.
Qed.

End BlockLayer.

(** Two documents with two headings each, a list after each heading of the
    old one and a paragraph after each heading of the new one, the second
    heading reworded.  The headings are the anchors, the two lists
    are the change ranges, and the output has five stretches: the first
    heading as it is, the first list and paragraph as blocks, the nested diff
    of the second heading, the second list and paragraph as blocks. *)
Lemma block_alignment_partitions_witness :
  let oldHtml := "<h2>A</h2><ul><li>x</li></ul><h2>B</h2><ul><li>y</li></ul>"%string in
  let newHtml := "<h2>A</h2><p>x</p><h2>C</h2><p>y</p>"%string in
  let this := Spec.alignState (Spec.tokens oldHtml) (Spec.tokens newHtml)
                Spec.blockDiffOn in
  let anchors := HtmlDiff.matchBlocksByTypeSimilarity _ this in
  let changes := HtmlDiff.detectBlockTypeChanges _ this in
  let nested := fun oldText newText =>
    HtmlDiff.diff Empty_set WordSplitter.convertHtmlToListOfWords
      MatchFinder.findMatch (HtmlDiff.constructor _ oldText newText None) in
  anchors = [{| HtmlDiff.oldIndex := 0; HtmlDiff.newIndex := 0 |};
             {| HtmlDiff.oldIndex := 2; HtmlDiff.newIndex := 2 |}]
  /\ Spec.chain anchors 0 0 4 4
  /\ changes = [{| HtmlDiff.oldStart := 3; HtmlDiff.oldEnd := 7;
                   HtmlDiff.newStart := 3; HtmlDiff.newEnd := 5 |};
                {| HtmlDiff.oldStart := 11; HtmlDiff.oldEnd := 15;
                   HtmlDiff.newStart := 9; HtmlDiff.newEnd := 11 |}]
  /\ Spec.changesOrdered changes 0 0 16 12
  /\ HtmlDiff.diffWithBlockTypeChanges _ nested this changes
     = Some ("<h2>A</h2>"
             ++ "<del class=" ++ Js.dq ++ "diffdel" ++ Js.dq ++ ">"
             ++ "<ul><li>x</li></ul>" ++ "</del>"
             ++ "<ins class=" ++ Js.dq ++ "diffins" ++ Js.dq ++ ">"
             ++ "<p>x</p>" ++ "</ins>"
             ++ "<h2>"
             ++ "<del class=" ++ Js.dq ++ "diffmod" ++ Js.dq ++ ">B</del>"
             ++ "<ins class=" ++ Js.dq ++ "diffmod" ++ Js.dq ++ ">C</ins>"
             ++ "</h2>"
             ++ "<del class=" ++ Js.dq ++ "diffdel" ++ Js.dq ++ ">"
             ++ "<ul><li>y</li></ul>" ++ "</del>"
             ++ "<ins class=" ++ Js.dq ++ "diffins" ++ Js.dq ++ ">"
             ++ "<p>y</p>" ++ "</ins>")%string.
Proof.
  cbv zeta.
  destruct (block_alignment_partitions Empty_set
              (Spec.alignState
                 (Spec.tokens "<h2>A</h2><ul><li>x</li></ul><h2>B</h2><ul><li>y</li></ul>")
                 (Spec.tokens "<h2>A</h2><p>x</p><h2>C</h2><p>y</p>")
                 Spec.blockDiffOn)
              (BlockAnalyzer.constructor (Some Spec.blockDiffOn))
              eq_refl eq_refl eq_refl) as (Hchain & Hord & Hrender & _).
  split; [vm_compute; reflexivity|]. split; [exact Hchain|].
  split; [vm_compute; reflexivity|]. split; [exact Hord|].
  refine (eq_trans (Hrender _) _). vm_compute. reflexivity.
Defined.

(** A heading that stays and a list that becomes a paragraph: the gap after
    the heading has one block on each side, of different types, and is
    written as one deleted and one inserted block. *)
Lemma detectBlockTypeChanges_gap_rule_witness :
  let this :=
    Spec.alignState (Spec.tokens "<h2>A</h2><ul><li>a</li></ul>")
      (Spec.tokens "<h2>A</h2><p>a</p>") Spec.blockDiffOn in
  HtmlDiff.detectBlockTypeChanges _ this
  = [{| HtmlDiff.oldStart := 3; HtmlDiff.oldEnd := 7;
        HtmlDiff.newStart := 3; HtmlDiff.newEnd := 5 |}]
  /\ forall subDiff,
       HtmlDiff.diffWithBlockTypeChanges _ subDiff this
         (HtmlDiff.detectBlockTypeChanges _ this)
       = Some ("<h2>A</h2>"
               ++ "<del class=" ++ Js.dq ++ "diffdel" ++ Js.dq ++ ">"
               ++ "<ul><li>a</li></ul>" ++ "</del>"
               ++ "<ins class=" ++ Js.dq ++ "diffins" ++ Js.dq ++ ">"
               ++ "<p>a</p>" ++ "</ins>")%string.
Proof.
  cbv zeta.
  destruct (detectBlockTypeChanges_gap_rule Empty_set
              (Spec.alignState (Spec.tokens "<h2>A</h2><ul><li>a</li></ul>")
                 (Spec.tokens "<h2>A</h2><p>a</p>") Spec.blockDiffOn)
              (BlockAnalyzer.constructor (Some Spec.blockDiffOn))
              eq_refl eq_refl eq_refl) as (Hgaps & Hrender).
  split.
  - refine (eq_trans Hgaps _). vm_compute. reflexivity.
  - intros subDiff. refine (eq_trans (Hrender subDiff) _).
    vm_compute. reflexivity.
Defined.

(** C4, as stated, fails.  A list is inserted between a heading and a
    paragraph that stay.  The anchors pair the heading with the heading
    and the paragraph with the paragraph; the gap between them has no
    block on the old side and the list on the new side.  The two sides
    differ in count, so the claim has the gap written as one deleted and
    one inserted block; the code skips a gap with an empty side: it reports
    no change range and the output is the word-level diff. *)
Lemma detectBlockTypeChanges_gap_rule_counterexample :
  let oldHtml := "<h2>A</h2><p>b</p>"%string in
  let newHtml := "<h2>A</h2><ul><li>x</li></ul><p>b</p>"%string in
  let this := Spec.alignState (Spec.tokens oldHtml) (Spec.tokens newHtml)
                Spec.blockDiffOn in
  let ul := {| BlockAnalyzer.tagName := "ul"; BlockAnalyzer.startIndex := 3;
               BlockAnalyzer.endIndex := 7; BlockAnalyzer.depth := 0 |} in
  Spec.gaps (HtmlDiff.oldBlocks _ this) (HtmlDiff.newBlocks _ this)
    (Spec.anchored this)
  = [([], []); ([], [ul]); ([], [])]
  /\ Spec.gapReplacedOfSpec (BlockAnalyzer.constructor (Some Spec.blockDiffOn))
       [] [ul] = true
  /\ HtmlDiff.detectBlockTypeChanges _ this = []
  /\ diffModel oldHtml newHtml Spec.blockDiffEnabled
     = Some ("<h2>A</h2><ul><li>"
             ++ "<ins class=" ++ Js.dq ++ "diffins" ++ Js.dq ++ ">x</ins>"
             ++ "</li></ul><p>b</p>")%string.
Proof. vm_compute. repeat split. Qed.

(* ------------------------------------------------------------------ *)
(** ** The table of the weighted alignment *)

Section Table.

Variable score : Z -> Z -> Z.
Variables oldCount newCount : nat.

#[local] Abbreviation cellStep := Spec.cellStep.
#[local] Abbreviation rowFrom := Spec.rowFrom.

Lemma dpRow_rowFrom (s : Z -> Z) (below : list Z) :
  HtmlDiff.dpRow s newCount below = rowFrom s below 0 newCount.
Proof. reflexivity. Qed.

Lemma rowFrom_nth (s : Z -> Z) (below : list Z) (n : nat) :
  forall k j, (j <= n)%nat ->
    nth j (rowFrom s below k n) 0 = hd 0 (rowFrom s below (k + j) (n - j)).
Proof.
  induction n as [|n IH]; intros k j Hj.
  - replace j with 0%nat by lia. now rewrite Nat.add_0_r.
  - destruct j as [|j].
    + now rewrite Nat.add_0_r, Nat.sub_0_r.
    + unfold Spec.rowFrom. cbn [seq fold_right]. unfold Spec.cellStep at 1. cbn [nth].
      fold (rowFrom s below (S k) n). rewrite IH by lia.
      now replace (k + S j)%nat with (S k + j)%nat by lia.
Qed.

(** The cells of one row. *)
Lemma dpRow_cell (s : Z -> Z) (below : list Z) (j : nat) :
  (j < newCount)%nat ->
  nth j (HtmlDiff.dpRow s newCount below) 0
  = Z.max (Z.max (nth j below 0) (nth (S j) (HtmlDiff.dpRow s newCount below) 0))
      (if s (Z.of_nat j) >? 0 then nth (S j) below 0 + s (Z.of_nat j) else 0).
Proof.
  intros Hj. rewrite dpRow_rowFrom, !rowFrom_nth by lia. simpl Nat.add.
  replace (newCount - j)%nat with (S (newCount - S j)) by lia.
  unfold Spec.rowFrom at 1. cbn [seq fold_right]. unfold Spec.cellStep at 1. cbn [hd].
  reflexivity.
Qed.

Lemma dpRow_last (s : Z -> Z) (below : list Z) :
  nth newCount (HtmlDiff.dpRow s newCount below) 0 = 0.
Proof.
  rewrite dpRow_rowFrom, rowFrom_nth by lia. now rewrite Nat.sub_diag.
Qed.

#[local] Abbreviation rowStep := (Spec.rowStep score newCount).
#[local] Abbreviation tableFrom := (Spec.tableFrom score newCount).

Lemma tableFrom_nth (n : nat) :
  forall k i, (i <= n)%nat ->
    nth i (tableFrom k n) [] = hd [] (tableFrom (k + i) (n - i)).
Proof.
  induction n as [|n IH]; intros k i Hi.
  - replace i with 0%nat by lia. now rewrite Nat.add_0_r.
  - destruct i as [|i].
    + now rewrite Nat.add_0_r, Nat.sub_0_r.
    + unfold Spec.tableFrom. cbn [seq fold_right]. unfold Spec.rowStep at 1. cbn [nth].
      fold (tableFrom (S k) n). rewrite IH by lia.
      now replace (k + S i)%nat with (S k + i)%nat by lia.
Qed.

#[local] Abbreviation dp := (HtmlDiff.dpTable score oldCount newCount).

Lemma dpTable_row (i : nat) :
  (i < oldCount)%nat ->
  nth i dp [] = HtmlDiff.dpRow (score (Z.of_nat i)) newCount (nth (S i) dp []).
Proof.
  intros Hi. change dp with (tableFrom 0 oldCount).
  rewrite !tableFrom_nth by lia. simpl Nat.add.
  replace (oldCount - i)%nat with (S (oldCount - S i)) by lia.
  unfold Spec.tableFrom at 1. cbn [seq fold_right]. unfold Spec.rowStep at 1. cbn [hd].
  reflexivity.
Qed.

Lemma dpTable_last_row : nth oldCount dp [] = repeat 0 (S newCount).
Proof.
  change dp with (tableFrom 0 oldCount).
  rewrite tableFrom_nth by lia. now rewrite Nat.sub_diag.
Qed.

(** The recurrence that the two loops fill the table with. *)
Lemma cell_recurrence (i j : Z) :
  0 <= i < Z.of_nat oldCount -> 0 <= j < Z.of_nat newCount ->
  HtmlDiff.cell dp i j
  = Z.max (Z.max (HtmlDiff.cell dp (i + 1) j) (HtmlDiff.cell dp i (j + 1)))
      (if score i j >? 0 then HtmlDiff.cell dp (i + 1) (j + 1) + score i j else 0).
Proof.
  intros Hi Hj. unfold HtmlDiff.cell.
  replace (Z.to_nat (i + 1)) with (S (Z.to_nat i)) by lia.
  replace (Z.to_nat (j + 1)) with (S (Z.to_nat j)) by lia.
  rewrite (dpTable_row (Z.to_nat i)) by lia.
  rewrite dpRow_cell by lia.
  now rewrite !Z2Nat.id by lia.
Qed.

Lemma cell_last_row (j : Z) : HtmlDiff.cell dp (Z.of_nat oldCount) j = 0.
Proof.
  unfold HtmlDiff.cell. rewrite Nat2Z.id, dpTable_last_row.
  apply nth_repeat.
Qed.

Lemma cell_last_column (i : Z) :
  0 <= i <= Z.of_nat oldCount -> HtmlDiff.cell dp i (Z.of_nat newCount) = 0.
Proof.
  intros Hi. destruct (Z.eq_dec i (Z.of_nat oldCount)) as [->|Hne].
  - apply cell_last_row.
  - unfold HtmlDiff.cell. rewrite Nat2Z.id.
    rewrite (dpTable_row (Z.to_nat i)) by lia. apply dpRow_last.
Qed.

End Table.

(* ------------------------------------------------------------------ *)
(** ** Blocks inserted between blocks that stay *)







Section Inserted.

Variable BlockExpression : Type.
Variable this : HtmlDiff.t BlockExpression.
Variable an : BlockAnalyzer.t.
Hypothesis Han : HtmlDiff.blockAnalyzer _ this = Some an.

#[local] Abbreviation oldWords := (HtmlDiff.oldWords BlockExpression this).
#[local] Abbreviation newWords := (HtmlDiff.newWords BlockExpression this).
#[local] Abbreviation oldBlocks := (HtmlDiff.oldBlocks BlockExpression this).
#[local] Abbreviation newBlocks := (HtmlDiff.newBlocks BlockExpression this).
#[local] Abbreviation score := (HtmlDiff.scoreForMatch BlockExpression this).



#[local] Abbreviation oldCount := (List.length oldBlocks).
#[local] Abbreviation newCount := (List.length newBlocks).
#[local] Abbreviation dp := (HtmlDiff.dpTable score oldCount newCount).
#[local] Abbreviation D := (HtmlDiff.cell dp).








End Inserted.

(* ------------------------------------------------------------------ *)
(** ** The exact scenario *)

(** C3. On the inputs of the exact scenario, with block-aware diffing
    enabled, the engine returns the output of the scenario: the heading
    unchanged, the whole list inside one [del] element of class [diffdel],
    the paragraph that replaces it inside one [ins] element of class
    [diffins], and the last paragraph diffed word by word, with a [del] and
    an [ins] element of class [diffmod] around the one word that differs. *)
Theorem exact_scenario :
  diffModel
    "<h2>Objective</h2><ul><li>Blood pressure 118/76 mmHg; heart rate 72 bpm.</li><li>Neurologic exam: Pupils equal and reactive.</li></ul><p>Ensure adequate hydulation.</p>"
    "<h2>Objective</h2><p>Blood pressure 118/76 mmHg; heart rate 72 bpm. Neurologic exam: Pupils equal and reactive.</p><p>Ensure adequate hydration.</p>"
    Spec.blockDiffEnabled
  = Some ("<h2>Objective</h2>"
          ++ "<del class=" ++ Js.dq ++ "diffdel" ++ Js.dq ++ ">"
          ++ "<ul><li>Blood pressure 118/76 mmHg; heart rate 72 bpm.</li><li>Neurologic exam: Pupils equal and reactive.</li></ul>"
          ++ "</del>"
          ++ "<ins class=" ++ Js.dq ++ "diffins" ++ Js.dq ++ ">"
          ++ "<p>Blood pressure 118/76 mmHg; heart rate 72 bpm. Neurologic exam: Pupils equal and reactive.</p>"
          ++ "</ins>"
          ++ "<p>Ensure adequate "
          ++ "<del class=" ++ Js.dq ++ "diffmod" ++ Js.dq ++ ">hydulation</del>"
          ++ "<ins class=" ++ Js.dq ++ "diffmod" ++ Js.dq ++ ">hydration</ins>"
          ++ ".</p>")%string.
Proof. vm_compute. reflexivity. Qed.

(* ------------------------------------------------------------------ *)
(** * Further properties *)

(* ------------------------------------------------------------------ *)
(** ** Tag names and attribute stripping *)

(** Lower case on code units: [A] and [Z], the capital letters of Latin-1
    from 192 to 222 but for the multiplication sign, and nothing else. *)
Lemma toLowerChar_code_units :
  map (fun n => nat_of_ascii (Utils.toLowerChar (ascii_of_nat n)))
    [64; 65; 90; 91; 191; 192; 214; 215; 216; 222; 223; 255]%nat
  = [64; 97; 122; 91; 191; 224; 246; 215; 248; 254; 223; 255]%nat.
Proof. reflexivity. Qed.

Lemma toLowerChar_letter (c : ascii) :
  Utils.isLetter c = true ->
  Utils.isLetter (Utils.toLowerChar c) = true
  /\ Utils.toLowerChar (Utils.toLowerChar c) = Utils.toLowerChar c.
Proof.
  destruct c as [[] [] [] [] [] [] [] []]; intros H; try discriminate H;
    split; reflexivity.
Qed.

Lemma toLowerChar_digit (c : ascii) :
  Utils.isDigit c = true -> Utils.toLowerChar c = c.
Proof.
  destruct c as [[] [] [] [] [] [] [] []]; intros H; try discriminate H;
    reflexivity.
Qed.

(** The characters of a string. *)
Lemma alnumRun_chars (s : string) :
  Forall (fun c => Utils.isLetter c || Utils.isDigit c = true)
    (list_ascii_of_string (Utils.alnumRun s)).
Proof.
  induction s as [|c s IH]; [constructor|]. cbn [Utils.alnumRun].
  destruct (Utils.isLetter c || Utils.isDigit c) eqn:E; [|constructor].
  cbn [list_ascii_of_string]. constructor; assumption.
Qed.

Lemma toLowerCase_chars (s : string) :
  Forall (fun c => Utils.isLetter c || Utils.isDigit c = true)
    (list_ascii_of_string s) ->
  Forall (fun c => Utils.isLetter c || Utils.isDigit c = true)
    (list_ascii_of_string (Utils.toLowerCase s))
  /\ Utils.toLowerCase (Utils.toLowerCase s) = Utils.toLowerCase s.
Proof.
  induction s as [|c s IH]; cbn [list_ascii_of_string Utils.toLowerCase];
    intros H; [split; [constructor|reflexivity]|].
  inversion H as [|? ? Hc Hs]; subst. destruct (IH Hs) as [IH1 IH2].
  apply orb_true_iff in Hc. destruct Hc as [Hc|Hc].
  - destruct (toLowerChar_letter c Hc) as [H1 H2]. split.
    + constructor; [now rewrite H1|exact IH1].
    + now rewrite H2, IH2.
  - rewrite (toLowerChar_digit c Hc). split.
    + constructor; [now rewrite Hc, orb_true_r|exact IH1].
    + now rewrite (toLowerChar_digit c Hc), IH2.
Qed.

(** X1. When [getTagName] returns a name, the tag starts with [<], and the
    name is not empty, is in lower case and is made of letters and digits
    only. *)
Theorem getTagName_shape (tag name : string)
    (H : Utils.getTagName tag = Some name) :
  Js.startsWith tag "<" = true
  /\ name <> ""
  /\ Utils.toLowerCase name = name
  /\ Forall (fun c => Utils.isLetter c || Utils.isDigit c = true)
       (list_ascii_of_string name).
Proof.
  unfold Utils.getTagName in H.
  destruct tag as [|c rest]; [discriminate|].
  destruct (Ascii.eqb_spec c "<") as [->|]; [|discriminate].
  split; [unfold Js.startsWith; cbn; destruct rest; reflexivity|].
  set (rest' := match rest with
                | String d r => if Ascii.eqb d "/" then r else rest
                | EmptyString => rest
                end) in H.
  destruct rest' as [|d r]; [discriminate|].
  destruct (Utils.isLetter d) eqn:Ed; [|discriminate].
  injection H as <-.
  pose proof (alnumRun_chars (String d r)) as Hrun.
  destruct (toLowerCase_chars _ Hrun) as [H1 H2].
  split; [|split; assumption].
  cbn [Utils.alnumRun]. rewrite Ed. discriminate.
Qed.

Lemma getTagName_shape_witness :
  Utils.getTagName "</DIV class='x'>" = Some "div"
  /\ Js.startsWith "</DIV class='x'>" "<" = true.
Proof.
  split; [reflexivity|].
  exact (proj1 (getTagName_shape "</DIV class='x'>" "div" eq_refl)).
Defined.

(** X2. A closing tag has the name of its opening tag: [getTagName] reads
    the same name after [</] as after [<], unless what follows is another
    slash, after which the closing form has no name. *)
Theorem getTagName_closing (s : string) :
  Utils.getTagName ("</" ++ s)
  = match s with
    | String "/" _ => None
    | _ => Utils.getTagName ("<" ++ s)
    end.
Proof.
  cbn [String.append Utils.getTagName]. 
  destruct s as [|c s]; [reflexivity|].
  change (Ascii.eqb "<" "<") with true. change (Ascii.eqb "/" "/") with true.
  cbv iota.
  destruct (Ascii.eqb_spec c "/") as [->|Hc].
  - reflexivity.
  - destruct c as [[] [] [] [] [] [] [] []]; reflexivity.
Qed.

Lemma substring_all (p : string) : String.substring 0 (String.length p) p = p.
Proof. induction p as [|c p IH]; simpl; [reflexivity|now rewrite IH]. Qed.

Lemma substring_suffix (a p : string) :
  String.substring (String.length a) (String.length p) (a ++ p)%string = p.
Proof. induction a as [|c a IH]; simpl; [apply substring_all|exact IH]. Qed.

Lemma length_append (a b : string) :
  String.length (a ++ b)%string = (String.length a + String.length b)%nat.
Proof. induction a as [|c a IH]; simpl; [reflexivity|now rewrite IH]. Qed.

Lemma endsWith_append (a p : string) : Js.endsWith (a ++ p)%string p = true.
Proof.
  unfold Js.endsWith. rewrite length_append.
  replace (String.length a + String.length p - String.length p)%nat
    with (String.length a) by lia.
  rewrite substring_suffix, String.eqb_refl.
  rewrite andb_true_r. apply Nat.leb_le. lia.
Qed.

Lemma space_not_alnum (c : ascii) :
  Utils.isSpace c || Ascii.eqb c ">" = true ->
  Utils.isLetter c || Utils.isDigit c = false.
Proof.
  destruct c as [[] [] [] [] [] [] [] []]; intros H; try discriminate H;
    reflexivity.
Qed.

Lemma tagWordRun_chars (s : string) :
  forallb (fun c => negb (Utils.isSpace c) && negb (Ascii.eqb c ">"))
    (list_ascii_of_string (Utils.tagWordRun s)) = true.
Proof.
  induction s as [|c s IH]; [reflexivity|]. cbn [Utils.tagWordRun].
  destruct (Utils.isSpace c || Ascii.eqb c ">") eqn:E; [reflexivity|].
  cbn [list_ascii_of_string forallb]. rewrite IH, andb_true_r.
  apply orb_false_iff in E. destruct E as [-> ->]. reflexivity.
Qed.

Lemma tagWordRegex_exec_shape (s t : string) :
  Utils.tagWordRegex_exec s = Some t ->
  exists run, t = String "<" run /\ run <> ""
    /\ forallb (fun c => negb (Utils.isSpace c) && negb (Ascii.eqb c ">"))
         (list_ascii_of_string run) = true.
Proof.
  induction s as [|c s IH]; [discriminate|]. cbn [Utils.tagWordRegex_exec].
  destruct (Ascii.eqb_spec c "<") as [->|Hc]; cbn [andb]; [|exact IH].
  destruct (String.eqb_spec (Utils.tagWordRun s) "") as [E|E]; cbn [negb];
    [exact IH|].
  intros [= <-]. exists (Utils.tagWordRun s).
  split; [reflexivity|]. split; [exact E|apply tagWordRun_chars].
Qed.

Lemma list_ascii_append (a b : string) :
  list_ascii_of_string (a ++ b)%string
  = list_ascii_of_string a ++ list_ascii_of_string b.
Proof. induction a as [|c a IH]; simpl; [reflexivity|now rewrite IH]. Qed.

(** X3. The result of [stripTagAttributes] has no white space, so no
    attribute, and ends with the [>] that closes the tag: its only [>]. *)
Theorem stripTagAttributes_shape (word : string) :
  let stripped := Utils.stripTagAttributes word in
  forallb (fun c => negb (Utils.isSpace c))
    (list_ascii_of_string stripped) = true
  /\ exists body,
       stripped = (body ++ ">")%string
       /\ forallb (fun c => negb (Ascii.eqb c ">"))
            (list_ascii_of_string body) = true.
Proof.
  cbv zeta. unfold Utils.stripTagAttributes.
  assert (Htags : exists tags0,
             match Utils.tagWordRegex_exec word with
             | Some t => t | None => "" end = tags0
             /\ forallb (fun c => negb (Utils.isSpace c) && negb (Ascii.eqb c ">"))
                  (list_ascii_of_string tags0) = true).
  { destruct (Utils.tagWordRegex_exec word) as [t|] eqn:E.
    - destruct (tagWordRegex_exec_shape _ _ E) as (run & -> & _ & Hrun).
      eexists. split; [reflexivity|]. cbn [list_ascii_of_string forallb].
      rewrite Hrun. reflexivity.
    - exists "". split; reflexivity. }
  destruct Htags as (tags0 & -> & Htags).
  assert (Hs : forallb (fun c => negb (Utils.isSpace c))
                 (list_ascii_of_string tags0) = true
               /\ forallb (fun c => negb (Ascii.eqb c ">"))
                    (list_ascii_of_string tags0) = true).
  { clear -Htags. induction (list_ascii_of_string tags0) as [|c l IH];
      [split; reflexivity|].
    cbn [forallb] in *. apply andb_true_iff in Htags. destruct Htags as [Hc Hl].
    apply andb_true_iff in Hc. destruct Hc as [H1 H2].
    destruct (IH Hl) as [IH1 IH2]. rewrite H1, H2, IH1, IH2. split; reflexivity. }
  destruct Hs as [Hs1 Hs2].
  destruct (Js.endsWith word "/>").
  - split.
    + rewrite list_ascii_append, forallb_app, Hs1. reflexivity.
    + exists (tags0 ++ "/")%string. split.
      * rewrite append_assoc. reflexivity.
      * rewrite list_ascii_append, forallb_app, Hs2. reflexivity.
  - split.
    + rewrite list_ascii_append, forallb_app, Hs1. reflexivity.
    + exists tags0. split; [reflexivity|exact Hs2].
Qed.

Lemma alnumRun_tagWordRun (s t : string) :
  match t with
  | String c _ => Utils.isLetter c || Utils.isDigit c = false
  | EmptyString => True
  end ->
  Utils.alnumRun (Utils.tagWordRun s ++ t)%string = Utils.alnumRun s.
Proof.
  intros Ht. induction s as [|c s IH].
  - cbn [Utils.tagWordRun String.append Utils.alnumRun].
    destruct t as [|d t]; [reflexivity|]. cbn [Utils.alnumRun]. now rewrite Ht.
  - cbn [Utils.tagWordRun Utils.alnumRun].
    destruct (Utils.isSpace c || Ascii.eqb c ">") eqn:E.
    + rewrite (space_not_alnum c E). cbn [String.append].
      destruct t as [|d t]; [reflexivity|]. cbn [Utils.alnumRun]. now rewrite Ht.
    + cbn [String.append Utils.alnumRun]. rewrite IH. reflexivity.
Qed.

Lemma letter_in_run (d : ascii) :
  Utils.isLetter d = true -> Utils.isSpace d || Ascii.eqb d ">" = false.
Proof.
  destruct d as [[] [] [] [] [] [] [] []]; intros H; try discriminate H;
    reflexivity.
Qed.

(** X4. Stripping the attributes of a tag keeps its name: a word that
    [getTagName] gives a name has the same name once [stripTagAttributes]
    has rewritten it. *)
Theorem stripTagAttributes_keeps_name (word name : string)
    (H : Utils.getTagName word = Some name) :
  Utils.getTagName (Utils.stripTagAttributes word) = Some name.
Proof.
  unfold Utils.stripTagAttributes.
  set (suffix := if Js.endsWith word "/>" then "/>" else ">").
  assert (Hsuffix : match suffix with
                    | String c _ => Utils.isLetter c || Utils.isDigit c = false
                    | EmptyString => True
                    end).
  { unfold suffix. destruct (Js.endsWith word "/>"); reflexivity. }
  clearbody suffix.
  unfold Utils.getTagName in H.
  destruct word as [|c rest]; [discriminate|].
  destruct (Ascii.eqb_spec c "<") as [->|]; [|discriminate].
  cbn [Utils.tagWordRegex_exec]. change (Ascii.eqb "<" "<") with true.
  cbn [andb].
  destruct rest as [|d r]; [discriminate|].
  destruct (Ascii.eqb_spec d "/") as [->|Hd].
  - (* a closing tag *)
    destruct r as [|e r]; [discriminate|].
    destruct (Utils.isLetter e) eqn:Ee; [|discriminate].
    cbn [Utils.tagWordRun]. change (Utils.isSpace "/" || Ascii.eqb "/" ">") with false.
    cbv iota. rewrite (letter_in_run e Ee).
    cbn [String.eqb negb String.append Utils.getTagName].
    change (Ascii.eqb "<" "<") with true. change (Ascii.eqb "/" "/") with true.
    cbv iota. rewrite Ee.
    change (String e (Utils.tagWordRun r ++ suffix)%string)
      with ((String e (Utils.tagWordRun r)) ++ suffix)%string.
    replace (String e (Utils.tagWordRun r)) with (Utils.tagWordRun (String e r))
      by (cbn [Utils.tagWordRun]; now rewrite (letter_in_run e Ee)).
    rewrite alnumRun_tagWordRun by exact Hsuffix. exact H.
  - destruct (Utils.isLetter d) eqn:Ed; [|discriminate].
    cbn [Utils.tagWordRun]. rewrite (letter_in_run d Ed).
    cbn [String.eqb negb String.append Utils.getTagName].
    change (Ascii.eqb "<" "<") with true. cbv iota.
    destruct (Ascii.eqb_spec d "/") as [->|_]; [congruence|].
    rewrite Ed.
    change (String d (Utils.tagWordRun r ++ suffix)%string)
      with ((String d (Utils.tagWordRun r)) ++ suffix)%string.
    replace (String d (Utils.tagWordRun r)) with (Utils.tagWordRun (String d r))
      by (cbn [Utils.tagWordRun]; now rewrite (letter_in_run d Ed)).
    rewrite alnumRun_tagWordRun by exact Hsuffix. exact H.
Qed.

Lemma stripTagAttributes_keeps_name_witness :
  Utils.getTagName (Utils.stripTagAttributes "<Div class='note' id='n1'>")
  = Some "div".
Proof.
  exact (stripTagAttributes_keeps_name "<Div class='note' id='n1'>" "div" eq_refl).
Defined.

Lemma tagWordRun_through (run rest : string) :
  forallb (fun c => negb (Utils.isSpace c) && negb (Ascii.eqb c ">"))
    (list_ascii_of_string run) = true ->
  Utils.tagWordRun (run ++ rest)%string = (run ++ Utils.tagWordRun rest)%string.
Proof.
  induction run as [|c run IH]; intros H; [reflexivity|].
  cbn [list_ascii_of_string forallb] in H. apply andb_true_iff in H.
  destruct H as [Hc Hrun]. cbn [String.append Utils.tagWordRun].
  apply andb_true_iff in Hc. destruct Hc as [H1 H2].
  apply negb_true_iff in H1, H2. rewrite H1, H2. cbn [orb].
  now rewrite IH.
Qed.

(** X5. A self-closing tag written without white space before its [/>]
    comes out of [stripTagAttributes] with a doubled slash: the slash is
    read as part of the tag word, and [/>] is appended to it. *)
Theorem stripTagAttributes_self_closing (run : string)
    (Hsome : run <> "")
    (Hrun : forallb (fun c => negb (Utils.isSpace c) && negb (Ascii.eqb c ">"))
              (list_ascii_of_string run) = true) :
  Utils.stripTagAttributes ("<" ++ run ++ "/>") = ("<" ++ run ++ "//>")%string.
Proof.
  unfold Utils.stripTagAttributes.
  replace (Js.endsWith ("<" ++ run ++ "/>") "/>") with true
    by (symmetry; rewrite <- append_assoc; apply endsWith_append).
  cbn [String.append Utils.tagWordRegex_exec].
  change (Ascii.eqb "<" "<") with true. cbn [andb].
  rewrite (tagWordRun_through run "/>" Hrun).
  change (Utils.tagWordRun "/>") with "/".
  destruct (String.eqb_spec (run ++ "/") "") as [E|_].
  { destruct run; discriminate. }
  cbn [negb String.append]. f_equal. now rewrite append_assoc.
Qed.

Lemma stripTagAttributes_self_closing_witness :
  Utils.stripTagAttributes "<br/>" = "<br//>".
Proof.
  apply (stripTagAttributes_self_closing "br"); [discriminate|reflexivity].
Defined.

(* ------------------------------------------------------------------ *)
(** ** What [findBlocks] reports *)

Lemma lookup_app_len {A} (pre : list A) (x : A) (l : list A) :
  Js.lookup (pre ++ x :: l) (Js.len pre) = Some x.
Proof.
  unfold Js.lookup, Js.len.
  destruct (Z.ltb_spec (Z.of_nat (List.length pre)) 0); [lia|].
  rewrite Nat2Z.id, nth_error_app2, Nat.sub_diag by lia. reflexivity.
Qed.

Lemma spliceNearest_name (tagName : string) (stack : list BlockAnalyzer.Open) :
  forall o rest,
    BlockAnalyzer.spliceNearest tagName stack = Some (o, rest) ->
    BlockAnalyzer.openTagName o = tagName.
Proof.
  induction stack as [|e stack IH]; intros o rest; [discriminate|].
  cbn [BlockAnalyzer.spliceNearest].
  destruct (String.eqb_spec (BlockAnalyzer.openTagName e) tagName) as [E|E].
  - now intros [= <- <-].
  - destruct (BlockAnalyzer.spliceNearest tagName stack) as [[o' rest']|];
      [|discriminate].
    intros [= <- <-]. now apply (IH o' rest').
Qed.

Lemma insertBlock_Forall (P : BlockAnalyzer.Block -> Prop)
    (b : BlockAnalyzer.Block) (l : list BlockAnalyzer.Block) :
  P b -> Forall P l -> Forall P (BlockAnalyzer.insertBlock b l).
Proof.
  intros Hb. induction 1 as [|c l Hc Hl IH]; simpl.
  - now constructor.
  - destruct (_ <? _); repeat constructor; assumption.
Qed.

Lemma sortBlocks_Forall (P : BlockAnalyzer.Block -> Prop)
    (l : list BlockAnalyzer.Block) :
  Forall P l -> Forall P (BlockAnalyzer.sortBlocks l).
Proof.
  unfold BlockAnalyzer.sortBlocks.
  assert (H : forall acc, Forall P acc -> Forall P l ->
                Forall P (fold_left (fun acc b => BlockAnalyzer.insertBlock b acc) l acc)).
  { induction l as [|b l IH]; intros acc Hacc Hl; [exact Hacc|].
    inversion Hl; subst. simpl. apply IH; [|assumption].
    now apply insertBlock_Forall. }
  intros Hl. now apply H.
Qed.

Section FindBlocksSound.

Variable this : BlockAnalyzer.t.
Variable words : list string.

(** An entry of the stack, pushed for an opening tag before position [i]. *)
#[local] Abbreviation opened :=
  (fun (i : Z) (e : BlockAnalyzer.Open) =>
     0 <= BlockAnalyzer.openStartIndex e < i
     /\ Utils.has (BlockAnalyzer.blockElements this) (BlockAnalyzer.openTagName e)
        = true
     /\ exists w, Js.lookup words (BlockAnalyzer.openStartIndex e) = Some w
                  /\ Utils.isOpeningTag w = true
                  /\ Utils.getTagName w = Some (BlockAnalyzer.openTagName e)).

Lemma findBlocksLoop_delimited (rest : list string) :
  forall (pre : list string) (blocks : list BlockAnalyzer.Block)
         (stack : list BlockAnalyzer.Open) (currentDepth : Z),
    words = pre ++ rest ->
    Forall (Spec.delimited this words) blocks ->
    Forall (opened (Js.len pre)) stack ->
    Forall (Spec.delimited this words)
      (BlockAnalyzer.findBlocksLoop this rest (Js.len pre) blocks stack
         currentDepth).
Proof.
  induction rest as [|word rest IH];
    intros pre blocks stack currentDepth Hwords Hblocks Hstack; [exact Hblocks|].
  assert (Hwords' : words = (pre ++ [word]) ++ rest)
    by (rewrite <- app_assoc; exact Hwords).
  assert (Hlen : Js.len pre + 1 = Js.len (pre ++ [word]))
    by (rewrite len_app, len_cons; unfold Js.len; simpl; lia).
  assert (Hstack' : Forall (opened (Js.len (pre ++ [word]))) stack).
  { eapply Forall_impl; [|exact Hstack]. cbv beta.
    intros e (H1 & H2 & H3). repeat split; try lia; assumption. }
  assert (Hskip : Forall (Spec.delimited this words)
                    (BlockAnalyzer.findBlocksLoop this rest (Js.len pre + 1)
                       blocks stack currentDepth)).
  { rewrite Hlen. now apply IH. }
  assert (Hhere : Js.lookup words (Js.len pre) = Some word)
    by (rewrite Hwords; apply lookup_app_len).
  cbn [BlockAnalyzer.findBlocksLoop].
  destruct (negb (Utils.isTag word)); [exact Hskip|].
  destruct (Utils.getTagName word) as [tagName|] eqn:Ename; [|exact Hskip].
  destruct (Utils.has _ tagName) eqn:Ehas; cbn [negb]; [|exact Hskip].
  destruct (Utils.isOpeningTag word) eqn:Eopen.
  { rewrite Hlen. apply IH; trivial. constructor; [|exact Hstack'].
    cbn [BlockAnalyzer.openStartIndex BlockAnalyzer.openTagName].
    pose proof (len_nonneg pre). repeat split; try lia; try assumption.
    exists word. repeat split; assumption. }
  destruct (Utils.isClosingTag word) eqn:Eclose; cbn [andb]; [|exact Hskip].
  destruct (0 <? Js.len stack); [|exact Hskip].
  destruct (BlockAnalyzer.spliceNearest tagName stack) as [[openingTag stack']|]
    eqn:E; [|exact Hskip].
  destruct (spliceNearest_spec _ _ _ _ E) as (Hin & Hincl & _ & _).
  pose proof (spliceNearest_name _ _ _ _ E) as Hname.
  assert (Hopen : opened (Js.len pre) openingTag)
    by (rewrite Forall_forall in Hstack; now apply Hstack).
  rewrite Hlen. apply IH; trivial.
  - destruct (Z.eqb_spec (BlockAnalyzer.openDepth openingTag) 0) as [H0|H0];
      [|exact Hblocks].
    apply Forall_app. split; [exact Hblocks|]. constructor; [|constructor].
    destruct Hopen as (H1 & H2 & H3). unfold Spec.delimited.
    cbn [BlockAnalyzer.depth BlockAnalyzer.tagName BlockAnalyzer.startIndex
         BlockAnalyzer.endIndex].
    split; [exact H0|]. split; [exact H2|]. split; [lia|]. split.
    { rewrite Hwords, len_app, len_cons. pose proof (len_nonneg rest). lia. }
    split; [exact H3|].
    exists word. rewrite Hname. repeat split; assumption.
  - rewrite Forall_forall in *. intros e He. apply Hstack', Hincl, He.
Qed.

(** X6. Every block that [findBlocks] reports is a top-level element of a
    block type, whose first token is an opening tag and whose last token is
    a later closing tag of the same name. *)
Theorem findBlocks_delimited :
  Forall (Spec.delimited this words) (BlockAnalyzer.findBlocks this words).
Proof.
  unfold BlockAnalyzer.findBlocks. apply sortBlocks_Forall.
  apply (findBlocksLoop_delimited words [] [] [] 0); constructor.
Qed.

End FindBlocksSound.

(* ------------------------------------------------------------------ *)
(** ** The content of a block *)

Lemma skipn_nth {A} (l : list A) :
  forall n, (n < List.length l)%nat ->
    exists x, nth_error l n = Some x /\ skipn n l = x :: skipn (S n) l.
Proof.
  induction l as [|y l IH]; intros n Hn; [simpl in Hn; lia|].
  destruct n as [|n]; [exists y; split; reflexivity|].
  simpl in Hn. destruct (IH n ltac:(lia)) as (x & H1 & H2).
  exists x. split; [exact H1|exact H2].
Qed.

Lemma slice_one {A} (l : list A) (i : Z) :
  0 <= i < Js.len l ->
  exists x, Js.lookup l i = Some x /\ Js.slice l i (i + 1) = [x].
Proof.
  intros Hi. destruct (skipn_nth l (Z.to_nat i)) as (x & H1 & H2);
    [unfold Js.len in Hi; lia|].
  exists x. split.
  - unfold Js.lookup. destruct (Z.ltb_spec i 0); [lia|exact H1].
  - rewrite slice_firstn_skipn by lia.
    replace (Z.to_nat (i + 1 - i)) with 1%nat by lia. now rewrite H2.
Qed.

(** X7. For a block inside the word array, [getBlockContent] is the word
    at its start index, the joined [getBlockInnerWords], and the word at
    its end index: the opening tag, the inner words and the closing tag. *)
Theorem getBlockContent_parts (words : list string) (b : BlockAnalyzer.Block)
    (H : 0 <= BlockAnalyzer.startIndex b < BlockAnalyzer.endIndex b
         /\ BlockAnalyzer.endIndex b < Js.len words) :
  exists opening closing,
    Js.lookup words (BlockAnalyzer.startIndex b) = Some opening
    /\ Js.lookup words (BlockAnalyzer.endIndex b) = Some closing
    /\ BlockAnalyzer.getBlockContent words b
       = (opening ++ Js.join (BlockAnalyzer.getBlockInnerWords words b)
          ++ closing)%string.
Proof.
  destruct H as [H1 H2].
  destruct (slice_one words (BlockAnalyzer.startIndex b)) as (o & Ho & Hso); [lia|].
  destruct (slice_one words (BlockAnalyzer.endIndex b)) as (c & Hc & Hsc); [lia|].
  exists o, c. split; [exact Ho|]. split; [exact Hc|].
  unfold BlockAnalyzer.getBlockContent, BlockAnalyzer.getBlockInnerWords.
  rewrite (slice_split words _ (BlockAnalyzer.startIndex b + 1)) by lia.
  rewrite (slice_split words (BlockAnalyzer.startIndex b + 1)
             (BlockAnalyzer.endIndex b)) by lia.
  rewrite Hso, Hsc, !join_app. reflexivity.
Qed.

Lemma getBlockContent_parts_witness :
  let words := ["<h2>"; "Plan"; "</h2>"; "<p>"; "Rest"; " "; "well"; "</p>"]%string in
  let b := {| BlockAnalyzer.tagName := "p"; BlockAnalyzer.startIndex := 3;
              BlockAnalyzer.endIndex := 7; BlockAnalyzer.depth := 0 |} in
  exists opening closing,
    Js.lookup words 3 = Some opening
    /\ Js.lookup words 7 = Some closing
    /\ BlockAnalyzer.getBlockContent words b
       = (opening ++ Js.join (BlockAnalyzer.getBlockInnerWords words b)
          ++ closing)%string.
Proof.
  cbv zeta.
  apply (getBlockContent_parts
           ["<h2>"; "Plan"; "</h2>"; "<p>"; "Rest"; " "; "well"; "</p>"]%string
           {| BlockAnalyzer.tagName := "p"; BlockAnalyzer.startIndex := 3;
              BlockAnalyzer.endIndex := 7; BlockAnalyzer.depth := 0 |}).
  cbn. lia.
Defined.

(* ------------------------------------------------------------------ *)
(** ** Equivalent block types *)

Lemma mapGet_mapSet (m : list (string * list string)) (k' : string)
    (v : list string) (k : string) :
  BlockAnalyzer.mapGet (BlockAnalyzer.mapSet m k' v) k
  = if String.eqb k' k then Some v else BlockAnalyzer.mapGet m k.
Proof.
  unfold BlockAnalyzer.mapGet, BlockAnalyzer.mapSet. cbn [find fst snd].
  destruct (String.eqb_spec k' k) as [->|Hne]; [reflexivity|].
  f_equal. induction m as [|[k0 v0] m IH]; [reflexivity|]. cbn [filter fst].
  destruct (String.eqb_spec k0 k') as [->|H0]; cbn [negb find fst].
  - destruct (String.eqb_spec k' k); [congruence|]. exact IH.
  - destruct (String.eqb k0 k); [reflexivity|exact IH].
Qed.

(** The lower case of the code is the lower case of JavaScript. *)
Lemma toLowerChar_lowerUnit (c : ascii) : Utils.toLowerChar c = Spec.lowerUnit c.
Proof. destruct c as [[] [] [] [] [] [] [] []]; reflexivity. Qed.

Lemma toLowerCase_lowerCase (s : string) : Utils.toLowerCase s = Spec.lowerCase s.
Proof.
  induction s as [|c s IH]; [reflexivity|].
  cbn [Utils.toLowerCase Spec.lowerCase]. now rewrite toLowerChar_lowerUnit, IH.
Qed.

Lemma mapGet_group (groupSet : list string) (k : string) (group : list string) :
  forall m,
    BlockAnalyzer.mapGet
      (fold_left
         (fun m element =>
            BlockAnalyzer.mapSet m (Utils.toLowerCase element) groupSet)
         group m) k
    = if Utils.has (map Spec.lowerCase group) k then Some groupSet
      else BlockAnalyzer.mapGet m k.
Proof.
  induction group as [|e group IH]; intros m; [reflexivity|].
  cbn [fold_left map]. rewrite IH, mapGet_mapSet.
  unfold Utils.has. cbn [existsb].
  rewrite (String.eqb_sym k), toLowerCase_lowerCase.
  destruct (String.eqb (Spec.lowerCase e) k); cbn [orb];
    [now destruct (existsb _ _)|reflexivity].
Qed.

Lemma find_app {A} (f : A -> bool) (l1 l2 : list A) :
  find f (l1 ++ l2)
  = match find f l1 with Some x => Some x | None => find f l2 end.
Proof.
  induction l1 as [|x l1 IH]; [reflexivity|]. simpl.
  destruct (f x); [reflexivity|exact IH].
Qed.

Lemma mapGet_groups (k : string) (groups : list (list string)) :
  forall m,
    BlockAnalyzer.mapGet
      (fold_left
         (fun m group =>
            let groupSet := map Utils.toLowerCase group in
            fold_left
              (fun m element =>
                 BlockAnalyzer.mapSet m (Utils.toLowerCase element) groupSet)
              group m)
         groups m) k
    = match Spec.groupOf groups k with
      | Some g => Some g
      | None => BlockAnalyzer.mapGet m k
      end.
Proof.
  unfold Spec.groupOf.
  induction groups as [|g groups IH]; intros m; [reflexivity|].
  cbn [fold_left rev]. rewrite IH, find_app. cbv zeta.
  destruct (find _ (rev groups)) as [g'|]; [reflexivity|].
  cbn [option_map find]. rewrite mapGet_group.
  rewrite (map_ext _ _ toLowerCase_lowerCase).
  destruct (Utils.has (map Spec.lowerCase g) k); reflexivity.
Qed.

(** X8. Two blocks have the same type when their tag names are equal or
    when the second name is in the group of the first; of the configured
    groups that have a name, the last one is its group. *)
Theorem isSameBlockType_last_group (enabled : bool)
    (blockElements : option (list string)) (groups : list (list string))
    (b1 b2 : BlockAnalyzer.Block) :
  let an :=
    BlockAnalyzer.constructor
      (Some {| Types.enabled := enabled;
               Types.blockElements := blockElements;
               Types.equivalentTypes := Some groups |}) in
  BlockAnalyzer.isSameBlockType an (Some b1) (Some b2)
  = String.eqb (BlockAnalyzer.tagName b1) (BlockAnalyzer.tagName b2)
    || match Spec.groupOf groups (BlockAnalyzer.tagName b1) with
       | Some g => Utils.has g (BlockAnalyzer.tagName b2)
       | None => false
       end.
Proof.
  cbv zeta. unfold BlockAnalyzer.isSameBlockType, BlockAnalyzer.constructor.
  cbn [BlockAnalyzer.equivalentTypes Types.equivalentTypes].
  rewrite mapGet_groups. cbn [BlockAnalyzer.mapGet find].
  destruct (String.eqb _ _); [reflexivity|]. cbn [orb].
  destruct (Spec.groupOf groups _); reflexivity.
Qed.

(** Names are put in lower case beyond the letters [A] to [Z]: with the
    one group of the capital A with a grave accent (192) and [p], a
    paragraph has the same type as an element named by the small letter
    (224); and two groups that have the capital and the small letter share a
    name. *)
Lemma isSameBlockType_latin1 :
  let capital := String (ascii_of_nat 192) EmptyString in
  let small := String (ascii_of_nat 224) EmptyString in
  let block name := {| BlockAnalyzer.tagName := name; BlockAnalyzer.startIndex := 0;
                       BlockAnalyzer.endIndex := 1; BlockAnalyzer.depth := 0 |} in
  BlockAnalyzer.isSameBlockType
    (BlockAnalyzer.constructor (Some (Spec.withGroups [[capital; "p"%string]])))
    (Some (block "p"%string)) (Some (block small)) = true
  /\ ~ Spec.disjointGroups [[capital; "x"%string]; [small; "y"%string]].
Proof.
  cbv zeta. split; [reflexivity|].
  intros [H _].
  specialize (H [String (ascii_of_nat 224) EmptyString; "y"%string]
                (String (ascii_of_nat 224) EmptyString)
                (or_introl eq_refl) eq_refl).
  discriminate H.
Qed.

Lemma groupOf_in (groups : list (list string)) (k : string) (G : list string) :
  Spec.groupOf groups k = Some G ->
  exists g, In g groups /\ G = map Spec.lowerCase g /\ Utils.has G k = true.
Proof.
  unfold Spec.groupOf.
  destruct (find _ (rev groups)) as [g|] eqn:E; [|discriminate].
  intros [= <-]. apply find_some in E. destruct E as [Hin Hhas].
  exists g. split; [now apply in_rev|]. split; [reflexivity|exact Hhas].
Qed.

Lemma disjoint_unique (groups : list (list string)) (g g' : list string)
    (k : string) :
  Spec.disjointGroups groups -> In g groups -> In g' groups ->
  Utils.has (map Spec.lowerCase g) k = true ->
  Utils.has (map Spec.lowerCase g') k = true ->
  g = g'.
Proof.
  induction groups as [|g0 groups IH]; intros Hd Hg Hg' Hk Hk'; [contradiction|].
  destruct Hd as [Hd0 Hd]. destruct Hg as [<-|Hg], Hg' as [<-|Hg'].
  - reflexivity.
  - rewrite (Hd0 g' k Hg' Hk) in Hk'. discriminate.
  - rewrite (Hd0 g k Hg Hk') in Hk. discriminate.
  - now apply IH.
Qed.

Lemma groupOf_disjoint (groups : list (list string)) (g : list string)
    (k : string) :
  Spec.disjointGroups groups -> In g groups ->
  Utils.has (map Spec.lowerCase g) k = true ->
  Spec.groupOf groups k = Some (map Spec.lowerCase g).
Proof.
  intros Hd Hin Hk. unfold Spec.groupOf.
  destruct (find _ (rev groups)) as [g'|] eqn:E.
  - apply find_some in E. destruct E as [Hin' Hk'].
    apply in_rev in Hin'.
    now rewrite (disjoint_unique groups g g' k Hd Hin Hin' Hk Hk').
  - rewrite (find_none _ _ E g) in Hk; [discriminate|].
    rewrite <- in_rev. exact Hin.
Qed.

Section Equivalence.

Variable groups : list (list string).
Hypothesis Hdisjoint : Spec.disjointGroups groups.

#[local] Abbreviation an :=
  (BlockAnalyzer.constructor (Some (Spec.withGroups groups))).
#[local] Abbreviation same :=
  (fun b1 b2 => BlockAnalyzer.isSameBlockType an (Some b1) (Some b2)).

Lemma same_iff (b1 b2 : BlockAnalyzer.Block) :
  same b1 b2 = true <->
  BlockAnalyzer.tagName b1 = BlockAnalyzer.tagName b2
  \/ exists g, In g groups
       /\ Utils.has (map Spec.lowerCase g) (BlockAnalyzer.tagName b1) = true
       /\ Utils.has (map Spec.lowerCase g) (BlockAnalyzer.tagName b2) = true.
Proof.
  unfold BlockAnalyzer.isSameBlockType, BlockAnalyzer.constructor, Spec.withGroups.
  cbn [BlockAnalyzer.equivalentTypes Types.equivalentTypes].
  rewrite mapGet_groups. cbn [BlockAnalyzer.mapGet find].
  destruct (String.eqb_spec (BlockAnalyzer.tagName b1) (BlockAnalyzer.tagName b2))
    as [E|E]; [split; [now left|reflexivity]|].
  split.
  - destruct (Spec.groupOf groups _) as [G|] eqn:EG; [|discriminate].
    intros H. right. apply groupOf_in in EG. destruct EG as (g & Hin & -> & Hk).
    exists g. repeat split; assumption.
  - intros [H|(g & Hin & H1 & H2)]; [contradiction|].
    now rewrite (groupOf_disjoint groups g _ Hdisjoint Hin H1).
Qed.

(** X9. When no two groups share a tag name, having the same type is an
    equivalence relation on blocks. *)
Theorem isSameBlockType_equivalence :
  let an := BlockAnalyzer.constructor (Some (Spec.withGroups groups)) in
  (forall b, BlockAnalyzer.isSameBlockType an (Some b) (Some b) = true)
  /\ (forall b1 b2,
        BlockAnalyzer.isSameBlockType an (Some b1) (Some b2)
        = BlockAnalyzer.isSameBlockType an (Some b2) (Some b1))
  /\ (forall b1 b2 b3,
        BlockAnalyzer.isSameBlockType an (Some b1) (Some b2) = true ->
        BlockAnalyzer.isSameBlockType an (Some b2) (Some b3) = true ->
        BlockAnalyzer.isSameBlockType an (Some b1) (Some b3) = true).
Proof.
  cbv zeta. split; [|split].
  - intros b. apply same_iff. now left.
  - intros b1 b2. apply Bool.eq_true_iff_eq. rewrite !same_iff.
    split; (intros [H|(g & Hin & H1 & H2)];
            [left; now symmetry|right; exists g; repeat split; assumption]).
  - intros b1 b2 b3 H12 H23. apply same_iff in H12, H23. apply same_iff.
    destruct H12 as [E12|(g & Hin & H1 & H2)].
    { rewrite E12. exact H23. }
    destruct H23 as [E23|(g' & Hin' & H2' & H3)].
    { rewrite <- E23. right. exists g. repeat split; assumption. }
    right. exists g. repeat split; try assumption.
    now rewrite (disjoint_unique groups g g' _ Hdisjoint Hin Hin' H2 H2').
Qed.

End Equivalence.

Lemma isSameBlockType_equivalence_witness :
  let groups := [["ul"; "ol"]; ["H1"; "h2"]]%string in
  let an := BlockAnalyzer.constructor (Some (Spec.withGroups groups)) in
  let block name := {| BlockAnalyzer.tagName := name; BlockAnalyzer.startIndex := 0;
                       BlockAnalyzer.endIndex := 1; BlockAnalyzer.depth := 0 |} in
  Spec.disjointGroups groups
  /\ BlockAnalyzer.isSameBlockType an (Some (block "h1")) (Some (block "h2"))
     = BlockAnalyzer.isSameBlockType an (Some (block "h2")) (Some (block "h1")).
Proof.
  cbv zeta.
  assert (H : Spec.disjointGroups [["ul"; "ol"]; ["H1"; "h2"]]%string).
  { cbn [Spec.disjointGroups]. split; [|split; [|exact I]].
    - intros g' x [<-|[]]. unfold Utils.has. cbn [map existsb Spec.lowerCase].
      intros Hx. apply orb_true_iff in Hx. destruct Hx as [Hx|Hx].
      + apply String.eqb_eq in Hx. subst x. reflexivity.
      + apply orb_true_iff in Hx. destruct Hx as [Hx|Hx]; [|discriminate].
        apply String.eqb_eq in Hx. subst x. reflexivity.
    - intros g' x []. }
  split; [exact H|].
  exact (proj1 (proj2 (isSameBlockType_equivalence _ H)) _ _).
Defined.

(* ------------------------------------------------------------------ *)
(** ** Pairing blocks by rank *)

Lemma lookup_len {A} (l : list A) : Js.lookup l (Js.len l) = None.
Proof.
  unfold Js.lookup, Js.len.
  destruct (Z.ltb_spec (Z.of_nat (List.length l)) 0); [reflexivity|].
  rewrite Nat2Z.id. apply nth_error_None. lia.
Qed.

Section ByPosition.

Variables oldBlocks newBlocks : list BlockAnalyzer.Block.

#[local] Abbreviation padded :=
  (fun (l1 l2 : list BlockAnalyzer.Block) =>
     map (fun p => (Some (fst p), Some (snd p))) (combine l1 l2)
     ++ map (fun b => (Some b, @None BlockAnalyzer.Block)) (skipn (List.length l2) l1)
     ++ map (fun b => (@None BlockAnalyzer.Block, Some b)) (skipn (List.length l1) l2)).

Lemma matchBlocksByPositionLoop_padded (fuel : nat) :
  forall (oldPre oldRest newPre newRest : list BlockAnalyzer.Block)
         (pairs : list (option BlockAnalyzer.Block * option BlockAnalyzer.Block)),
    oldBlocks = oldPre ++ oldRest -> newBlocks = newPre ++ newRest ->
    (List.length oldRest + List.length newRest <= fuel)%nat ->
    BlockAnalyzer.matchBlocksByPositionLoop fuel oldBlocks newBlocks
      (Js.len oldPre) (Js.len newPre) pairs
    = pairs ++ padded oldRest newRest.
Proof.
  induction fuel as [|fuel IH];
    intros oldPre oldRest newPre newRest pairs Hold Hnew Hfuel.
  { destruct oldRest, newRest; simpl in Hfuel; try lia.
    simpl. now rewrite app_nil_r. }
  cbn [BlockAnalyzer.matchBlocksByPositionLoop].
  assert (Hlo : forall x, Js.len oldPre + 1 = Js.len (oldPre ++ [x]))
    by (intros x; rewrite len_app; reflexivity).
  assert (Hln : forall x, Js.len newPre + 1 = Js.len (newPre ++ [x]))
    by (intros x; rewrite len_app; reflexivity).
  destruct oldRest as [|x oldRest], newRest as [|y newRest].
  - rewrite Hold, Hnew, !app_nil_r, !Z.ltb_irrefl. reflexivity.
  - replace (Js.lookup oldBlocks (Js.len oldPre)) with (@None BlockAnalyzer.Block)
      by (rewrite Hold, app_nil_r; symmetry; apply lookup_len).
    replace (Js.lookup newBlocks (Js.len newPre)) with (Some y)
      by (rewrite Hnew; symmetry; apply lookup_app_len).
    replace (Js.len newPre <? Js.len newBlocks) with true
      by (symmetry; apply Z.ltb_lt; rewrite Hnew, len_app, len_cons;
          pose proof (len_nonneg newRest); lia).
    rewrite orb_true_r, (Hln y).
    rewrite (IH oldPre [] (newPre ++ [y]) newRest); trivial.
    + rewrite <- app_assoc. simpl. destruct newRest; reflexivity.
    + now rewrite <- app_assoc.
    + simpl in *. lia.
  - replace (Js.lookup oldBlocks (Js.len oldPre)) with (Some x)
      by (rewrite Hold; symmetry; apply lookup_app_len).
    replace (Js.lookup newBlocks (Js.len newPre)) with (@None BlockAnalyzer.Block)
      by (rewrite Hnew, app_nil_r; symmetry; apply lookup_len).
    replace (Js.len oldPre <? Js.len oldBlocks) with true
      by (symmetry; apply Z.ltb_lt; rewrite Hold, len_app, len_cons;
          pose proof (len_nonneg oldRest); lia).
    cbn [orb]. rewrite (Hlo x).
    rewrite (IH (oldPre ++ [x]) oldRest newPre []); trivial.
    + rewrite <- app_assoc. simpl. destruct oldRest; reflexivity.
    + now rewrite <- app_assoc.
    + simpl in *. lia.
  - replace (Js.lookup oldBlocks (Js.len oldPre)) with (Some x)
      by (rewrite Hold; symmetry; apply lookup_app_len).
    replace (Js.lookup newBlocks (Js.len newPre)) with (Some y)
      by (rewrite Hnew; symmetry; apply lookup_app_len).
    replace (Js.len oldPre <? Js.len oldBlocks) with true
      by (symmetry; apply Z.ltb_lt; rewrite Hold, len_app, len_cons;
          pose proof (len_nonneg oldRest); lia).
    cbn [orb]. rewrite (Hlo x), (Hln y).
    rewrite (IH (oldPre ++ [x]) oldRest (newPre ++ [y]) newRest); trivial.
    + rewrite <- app_assoc. reflexivity.
    + now rewrite <- app_assoc.
    + now rewrite <- app_assoc.
    + simpl in *. lia.
Qed.

(** X10. [matchBlocksByPosition] pairs the blocks of equal rank, then pairs
    what is left of the longer list with [null]. *)
Theorem matchBlocksByPosition_pads :
  BlockAnalyzer.matchBlocksByPosition oldBlocks newBlocks
  = map (fun p => (Some (fst p), Some (snd p))) (combine oldBlocks newBlocks)
    ++ map (fun b => (Some b, None)) (skipn (List.length newBlocks) oldBlocks)
    ++ map (fun b => (None, Some b)) (skipn (List.length oldBlocks) newBlocks).
Proof.
  unfold BlockAnalyzer.matchBlocksByPosition.
  exact (matchBlocksByPositionLoop_padded _ [] oldBlocks [] newBlocks []
           eq_refl eq_refl (Nat.le_refl _)).
Qed.

End ByPosition.

Section Positional.

Variable BlockExpression : Type.
Variable this : HtmlDiff.t BlockExpression.

Lemma positional_detectLoop (an : BlockAnalyzer.t)
    (pairs : list (option BlockAnalyzer.Block * option BlockAnalyzer.Block)) :
  forall changes,
    PositionalDiff.detectLoop an pairs changes
    = changes
      ++ flat_map
           (fun p =>
              match p with
              | (Some o, Some n) =>
                  if BlockAnalyzer.isSameBlockType an (Some o) (Some n) then []
                  else [{| PositionalDiff.oldBlock := o;
                           PositionalDiff.newBlock := n |}]
              | _ => []
              end) pairs.
Proof.
  induction pairs as [|[[o|] [n|]] pairs IH]; intros changes;
    cbn [PositionalDiff.detectLoop flat_map]; rewrite ?app_nil_r; trivial;
    try (rewrite IH; reflexivity).
  destruct (BlockAnalyzer.isSameBlockType an (Some o) (Some n)); cbn [negb];
    rewrite IH; [reflexivity|]. now rewrite <- app_assoc.
Qed.

Lemma flat_map_nil {A B} (f : A -> list B) (l : list A) :
  (forall x, In x l -> f x = []) -> flat_map f l = [].
Proof.
  intros H. induction l as [|x l IH]; [reflexivity|]. simpl.
  rewrite H by now left. apply IH. intros y Hy. apply H. now right.
Qed.

(** X11. The earlier [detectBlockTypeChanges] reports the pairs of blocks of
    equal rank whose types differ, in their order; a block without a
    partner of its rank is never reported. *)
Theorem positional_detectBlockTypeChanges :
  PositionalDiff.detectBlockTypeChanges this
  = match HtmlDiff.blockAnalyzer _ this with
    | None => []
    | Some an =>
        map (fun p => {| PositionalDiff.oldBlock := fst p;
                         PositionalDiff.newBlock := snd p |})
          (filter
             (fun p => negb (BlockAnalyzer.isSameBlockType an
                               (Some (fst p)) (Some (snd p))))
             (combine (HtmlDiff.oldBlocks _ this) (HtmlDiff.newBlocks _ this)))
    end.
Proof.
  unfold PositionalDiff.detectBlockTypeChanges.
  destruct (HtmlDiff.blockAnalyzer _ this) as [an|]; [|reflexivity].
  cbv zeta. rewrite positional_detectLoop. cbn [app].
  unfold BlockAnalyzer.matchBlocksByPosition.
  change 0 with (Js.len (@nil BlockAnalyzer.Block)).
  rewrite (matchBlocksByPositionLoop_padded (HtmlDiff.oldBlocks _ this)
             (HtmlDiff.newBlocks _ this) _ [] (HtmlDiff.oldBlocks _ this)
             [] (HtmlDiff.newBlocks _ this) [] eq_refl eq_refl (Nat.le_refl _)).
  cbn [app]. rewrite !flat_map_app.
  rewrite (flat_map_nil _ (map (fun b => (Some b, None)) _)),
          (flat_map_nil _ (map (fun b => (None, Some b)) _)), !app_nil_r.
  - induction (combine _ _) as [|[o n] l IH]; [reflexivity|].
    cbn [map flat_map filter fst snd]. rewrite IH.
    destruct (BlockAnalyzer.isSameBlockType an (Some o) (Some n)); reflexivity.
  - intros p Hp. apply in_map_iff in Hp. now destruct Hp as (b & <- & _).
  - intros p Hp. apply in_map_iff in Hp. now destruct Hp as (b & <- & _).
Qed.

End Positional.

(* ------------------------------------------------------------------ *)
(** ** The original forms of the words *)

Lemma update_app_len {A} (pre : list A) (x v : A) (l : list A) :
  Js.update (pre ++ x :: l) (List.length pre) v = pre ++ v :: l.
Proof. induction pre as [|y pre IH]; simpl; [reflexivity|now rewrite IH]. Qed.

Lemma restore_from (words : list (string * option string)) :
  forall pre : list string,
    HtmlDiff.restore (pre ++ map fst words)
      (HtmlDiff.originals words (Js.len pre))
    = pre ++ Spec.written words.
Proof.
  unfold HtmlDiff.restore, Spec.written.
  induction words as [|[w o] words IH]; intros pre; [reflexivity|].
  assert (Hlen : forall x, Js.len pre + 1 = Js.len (pre ++ [x]))
    by (intros x; rewrite len_app; reflexivity).
  assert (Hnext : forall x,
             fold_left (fun ws e => Js.update ws (Z.to_nat (fst e)) (snd e))
               (HtmlDiff.originals words (Js.len pre + 1))
               (pre ++ x :: map fst words)
             = pre ++ x :: map Spec.originalOf words).
  { intros x. rewrite (Hlen x).
    replace (pre ++ x :: map fst words) with ((pre ++ [x]) ++ map fst words)
      by now rewrite <- app_assoc.
    rewrite IH. now rewrite <- app_assoc. }
  cbn [HtmlDiff.originals map fst].
  destruct o as [o|]; [|apply Hnext].
  change (Spec.originalOf (w, Some o)) with (if String.eqb o "" then w else o).
  destruct (String.eqb o ""); [apply Hnext|].
  cbn [fold_left fst snd].
  replace (Z.to_nat (Js.len pre)) with (List.length pre)
    by (unfold Js.len; now rewrite Nat2Z.id).
  rewrite update_app_len. apply Hnext.
Qed.

Lemma restore_written (words : list (string * option string)) :
  HtmlDiff.restore (map fst words) (HtmlDiff.originals words 0)
  = Spec.written words.
Proof. exact (restore_from words []). Qed.

(** X12. Once [diff()] has put back the original forms that
    [splitInputsIntoWords] set aside, every word that the word splitter gave
    a non-empty original form has this form, and every other word is as
    the word splitter returned it; this on the old and on the new side. *)
Theorem restore_originals (BlockExpression : Type)
    (convertHtmlToListOfWords :
       string -> list BlockExpression -> list (string * option string))
    (this : HtmlDiff.t BlockExpression) :
  let split := HtmlDiff.splitInputsIntoWords _ convertHtmlToListOfWords this in
  HtmlDiff.restore (HtmlDiff.oldWords _ split)
    (HtmlDiff.originalWordsInOld _ split)
  = map Spec.originalOf
      (convertHtmlToListOfWords (HtmlDiff.oldText _ this)
         (HtmlDiff.blockExpressions _ this))
  /\ HtmlDiff.restore (HtmlDiff.newWords _ split)
       (HtmlDiff.originalWordsInNew _ split)
     = map Spec.originalOf
         (convertHtmlToListOfWords (HtmlDiff.newText _ this)
            (HtmlDiff.blockExpressions _ this))
  /\ HtmlDiff.oldText _ split = ""
  /\ HtmlDiff.newText _ split = "".
Proof.
  cbv zeta. unfold HtmlDiff.splitInputsIntoWords.
  cbn [HtmlDiff.oldWords HtmlDiff.newWords HtmlDiff.originalWordsInOld
       HtmlDiff.originalWordsInNew HtmlDiff.oldText HtmlDiff.newText
       HtmlDiff.blockExpressions HtmlDiff.set_originalWordsInOld
       HtmlDiff.set_originalWordsInNew HtmlDiff.set_oldWords
       HtmlDiff.set_newWords HtmlDiff.set_oldText HtmlDiff.set_newText].
  split; [apply restore_written|].
  split; [apply restore_written|].
  split; reflexivity.
Qed.

(* ------------------------------------------------------------------ *)
(** ** Token ranges *)

Lemma filterPos_range {A} (l : list A) :
  forall (s e pos : Z), 0 <= pos ->
    Js.filterPos (fun p => (p >=? s) && (p <? e)) pos l
    = firstn (Z.to_nat (e - Z.max s pos)) (skipn (Z.to_nat (s - pos)) l).
Proof.
  induction l as [|x l IH]; intros s e pos Hpos.
  { now rewrite skipn_nil, firstn_nil. }
  cbn [Js.filterPos]. rewrite IH by lia.
  destruct (Z.leb_spec s pos) as [Hs|Hs].
  - rewrite geb_true by lia. cbn [andb].
    replace (Z.to_nat (s - pos)) with 0%nat by lia.
    replace (Z.to_nat (s - (pos + 1))) with 0%nat by lia.
    cbn [skipn]. rewrite (Z.max_r s pos), (Z.max_r s (pos + 1)) by lia.
    destruct (Z.ltb_spec pos e) as [He|He].
    + replace (Z.to_nat (e - pos)) with (S (Z.to_nat (e - (pos + 1)))) by lia.
      reflexivity.
    + replace (Z.to_nat (e - pos)) with 0%nat by lia.
      replace (Z.to_nat (e - (pos + 1))) with 0%nat by lia.
      reflexivity.
  - rewrite geb_false by lia. cbn [andb].
    replace (Z.to_nat (s - pos)) with (S (Z.to_nat (s - (pos + 1)))) by lia.
    cbn [skipn]. rewrite (Z.max_l s pos), (Z.max_l s (pos + 1)) by lia.
    reflexivity.
Qed.

(** The filter by position of the renderer is a slice. *)
Lemma filterPos_slice {A} (l : list A) (s e : Z) :
  0 <= s -> 0 <= e ->
  Js.filterPos (fun p => (p >=? s) && (p <? e)) 0 l = Js.slice l s e.
Proof.
  intros Hs He. rewrite filterPos_range by lia.
  rewrite Z.sub_0_r, Z.max_l by lia.
  destruct (Z.le_gt_cases s e) as [Hse|Hse].
  - now rewrite slice_firstn_skipn by lia.
  - rewrite slice_empty by lia. replace (Z.to_nat (e - s)) with 0%nat by lia.
    reflexivity.
Qed.

Lemma insertTagRendering_runs (tag cssClass : string) (content : list string) :
  HtmlDiff.insertTagRendering tag cssClass content
  = Spec.renderRuns tag cssClass content.
Proof.
  unfold HtmlDiff.insertTagRendering.
  change content with ([] ++ content) at 2.
  change 0 with (Js.len (@nil string)).
  rewrite insertTagLoop_runs; [reflexivity|apply Nat.le_refl|].
  destruct content; trivial.
Qed.

(* ------------------------------------------------------------------ *)
(** ** Runs of tokens *)

(** X13. From a position inside the content or at its end,
    [consecutiveWhere] returns the longest run of tokens from that position
    on which the predicate holds: what follows the run is nothing or a
    token on which the predicate fails. *)
Theorem consecutiveWhere_longest_run (start : nat) (content : list string)
    (predicate : string -> bool) :
  let run := HtmlDiff.consecutiveWhere (Z.of_nat start) content predicate in
  Forall (fun token => predicate token = true) run
  /\ exists rest,
       skipn start content = run ++ rest
       /\ match rest with
          | [] => True
          | token :: _ => predicate token = false
          end.
Proof.
  cbv zeta. rewrite consecutiveWhere_leading by lia. rewrite Nat2Z.id.
  split; [apply leading_all|].
  exists (Spec.trailing predicate (skipn start content)).
  split; [symmetry; apply leading_trailing|apply trailing_head].
Qed.

(** X14. Content without a tag token is wrapped whole: [insertTag] writes
    what [Utils.wrapText] writes for the joined content. *)
Theorem insertTag_plain_text (tag cssClass : string) (content : list string)
    (Hsome : content <> [])
    (Hplain : Forall (fun token => Utils.isTag token = false) content) :
  HtmlDiff.insertTagRendering tag cssClass content
  = Utils.wrapText (Js.join content) tag cssClass.
Proof.
  rewrite insertTagRendering_runs. unfold Spec.renderRuns.
  rewrite (runs_single Utils.isTag false content Hsome Hplain).
  cbn [map Spec.renderRun fst snd]. unfold Utils.wrapText, Spec.element.
  rewrite !join_cons. cbn [Js.join String.concat].
  rewrite !append_assoc. reflexivity.
Qed.

Lemma insertTag_plain_text_witness :
  HtmlDiff.insertTagRendering "ins" "diffins" ["Rest"; " "; "well"]
  = Utils.wrapText "Rest well" "ins" "diffins".
Proof.
  apply (insertTag_plain_text "ins" "diffins" ["Rest"; " "; "well"]).
  - discriminate.
  - repeat constructor.
Defined.

(* ------------------------------------------------------------------ *)
(** ** What orphan removal keeps *)

Section KeepsLast.

Variable BlockExpression : Type.
Variable this : HtmlDiff.t BlockExpression.

Lemma removeOrphansLoop_keeps_last (ms : list Match.t) :
  forall prev curr : Match.t,
    exists init,
      HtmlDiff.removeOrphansLoop _ this prev curr ms = init ++ [last ms curr]
      /\ Spec.inserted init (removelast (curr :: ms)).
Proof.
  induction ms as [|next ms IH]; intros prev curr.
  { exists []. split; [reflexivity|constructor]. }
  cbn [HtmlDiff.removeOrphansLoop].
  rewrite (last_cons next ms curr).
  change (removelast (curr :: next :: ms)) with (curr :: removelast (next :: ms)).
  destruct (_ || _).
  - destruct (IH prev next) as (init & -> & Hinit).
    exists (curr :: init). split; [reflexivity|now constructor].
  - match goal with |- context [if ?c then _ else _] => destruct c end.
    + destruct (IH curr next) as (init & -> & Hinit).
      exists (curr :: init). split; [reflexivity|now constructor].
    + destruct (IH curr next) as (init & -> & Hinit).
      exists init. split; [reflexivity|now constructor].
Qed.

(** X15. Whatever the threshold, [removeOrphans] yields matches of its
    input in their order, and always yields the last one: the sentinel
    that [operations] appends survives. *)
Theorem removeOrphans_keeps_last (first : Match.t) (rest : list Match.t) :
  exists init,
    HtmlDiff.removeOrphans _ this (first :: rest)
    = map Some (init ++ [last rest first])
    /\ Spec.inserted init (removelast (first :: rest)).
Proof.
  unfold HtmlDiff.removeOrphans.
  destruct (removeOrphansLoop_keeps_last rest
              {| Match.startInOld := 0; Match.startInNew := 0; Match.size := 0 |}
              first) as (init & -> & Hinit).
  exists init. split; [reflexivity|exact Hinit].
Qed.

End KeepsLast.

(* ------------------------------------------------------------------ *)
(** ** The actions of the operations *)

Lemma operationsLoop_fits (ms : list Match.t) :
  forall (posOld posNew c d : Z) (acc : list Operation.t),
    Spec.ordered ms posOld posNew c d ->
    exists ops,
      HtmlDiff.operationsLoop (map Some ms) posOld posNew acc = Some (acc ++ ops)
      /\ Forall Spec.actionFits ops.
Proof.
  induction ms as [|m ms IH]; intros posOld posNew c d acc Hord.
  { exists []. rewrite app_nil_r. split; [reflexivity|constructor]. }
  destruct Hord as (Ha & Hb & Hs & Hord).
  cbn [map HtmlDiff.operationsLoop].
  set (acc1 := match _ with Types.none => acc | _ => _ end).
  set (acc2 := if negb (Match.size m =? 0) then _ else acc1).
  destruct (IH _ _ _ _ acc2 Hord) as (ops & -> & Hfits).
  assert (Hequal : exists eqs, acc2 = acc1 ++ eqs /\ Forall Spec.actionFits eqs).
  { subst acc2. destruct (Z.eqb_spec (Match.size m) 0) as [E|E]; cbn [negb].
    - exists []. rewrite app_nil_r. split; [reflexivity|constructor].
    - eexists [_]. split; [reflexivity|]. constructor; [|constructor].
      unfold Spec.actionFits, Match.endInOld, Match.endInNew. simpl. lia. }
  destruct Hequal as (eqs & -> & Heqs).
  assert (Hgap : exists gaps, acc1 = acc ++ gaps /\ Forall Spec.actionFits gaps).
  { subst acc1.
    destruct (Z.eqb_spec posOld (Match.startInOld m)) as [E1|E1];
      destruct (Z.eqb_spec posNew (Match.startInNew m)) as [E2|E2]; simpl.
    - exists []. rewrite app_nil_r. split; [reflexivity|constructor].
    - eexists [_]. split; [reflexivity|]. constructor; [|constructor].
      unfold Spec.actionFits. simpl. lia.
    - eexists [_]. split; [reflexivity|]. constructor; [|constructor].
      unfold Spec.actionFits. simpl. lia.
    - eexists [_]. split; [reflexivity|]. constructor; [|constructor].
      unfold Spec.actionFits. simpl. lia. }
  destruct Hgap as (gaps & -> & Hgaps).
  exists (gaps ++ eqs ++ ops). split.
  - f_equal. rewrite <- !app_assoc. reflexivity.
  - rewrite !Forall_app. repeat split; assumption.
Qed.

Section Actions.

Variable BlockExpression : Type.
Variable MatchFinder_findMatch :
  list string -> list string -> Z -> Z -> Z -> Z -> Types.MatchOptions ->
  option Match.t.
Hypothesis finder_in_window : Spec.finderInWindow MatchFinder_findMatch.

#[local] Abbreviation state := (HtmlDiff.t BlockExpression).

(** What [operations] hands to its loop: ordered matches that end with the
    sentinel. *)
Lemma operations_matches (this : state) :
  exists ms,
    HtmlDiff.operations _ MatchFinder_findMatch this
    = HtmlDiff.operationsLoop (map Some ms) 0 0 []
    /\ Spec.ordered ms 0 0
         (Js.len (HtmlDiff.oldWords _ this)) (Js.len (HtmlDiff.newWords _ this))
    /\ Match.endInOld (last ms (Spec.mkMatch 0 0 0))
       = Js.len (HtmlDiff.oldWords _ this)
    /\ Match.endInNew (last ms (Spec.mkMatch 0 0 0))
       = Js.len (HtmlDiff.newWords _ this).
Proof.
  set (lo := Js.len (HtmlDiff.oldWords _ this)).
  set (ln := Js.len (HtmlDiff.newWords _ this)).
  assert (Hlo : 0 <= lo) by apply len_nonneg.
  assert (Hln : 0 <= ln) by apply len_nonneg.
  unfold HtmlDiff.operations, HtmlDiff.matchingBlocks. fold lo ln.
  destruct (findMatchingBlocks_ordered BlockExpression MatchFinder_findMatch
              finder_in_window
              (S (List.length (HtmlDiff.oldWords _ this)
                  + List.length (HtmlDiff.newWords _ this)))
              this 0 lo 0 ln []) as (ms & -> & Hord & _);
    [lia|lia|unfold lo, ln, Js.len; lia|].
  simpl app.
  set (sentinel := {| Match.startInOld := lo; Match.startInNew := ln;
                      Match.size := 0 |}).
  assert (Hall : Spec.ordered (ms ++ [sentinel]) 0 0 lo ln).
  { eapply ordered_app; [exact Hord|]. simpl.
    unfold Match.endInOld, Match.endInNew. simpl. lia. }
  unfold HtmlDiff.removeOrphans.
  destruct (ms ++ [sentinel]) as [|curr rest] eqn:E.
  { destruct ms; discriminate. }
  destruct (removeOrphansLoop_ordered BlockExpression this rest
              (Spec.mkMatch 0 0 0) curr 0 0 lo ln Hall) as (init & Hloop & Hord').
  assert (Hlast : last rest curr = sentinel).
  { rewrite <- (last_cons curr rest curr), <- E. apply last_last. }
  rewrite Hlast in *. unfold Spec.mkMatch in Hloop. rewrite Hloop.
  exists (init ++ [sentinel]). split; [reflexivity|]. split; [exact Hord'|].
  rewrite last_last. unfold Match.endInOld, Match.endInNew. simpl. lia.
Qed.

(** X16. With a match finder that answers inside its windows, [operations]
    returns operations whose ranges fit their actions: an insertion takes
    no old token, a deletion no new token, a replacement takes tokens on
    both sides, an equal stretch is as long on both sides, no operation is
    empty and none has the action [none]. *)
Theorem operations_actions (this : state) :
  exists ops,
    HtmlDiff.operations _ MatchFinder_findMatch this = Some ops
    /\ Forall Spec.actionFits ops.
Proof.
  destruct (operations_matches this) as (ms & -> & Hord & _).
  destruct (operationsLoop_fits ms 0 0 _ _ [] Hord) as (ops & -> & Hfits).
  exists ops. split; [reflexivity|exact Hfits].
Qed.

(** X17. With a match finder that answers inside its windows,
    [matchingBlocks] returns, and its matches are in ascending order on both
    sides, do not overlap, lie inside the two token arrays, and are not
    empty. *)
Theorem matchingBlocks_ordered (this : state) :
  exists ms,
    HtmlDiff.matchingBlocks _ MatchFinder_findMatch this = Some ms
    /\ Spec.ordered ms 0 0
         (Js.len (HtmlDiff.oldWords _ this)) (Js.len (HtmlDiff.newWords _ this))
    /\ Forall (fun m => 0 < Match.size m) ms.
Proof.
  unfold HtmlDiff.matchingBlocks.
  pose proof (len_nonneg (HtmlDiff.oldWords _ this)).
  pose proof (len_nonneg (HtmlDiff.newWords _ this)).
  destruct (findMatchingBlocks_ordered BlockExpression MatchFinder_findMatch
              finder_in_window
              (S (List.length (HtmlDiff.oldWords _ this)
                  + List.length (HtmlDiff.newWords _ this)))
              this 0 (Js.len (HtmlDiff.oldWords _ this))
              0 (Js.len (HtmlDiff.newWords _ this)) [])
    as (ms & -> & Hord & Hpos); [lia|lia|unfold Js.len; lia|].
  exists ms. repeat split; assumption.
Qed.

End Actions.

Lemma operations_actions_witness :
  Spec.finderInWindow MatchFinder.findMatch
  /\ exists ops,
       HtmlDiff.operations Empty_set MatchFinder.findMatch
         (HtmlDiff.set_matchGranularity _
            (Spec.orphanState ["a"; " "; "b"] ["a"; " "; "c"] 0) 3)
       = Some ops
       /\ Forall Spec.actionFits ops.
Proof.
  split; [exact modelled_finder_in_window|].
  apply (operations_actions Empty_set MatchFinder.findMatch
           modelled_finder_in_window).
Defined.

Lemma matchingBlocks_ordered_witness :
  Spec.finderInWindow MatchFinder.findMatch
  /\ exists ms,
       HtmlDiff.matchingBlocks Empty_set MatchFinder.findMatch
         (HtmlDiff.set_matchGranularity _
            (Spec.orphanState ["a"; " "; "b"] ["a"; " "; "c"] 0) 3)
       = Some ms
       /\ Spec.ordered ms 0 0 3 3
       /\ Forall (fun m => 0 < Match.size m) ms.
Proof.
  split; [exact modelled_finder_in_window|].
  apply (matchingBlocks_ordered Empty_set MatchFinder.findMatch
           modelled_finder_in_window).
Defined.

(* ------------------------------------------------------------------ *)
(** ** Replacements and blocks *)

Lemma anyTypeDiffers_allSameType (an : BlockAnalyzer.t)
    (a : list BlockAnalyzer.Block) :
  forall b, HtmlDiff.anyTypeDiffers an a b = negb (HtmlDiff.allSameType an a b).
Proof.
  induction a as [|x a IH]; intros b; [reflexivity|].
  cbn [HtmlDiff.anyTypeDiffers HtmlDiff.allSameType].
  destruct (negb _); [reflexivity|apply IH].
Qed.

Section Replacement.

Variable BlockExpression : Type.
Variable this : HtmlDiff.t BlockExpression.

(** X18. A replacement is written as whole blocks exactly when the blocks
    that overlap its old range and those that overlap its new range differ
    in number or, rank by rank, in type; without a block analyzer, never. *)
Theorem shouldUseBlockReplacement_rule (opp : Operation.t) :
  HtmlDiff.shouldUseBlockReplacement _ this opp
  = match HtmlDiff.blockAnalyzer _ this with
    | None => false
    | Some an =>
        negb (Spec.sameTypes an
                (HtmlDiff.blocksInRange (HtmlDiff.oldBlocks _ this)
                   (Operation.startInOld opp) (Operation.endInOld opp))
                (HtmlDiff.blocksInRange (HtmlDiff.newBlocks _ this)
                   (Operation.startInNew opp) (Operation.endInNew opp)))
    end.
Proof.
  unfold HtmlDiff.shouldUseBlockReplacement.
  destruct (HtmlDiff.blockAnalyzer _ this) as [an|]; [|reflexivity]. cbv zeta.
  set (o := HtmlDiff.blocksInRange _ _ _).
  set (n := HtmlDiff.blocksInRange _ _ _).
  unfold Spec.sameTypes.
  destruct (Z.eqb_spec (Js.len o) (Js.len n)) as [E|E]; cbn [negb andb].
  - rewrite anyTypeDiffers_allSameType, allSameType_forallb
      by (unfold Js.len in E; lia).
    destruct (Z.eqb_spec (Js.len o) 0) as [Eo|Eo].
    + rewrite <- E, Eo. cbn [Z.eqb andb].
      destruct o; [|rewrite len_cons in Eo; pose proof (len_nonneg o); lia].
      reflexivity.
    + rewrite <- E. destruct (Z.eqb_spec (Js.len o) 0); [contradiction|].
      reflexivity.
  - destruct (Js.len o =? 0) eqn:Eo, (Js.len n =? 0) eqn:En; cbn [andb orb];
      try reflexivity.
    apply Z.eqb_eq in Eo, En. congruence.
Qed.

End Replacement.

(* ------------------------------------------------------------------ *)
(** ** What the operations write *)

Section Rendering.

Variable BlockExpression : Type.

#[local] Abbreviation state := (HtmlDiff.t BlockExpression).
#[local] Abbreviation inside :=
  (fun op : Operation.t =>
     0 <= Operation.startInOld op /\ 0 <= Operation.endInOld op
     /\ 0 <= Operation.startInNew op /\ 0 <= Operation.endInNew op).

Lemma performOperation_writes (this : state) (op : Operation.t) :
  inside op ->
  HtmlDiff.performOperation _ this op
  = HtmlDiff.set_content _ this
      (HtmlDiff.content _ this ++ Spec.renderOperation this op).
Proof.
  intros (H1 & H2 & H3 & H4).
  unfold HtmlDiff.performOperation, Spec.renderOperation.
  destruct (Operation.action op).
  - unfold HtmlDiff.processEqualOperation. now rewrite filterPos_slice.
  - unfold HtmlDiff.processDeleteOperation, HtmlDiff.insertTag.
    now rewrite filterPos_slice, insertTagRendering_runs.
  - unfold HtmlDiff.processInsertOperation, HtmlDiff.insertTag.
    now rewrite filterPos_slice, insertTagRendering_runs.
  - rewrite app_nil_r. destruct this; reflexivity.
  - unfold HtmlDiff.processReplaceOperation.
    replace (match HtmlDiff.blockAnalyzer _ this with
             | Some _ => true | None => false end
             && HtmlDiff.shouldUseBlockReplacement _ this op)
      with (HtmlDiff.shouldUseBlockReplacement _ this op)
      by (unfold HtmlDiff.shouldUseBlockReplacement;
          destruct (HtmlDiff.blockAnalyzer _ this); reflexivity).
    destruct (HtmlDiff.shouldUseBlockReplacement _ this op);
      unfold HtmlDiff.processDeleteOperation, HtmlDiff.processInsertOperation,
        HtmlDiff.insertTag;
      cbn [HtmlDiff.newWords HtmlDiff.oldWords HtmlDiff.content
           HtmlDiff.set_content];
      rewrite !filterPos_slice, !insertTagRendering_runs by assumption;
      unfold HtmlDiff.set_content; cbn; rewrite <- app_assoc; reflexivity.
Qed.

Lemma performOperations_write (ops : list Operation.t) :
  forall this : state,
    Forall inside ops ->
    fold_left (HtmlDiff.performOperation _) ops this
    = HtmlDiff.set_content _ this
        (HtmlDiff.content _ this ++ flat_map (Spec.renderOperation this) ops).
Proof.
  induction ops as [|op ops IH]; intros this Hops.
  { rewrite app_nil_r. destruct this; reflexivity. }
  inversion Hops as [|? ? Hop Hrest]; subst.
  cbn [fold_left flat_map]. rewrite performOperation_writes by exact Hop.
  rewrite IH by exact Hrest.
  unfold HtmlDiff.set_content; cbn. rewrite <- app_assoc. reflexivity.
Qed.

(** X19. Performing operations whose bounds are not negative appends to the
    content, in order, what each operation writes, and changes nothing else:
    an equal stretch is written from the new tokens as they are, a deletion
    from the old tokens and an insertion from the new tokens run by run, a
    replacement as a deletion followed by an insertion. *)
Theorem performOperation_rendering (this : state) (ops : list Operation.t)
    (Hops : Forall (fun op => 0 <= Operation.startInOld op
                              /\ 0 <= Operation.endInOld op
                              /\ 0 <= Operation.startInNew op
                              /\ 0 <= Operation.endInNew op) ops) :
  let after := fold_left (HtmlDiff.performOperation _) ops this in
  HtmlDiff.content _ after
  = HtmlDiff.content _ this ++ flat_map (Spec.renderOperation this) ops
  /\ HtmlDiff.oldWords _ after = HtmlDiff.oldWords _ this
  /\ HtmlDiff.newWords _ after = HtmlDiff.newWords _ this.
Proof.
  cbv zeta. rewrite performOperations_write by exact Hops.
  repeat split.
Qed.

End Rendering.

Lemma performOperation_rendering_witness :
  let this := Spec.orphanState ["a"; " "; "b"] ["a"; " "; "<b>"; "c"; "</b>"] 0 in
  let ops := [ {| Operation.action := Types.equal;
                  Operation.startInOld := 0; Operation.endInOld := 2;
                  Operation.startInNew := 0; Operation.endInNew := 2 |};
               {| Operation.action := Types.replace;
                  Operation.startInOld := 2; Operation.endInOld := 3;
                  Operation.startInNew := 2; Operation.endInNew := 5 |} ] in
  HtmlDiff.content _ (fold_left (HtmlDiff.performOperation _) ops this)
  = ["a "; "<del class=" ++ Js.dq ++ "diffmod" ++ Js.dq ++ ">b</del>";
     "<b><ins class=" ++ Js.dq ++ "diffmod" ++ Js.dq ++ ">c</ins></b>"]%string.
Proof.
  cbv zeta.
  refine (eq_trans (proj1 (performOperation_rendering Empty_set
              (Spec.orphanState ["a"; " "; "b"] ["a"; " "; "<b>"; "c"; "</b>"] 0)
              _ _)) _).
  - repeat constructor; cbn; lia.
  - vm_compute. reflexivity.
Defined.

(* ------------------------------------------------------------------ *)
(** ** An empty document *)

Lemma update_length {A} (l : list A) :
  forall k v, List.length (Js.update l k v) = List.length l.
Proof.
  induction l as [|x l IH]; intros k v; [reflexivity|].
  destruct k; simpl; [reflexivity|now rewrite IH].
Qed.

Lemma restore_len (m : list (Z * string)) :
  forall words, Js.len (HtmlDiff.restore words m) = Js.len words.
Proof.
  unfold HtmlDiff.restore.
  induction m as [|e m IH]; intros words; [reflexivity|].
  cbn [fold_left]. rewrite IH. unfold Js.len. now rewrite update_length.
Qed.

Lemma filterPos_all {A} (l l' : list A) :
  Js.len l = Js.len l' ->
  Js.filterPos (fun pos => (pos >=? 0) && (pos <? Js.len l')) 0 l = l.
Proof.
  intros H. rewrite filterPos_slice by (try apply len_nonneg; lia).
  rewrite <- H. rewrite slice_prefix by apply len_nonneg.
  unfold Js.len. rewrite Nat2Z.id. apply firstn_all.
Qed.

Section Empty.

Variable BlockExpression : Type.
Variable convertHtmlToListOfWords :
  string -> list BlockExpression -> list (string * option string).
Variable MatchFinder_findMatch :
  list string -> list string -> Z -> Z -> Z -> Z -> Types.MatchOptions ->
  option Match.t.

#[local] Abbreviation state := (HtmlDiff.t BlockExpression).

(** Without a word on one side the finder is not asked: the only match is
    the sentinel. *)
Lemma operations_one_side_empty (this : state) :
  HtmlDiff.matchGranularity _ this = 0 ->
  HtmlDiff.operations _ MatchFinder_findMatch this
  = HtmlDiff.operationsLoop
      [Some {| Match.startInOld := Js.len (HtmlDiff.oldWords _ this);
               Match.startInNew := Js.len (HtmlDiff.newWords _ this);
               Match.size := 0 |}] 0 0 [].
Proof.
  intros Hg. unfold HtmlDiff.operations, HtmlDiff.matchingBlocks.
  cbn [HtmlDiff.findMatchingBlocks]. unfold HtmlDiff.findMatch. rewrite Hg.
  reflexivity.
Qed.

Lemma diffWords_empty_old (this : state) :
  HtmlDiff.oldWords _ this = [] -> HtmlDiff.newWords _ this <> [] ->
  HtmlDiff.content _ this = [] ->
  HtmlDiff.diffWords _ MatchFinder_findMatch this
  = Some (HtmlDiff.insertTagRendering "ins" "diffins"
            (HtmlDiff.restore (HtmlDiff.newWords _ this)
               (HtmlDiff.originalWordsInNew _ this))).
Proof.
  intros Hold Hnew Hcontent. unfold HtmlDiff.diffWords.
  assert (Hlen : 0 < Js.len (HtmlDiff.newWords _ this)).
  { destruct (HtmlDiff.newWords _ this); [congruence|].
    rewrite len_cons. pose proof (len_nonneg l). lia. }
  rewrite Hold. change (Js.len (@nil string)) with 0.
  replace (Z.min (Z.min HtmlDiff.MatchGranularityMaximum 0)
             (Js.len (HtmlDiff.newWords _ this))) with 0
    by (unfold HtmlDiff.MatchGranularityMaximum; lia).
  rewrite operations_one_side_empty by reflexivity.
  cbn [HtmlDiff.oldWords HtmlDiff.newWords HtmlDiff.set_matchGranularity].
  rewrite Hold. change (Js.len (@nil string)) with 0.
  cbn [HtmlDiff.operationsLoop Match.startInOld Match.startInNew Match.size
       Match.endInOld Match.endInNew].
  replace (0 =? Js.len (HtmlDiff.newWords _ this)) with false
    by (symmetry; apply Z.eqb_neq; lia).
  cbn. rewrite ?Hcontent. unfold HtmlDiff.insertTagRendering, HtmlDiff.restore.
  rewrite !filterPos_all
    by exact (restore_len _ _).
  reflexivity.
Qed.

Lemma diffWords_empty_new (this : state) :
  HtmlDiff.newWords _ this = [] -> HtmlDiff.oldWords _ this <> [] ->
  HtmlDiff.content _ this = [] ->
  HtmlDiff.diffWords _ MatchFinder_findMatch this
  = Some (HtmlDiff.insertTagRendering "del" "diffdel"
            (HtmlDiff.restore (HtmlDiff.oldWords _ this)
               (HtmlDiff.originalWordsInOld _ this))).
Proof.
  intros Hnew Hold Hcontent. unfold HtmlDiff.diffWords.
  assert (Hlen : 0 < Js.len (HtmlDiff.oldWords _ this)).
  { destruct (HtmlDiff.oldWords _ this); [congruence|].
    rewrite len_cons. pose proof (len_nonneg l). lia. }
  rewrite Hnew. change (Js.len (@nil string)) with 0.
  replace (Z.min (Z.min HtmlDiff.MatchGranularityMaximum
                    (Js.len (HtmlDiff.oldWords _ this))) 0) with 0
    by (unfold HtmlDiff.MatchGranularityMaximum; lia).
  rewrite operations_one_side_empty by reflexivity.
  cbn [HtmlDiff.oldWords HtmlDiff.newWords HtmlDiff.set_matchGranularity].
  rewrite Hnew. change (Js.len (@nil string)) with 0.
  cbn [HtmlDiff.operationsLoop Match.startInOld Match.startInNew Match.size
       Match.endInOld Match.endInNew].
  replace (0 =? Js.len (HtmlDiff.oldWords _ this)) with false
    by (symmetry; apply Z.eqb_neq; lia).
  cbn. rewrite ?Hcontent. unfold HtmlDiff.insertTagRendering, HtmlDiff.restore.
  rewrite !filterPos_all
    by exact (restore_len _ _).
  reflexivity.
Qed.


Lemma detect_without_old_blocks (this : state) :
  HtmlDiff.oldBlocks _ this = [] -> HtmlDiff.detectBlockTypeChanges _ this = [].
Proof.
  intros H. unfold HtmlDiff.detectBlockTypeChanges.
  destruct (HtmlDiff.blockAnalyzer _ this) as [an|] eqn:Han; [|reflexivity].
  unfold HtmlDiff.matchBlocksByTypeSimilarity. rewrite Han, H.
  cbn [List.length Nat.add Z.of_nat].
  replace (HtmlDiff.backtrack _ _ _ 0 _ 0 0 []) with (@nil HtmlDiff.Anchor)
    by (destruct (List.length (HtmlDiff.newBlocks _ this)); reflexivity).
  cbn [app HtmlDiff.detectLoop HtmlDiff.oldIndex HtmlDiff.newIndex].
  rewrite H. reflexivity.
Qed.

Lemma detect_without_new_blocks (this : state) :
  HtmlDiff.newBlocks _ this = [] -> HtmlDiff.detectBlockTypeChanges _ this = [].
Proof.
  intros H. unfold HtmlDiff.detectBlockTypeChanges.
  destruct (HtmlDiff.blockAnalyzer _ this) as [an|] eqn:Han; [|reflexivity].
  unfold HtmlDiff.matchBlocksByTypeSimilarity. rewrite Han, H.
  cbn [List.length Z.of_nat].
  replace (HtmlDiff.backtrack _ _ _ _ 0 0 0 []) with (@nil HtmlDiff.Anchor).
  2:{ destruct (_ + 0)%nat; [reflexivity|]. cbn [HtmlDiff.backtrack].
      rewrite Z.ltb_irrefl, andb_false_r. reflexivity. }
  cbn [app HtmlDiff.detectLoop HtmlDiff.oldIndex HtmlDiff.newIndex].
  rewrite H.
  change (Js.len (Js.slice (@nil BlockAnalyzer.Block) (-1 + 1) (Js.len [])) =? 0)
    with true.
  rewrite orb_true_r. reflexivity.
Qed.

Lemma diff_empty_old (this : state) :
  HtmlDiff.content _ this = [] ->
  convertHtmlToListOfWords (HtmlDiff.oldText _ this)
    (HtmlDiff.blockExpressions _ this) = [] ->
  convertHtmlToListOfWords (HtmlDiff.newText _ this)
    (HtmlDiff.blockExpressions _ this) <> [] ->
  HtmlDiff.diff _ convertHtmlToListOfWords MatchFinder_findMatch this
  = Some (HtmlDiff.insertTagRendering "ins" "diffins"
            (map Spec.originalOf
               (convertHtmlToListOfWords (HtmlDiff.newText _ this)
                  (HtmlDiff.blockExpressions _ this)))).
Proof.
  intros Hcontent Hold Hnew.
  unfold HtmlDiff.diff. cbn [HtmlDiff.diffDepth]. unfold HtmlDiff.diffWith.
  destruct (String.eqb_spec (HtmlDiff.oldText _ this) (HtmlDiff.newText _ this))
    as [E|_]; [rewrite E in Hold; contradiction|].
  set (words := convertHtmlToListOfWords (HtmlDiff.newText _ this)
                  (HtmlDiff.blockExpressions _ this)) in *.
  assert (Hmap : map fst words <> []) by (destruct words; [congruence|discriminate]).
  cbv zeta.
  destruct (HtmlDiff.blockAnalyzer _ _) as [an|].
  - rewrite detect_without_old_blocks
      by (cbn; rewrite Hold; reflexivity).
    cbn [Js.len List.length Z.of_nat Z.gtb Z.compare].
    rewrite diffWords_empty_old.
    + cbn. fold words. unfold HtmlDiff.insertTagRendering.
      pose proof (restore_written words) as Hr. unfold HtmlDiff.restore in Hr.
      rewrite Hr. reflexivity.
    + cbn. rewrite Hold. reflexivity.
    + cbn. exact Hmap.
    + cbn. exact Hcontent.
  - rewrite diffWords_empty_old.
    + cbn. fold words. unfold HtmlDiff.insertTagRendering.
      pose proof (restore_written words) as Hr. unfold HtmlDiff.restore in Hr.
      rewrite Hr. reflexivity.
    + cbn. rewrite Hold. reflexivity.
    + cbn. exact Hmap.
    + cbn. exact Hcontent.
Qed.

Lemma diff_empty_new (this : state) :
  HtmlDiff.content _ this = [] ->
  convertHtmlToListOfWords (HtmlDiff.newText _ this)
    (HtmlDiff.blockExpressions _ this) = [] ->
  convertHtmlToListOfWords (HtmlDiff.oldText _ this)
    (HtmlDiff.blockExpressions _ this) <> [] ->
  HtmlDiff.diff _ convertHtmlToListOfWords MatchFinder_findMatch this
  = Some (HtmlDiff.insertTagRendering "del" "diffdel"
            (map Spec.originalOf
               (convertHtmlToListOfWords (HtmlDiff.oldText _ this)
                  (HtmlDiff.blockExpressions _ this)))).
Proof.
  intros Hcontent Hnew Hold.
  unfold HtmlDiff.diff. cbn [HtmlDiff.diffDepth]. unfold HtmlDiff.diffWith.
  destruct (String.eqb_spec (HtmlDiff.oldText _ this) (HtmlDiff.newText _ this))
    as [E|_]; [rewrite E in Hold; contradiction|].
  set (words := convertHtmlToListOfWords (HtmlDiff.oldText _ this)
                  (HtmlDiff.blockExpressions _ this)) in *.
  assert (Hmap : map fst words <> []) by (destruct words; [congruence|discriminate]).
  cbv zeta.
  destruct (HtmlDiff.blockAnalyzer _ _) as [an|].
  - rewrite detect_without_new_blocks
      by (cbn; rewrite Hnew; reflexivity).
    cbn [Js.len List.length Z.of_nat Z.gtb Z.compare].
    rewrite diffWords_empty_new.
    + cbn. fold words. unfold HtmlDiff.insertTagRendering.
      pose proof (restore_written words) as Hr. unfold HtmlDiff.restore in Hr.
      rewrite Hr. reflexivity.
    + cbn. rewrite Hnew. reflexivity.
    + cbn. exact Hmap.
    + cbn. exact Hcontent.
  - rewrite diffWords_empty_new.
    + cbn. fold words. unfold HtmlDiff.insertTagRendering.
      pose proof (restore_written words) as Hr. unfold HtmlDiff.restore in Hr.
      rewrite Hr. reflexivity.
    + cbn. rewrite Hnew. reflexivity.
    + cbn. exact Hmap.
    + cbn. exact Hcontent.
Qed.


Lemma addBlockExpression_fields (l : list BlockExpression) :
  forall this : state,
    HtmlDiff.content _ (fold_left (HtmlDiff.addBlockExpression _) l this)
    = HtmlDiff.content _ this
    /\ HtmlDiff.blockExpressions _ (fold_left (HtmlDiff.addBlockExpression _) l this)
       = HtmlDiff.blockExpressions _ this ++ l
    /\ HtmlDiff.oldText _ (fold_left (HtmlDiff.addBlockExpression _) l this)
       = HtmlDiff.oldText _ this
    /\ HtmlDiff.newText _ (fold_left (HtmlDiff.addBlockExpression _) l this)
       = HtmlDiff.newText _ this.
Proof.
  induction l as [|exp l IH]; intros this.
  { rewrite app_nil_r. repeat split. }
  cbn [fold_left]. destruct (IH (HtmlDiff.addBlockExpression _ this exp))
    as (H1 & H2 & H3 & H4).
  rewrite H1, H2, H3, H4. cbn. rewrite <- app_assoc. repeat split.
Qed.

(** The state that [index.ts] builds before it calls [diff()]. *)
Lemma entry_state (oldText newText : string)
    (options : Index.Options BlockExpression) :
  exists finder : state,
    Index.diff _ convertHtmlToListOfWords MatchFinder_findMatch
      oldText newText options
    = HtmlDiff.diff _ convertHtmlToListOfWords MatchFinder_findMatch finder
    /\ HtmlDiff.content _ finder = []
    /\ HtmlDiff.blockExpressions _ finder
       = match Index.blocksExpression options with Some l => l | None => [] end
    /\ HtmlDiff.oldText _ finder = oldText
    /\ HtmlDiff.newText _ finder = newText.
Proof.
  unfold Index.diff. eexists. split; [reflexivity|].
  destruct (Index.blocksExpression options) as [l|]; [|repeat split].
  destruct (addBlockExpression_fields l
              (HtmlDiff.constructor _ oldText newText
                 (Some {| HtmlDiff.blockDiff := Index.blockDiff options |})))
    as (H1 & H2 & H3 & H4).
  rewrite H1, H2, H3, H4. repeat split.
Qed.

(** X20. When the old text has no word and the new text has some, the whole
    new text is written as one insertion, whatever the options and the
    match finder, which is not asked. *)
Theorem diff_from_empty (oldText newText : string)
    (options : Index.Options BlockExpression)
    (Hold : convertHtmlToListOfWords oldText
              match Index.blocksExpression options with
              | Some l => l | None => [] end = [])
    (Hnew : convertHtmlToListOfWords newText
              match Index.blocksExpression options with
              | Some l => l | None => [] end <> []) :
  Index.diff _ convertHtmlToListOfWords MatchFinder_findMatch
    oldText newText options
  = Some (HtmlDiff.insertTagRendering "ins" "diffins"
            (map Spec.originalOf
               (convertHtmlToListOfWords newText
                  match Index.blocksExpression options with
                  | Some l => l | None => [] end))).
Proof.
  destruct (entry_state oldText newText options)
    as (finder & -> & Hc & He & Ho & Hn).
  rewrite <- He, <- Ho in Hold. rewrite <- He, <- Hn in Hnew.
  rewrite diff_empty_old by assumption. now rewrite He, Hn.
Qed.

(** X21. When the new text has no word and the old text has some, the whole
    old text is written as one deletion. *)
Theorem diff_to_empty (oldText newText : string)
    (options : Index.Options BlockExpression)
    (Hnew : convertHtmlToListOfWords newText
              match Index.blocksExpression options with
              | Some l => l | None => [] end = [])
    (Hold : convertHtmlToListOfWords oldText
              match Index.blocksExpression options with
              | Some l => l | None => [] end <> []) :
  Index.diff _ convertHtmlToListOfWords MatchFinder_findMatch
    oldText newText options
  = Some (HtmlDiff.insertTagRendering "del" "diffdel"
            (map Spec.originalOf
               (convertHtmlToListOfWords oldText
                  match Index.blocksExpression options with
                  | Some l => l | None => [] end))).
Proof.
  destruct (entry_state oldText newText options)
    as (finder & -> & Hc & He & Ho & Hn).
  rewrite <- He, <- Hn in Hnew. rewrite <- He, <- Ho in Hold.
  rewrite diff_empty_new by assumption. now rewrite He, Ho.
Qed.

End Empty.

Lemma diff_from_empty_witness :
  diffModel "" "<p class='lead'>Rest well</p>" Spec.blockDiffEnabled
  = Some ("<p class='lead'>" ++ HtmlDiff.marker "ins" "diffins" "Rest well"
          ++ "</p>")%string.
Proof.
  unfold diffModel.
  rewrite (diff_from_empty Empty_set WordSplitter.convertHtmlToListOfWords
             MatchFinder.findMatch "" "<p class='lead'>Rest well</p>"
             Spec.blockDiffEnabled);
    [reflexivity|reflexivity|discriminate].
Defined.

Lemma diff_to_empty_witness :
  diffModel "<p class='lead'>Rest well</p>" "" Spec.blockDiffEnabled
  = Some ("<p class='lead'>" ++ HtmlDiff.marker "del" "diffdel" "Rest well"
          ++ "</p>")%string.
Proof.
  unfold diffModel.
  rewrite (diff_to_empty Empty_set WordSplitter.convertHtmlToListOfWords
             MatchFinder.findMatch "<p class='lead'>Rest well</p>" ""
             Spec.blockDiffEnabled);
    [reflexivity|reflexivity|discriminate].
Defined.

(* ------------------------------------------------------------------ *)
(** ** [diff] returns *)

Section Returns.

Variable BlockExpression : Type.
Variable convertHtmlToListOfWords :
  string -> list BlockExpression -> list (string * option string).
Variable MatchFinder_findMatch :
  list string -> list string -> Z -> Z -> Z -> Z -> Types.MatchOptions ->
  option Match.t.
Hypothesis finder_in_window : Spec.finderInWindow MatchFinder_findMatch.

#[local] Abbreviation state := (HtmlDiff.t BlockExpression).
#[local] Abbreviation total :=
  (fun subDiff : string -> string -> option string =>
     forall oldText newText, exists s, subDiff oldText newText = Some s).

Lemma operations_return (this : state) :
  exists ops, HtmlDiff.operations _ MatchFinder_findMatch this = Some ops.
Proof.
  set (lo := Js.len (HtmlDiff.oldWords _ this)).
  set (ln := Js.len (HtmlDiff.newWords _ this)).
  assert (Hlo : 0 <= lo) by apply len_nonneg.
  assert (Hln : 0 <= ln) by apply len_nonneg.
  unfold HtmlDiff.operations, HtmlDiff.matchingBlocks. fold lo ln.
  destruct (findMatchingBlocks_ordered BlockExpression MatchFinder_findMatch
              finder_in_window
              (S (List.length (HtmlDiff.oldWords _ this)
                  + List.length (HtmlDiff.newWords _ this)))
              this 0 lo 0 ln []) as (ms & -> & Hord & _);
    [lia|lia|unfold lo, ln, Js.len; lia|].
  simpl app.
  set (sentinel := {| Match.startInOld := lo; Match.startInNew := ln;
                      Match.size := 0 |}).
  assert (Hall : Spec.ordered (ms ++ [sentinel]) 0 0 lo ln).
  { eapply ordered_app; [exact Hord|]. simpl.
    unfold Match.endInOld, Match.endInNew. simpl. lia. }
  unfold HtmlDiff.removeOrphans.
  destruct (ms ++ [sentinel]) as [|curr rest] eqn:E.
  { destruct ms; discriminate. }
  destruct (removeOrphansLoop_ordered BlockExpression this rest
              (Spec.mkMatch 0 0 0) curr 0 0 lo ln Hall) as (init & Hloop & Hord').
  unfold Spec.mkMatch in Hloop. rewrite Hloop.
  destruct (operationsLoop_tiles _ 0 0 lo ln [] Hord') as (ops & -> & _).
  now exists ops.
Qed.

Lemma diffWords_returns (this : state) :
  exists s, HtmlDiff.diffWords _ MatchFinder_findMatch this = Some s.
Proof.
  unfold HtmlDiff.diffWords.
  destruct (operations_return
              (HtmlDiff.set_matchGranularity _ this
                 (Z.min (Z.min HtmlDiff.MatchGranularityMaximum
                           (Js.len (HtmlDiff.oldWords _ this)))
                    (Js.len (HtmlDiff.newWords _ this))))) as (ops & ->).
  eexists. reflexivity.
Qed.

Lemma diffWordRanges_returns (subDiff : string -> string -> option string)
    (oldWords newWords : list string) :
  total subDiff ->
  exists s, HtmlDiff.diffWordRanges subDiff oldWords newWords = Some s.
Proof.
  intros Hsub. unfold HtmlDiff.diffWordRanges.
  destruct (_ && _); [eexists; reflexivity|].
  destruct (String.eqb _ _); [eexists; reflexivity|apply Hsub].
Qed.

Lemma blockChangesLoop_returns (subDiff : string -> string -> option string)
    (this : state) (changes : list HtmlDiff.Change) :
  total subDiff ->
  forall oldPos newPos result,
    exists r,
      HtmlDiff.blockChangesLoop _ subDiff this changes oldPos newPos result
      = Some r.
Proof.
  intros Hsub. induction changes as [|change changes IH];
    intros oldPos newPos result; [eexists; reflexivity|].
  cbn [HtmlDiff.blockChangesLoop].
  destruct (_ || _); [|apply IH].
  destruct (_ || _); [|apply IH].
  destruct (diffWordRanges_returns subDiff
              (Js.slice (HtmlDiff.oldWords _ this) oldPos
                 (HtmlDiff.oldStart change))
              (Js.slice (HtmlDiff.newWords _ this) newPos
                 (HtmlDiff.newStart change)) Hsub) as (s & ->).
  apply IH.
Qed.

Lemma diffWithBlockTypeChanges_returns
    (subDiff : string -> string -> option string) (this : state)
    (changes : list HtmlDiff.Change) :
  total subDiff ->
  exists s, HtmlDiff.diffWithBlockTypeChanges _ subDiff this changes = Some s.
Proof.
  intros Hsub. unfold HtmlDiff.diffWithBlockTypeChanges.
  destruct (blockChangesLoop_returns subDiff this changes Hsub 0 0 [])
    as ([[result oldPos] newPos] & ->).
  destruct (_ || _); [|eexists; reflexivity].
  destruct (_ || _); [|eexists; reflexivity].
  destruct (diffWordRanges_returns subDiff
              (Js.sliceFrom (HtmlDiff.oldWords _ this) oldPos)
              (Js.sliceFrom (HtmlDiff.newWords _ this) newPos) Hsub) as (s & ->).
  eexists. reflexivity.
Qed.

Lemma diffWith_returns (subDiff : string -> string -> option string)
    (this : state) :
  total subDiff ->
  exists s,
    HtmlDiff.diffWith _ convertHtmlToListOfWords MatchFinder_findMatch
      subDiff this = Some s.
Proof.
  intros Hsub. unfold HtmlDiff.diffWith.
  destruct (String.eqb _ _); [eexists; reflexivity|]. cbv zeta.
  destruct (HtmlDiff.blockAnalyzer _ _) as [an|]; [|apply diffWords_returns].
  destruct (_ >? 0);
    [now apply diffWithBlockTypeChanges_returns|apply diffWords_returns].
Qed.

(** An instance without a block analyzer never starts a nested diff. *)
Lemma diffWith_flat (sub1 sub2 : string -> string -> option string)
    (this : state) :
  HtmlDiff.blockAnalyzer _ this = None ->
  HtmlDiff.diffWith _ convertHtmlToListOfWords MatchFinder_findMatch sub1 this
  = HtmlDiff.diffWith _ convertHtmlToListOfWords MatchFinder_findMatch sub2 this.
Proof.
  intros Han. unfold HtmlDiff.diffWith.
  destruct (String.eqb _ _); [reflexivity|]. cbv zeta.
  replace (HtmlDiff.blockAnalyzer _
             (HtmlDiff.splitInputsIntoWords _ convertHtmlToListOfWords this))
    with (@None BlockAnalyzer.t) by (symmetry; exact Han).
  reflexivity.
Qed.

Lemma diffWordRanges_ext (sub1 sub2 : string -> string -> option string)
    (oldWords newWords : list string) :
  (forall o n, sub1 o n = sub2 o n) ->
  HtmlDiff.diffWordRanges sub1 oldWords newWords
  = HtmlDiff.diffWordRanges sub2 oldWords newWords.
Proof.
  intros H. unfold HtmlDiff.diffWordRanges.
  destruct (_ && _); [reflexivity|]. destruct (String.eqb _ _); [reflexivity|].
  apply H.
Qed.

Lemma blockChangesLoop_ext (sub1 sub2 : string -> string -> option string)
    (this : state) (changes : list HtmlDiff.Change) :
  (forall o n, sub1 o n = sub2 o n) ->
  forall oldPos newPos result,
    HtmlDiff.blockChangesLoop _ sub1 this changes oldPos newPos result
    = HtmlDiff.blockChangesLoop _ sub2 this changes oldPos newPos result.
Proof.
  intros H. induction changes as [|change changes IH];
    intros oldPos newPos result; [reflexivity|].
  cbn [HtmlDiff.blockChangesLoop].
  rewrite (diffWordRanges_ext sub1 sub2 _ _ H).
  destruct (_ || _); [|apply IH].
  destruct (_ || _); [|apply IH].
  destruct (HtmlDiff.diffWordRanges sub2 _ _); [apply IH|reflexivity].
Qed.

Lemma diffWith_ext (sub1 sub2 : string -> string -> option string)
    (this : state) :
  (forall o n, sub1 o n = sub2 o n) ->
  HtmlDiff.diffWith _ convertHtmlToListOfWords MatchFinder_findMatch sub1 this
  = HtmlDiff.diffWith _ convertHtmlToListOfWords MatchFinder_findMatch sub2 this.
Proof.
  intros H. unfold HtmlDiff.diffWith.
  destruct (String.eqb _ _); [reflexivity|]. cbv zeta.
  destruct (HtmlDiff.blockAnalyzer _ _) as [an|]; [|reflexivity].
  destruct (_ >? 0); [|reflexivity].
  unfold HtmlDiff.diffWithBlockTypeChanges.
  rewrite (blockChangesLoop_ext sub1 sub2 _ _ H).
  destruct (HtmlDiff.blockChangesLoop _ sub2 _ _ _ _ _) as [[[result oldPos] newPos]|];
    [|reflexivity].
  destruct (_ || _); [|reflexivity].
  destruct (_ || _); [|reflexivity].
  now rewrite (diffWordRanges_ext sub1 sub2 _ _ H).
Qed.

(** The nested diff of [diffWordRanges]: an instance built without
    options. *)
Lemma nested_diff (depth : nat) (oldText newText : string) :
  HtmlDiff.diffDepth _ convertHtmlToListOfWords MatchFinder_findMatch
    (S depth) (HtmlDiff.constructor _ oldText newText None)
  = HtmlDiff.diffDepth _ convertHtmlToListOfWords MatchFinder_findMatch
      1 (HtmlDiff.constructor _ oldText newText None).
Proof. cbn [HtmlDiff.diffDepth]. now apply diffWith_flat. Qed.

Lemma nested_diff_returns (oldText newText : string) :
  exists s,
    HtmlDiff.diffDepth _ convertHtmlToListOfWords MatchFinder_findMatch
      1 (HtmlDiff.constructor _ oldText newText None) = Some s.
Proof.
  cbn [HtmlDiff.diffDepth]. unfold HtmlDiff.diffWith.
  destruct (String.eqb _ _); [eexists; reflexivity|]. cbv zeta.
  change (HtmlDiff.blockAnalyzer _
            (HtmlDiff.splitInputsIntoWords _ convertHtmlToListOfWords
               (HtmlDiff.constructor _ oldText newText None)))
    with (@None BlockAnalyzer.t).
  apply diffWords_returns.
Qed.

(** X22. With a match finder that answers inside its windows, [diff()]
    returns, whatever the state of the instance: the recursion of
    [findMatchingBlocks] ends, no [null] match is read, and a nested diff
    never starts a nested diff of its own, so that allowing more nesting
    changes nothing. *)
Theorem diff_returns (this : state) :
  exists s,
    HtmlDiff.diff _ convertHtmlToListOfWords MatchFinder_findMatch this = Some s
    /\ forall depth,
         HtmlDiff.diffDepth _ convertHtmlToListOfWords MatchFinder_findMatch
           (2 + depth) this = Some s.
Proof.
  unfold HtmlDiff.diff.
  destruct (diffWith_returns
              (fun oldText newText =>
                 HtmlDiff.diffDepth _ convertHtmlToListOfWords
                   MatchFinder_findMatch 1
                   (HtmlDiff.constructor _ oldText newText None)) this
              nested_diff_returns) as (s & Hs).
  exists s. split; [exact Hs|]. intros depth.
  rewrite <- Hs. change (2 + depth)%nat with (S (S depth)).
  cbn [HtmlDiff.diffDepth]. apply diffWith_ext. intros o n.
  apply (nested_diff depth).
Qed.

End Returns.

Lemma diff_returns_witness :
  Spec.finderInWindow MatchFinder.findMatch
  /\ exists s,
       diffModel "<p>Rest well</p>" "<ul><li>Rest</li></ul>" Spec.blockDiffEnabled
       = Some s.
Proof.
  split; [exact modelled_finder_in_window|].
  destruct (diff_returns Empty_set WordSplitter.convertHtmlToListOfWords
              MatchFinder.findMatch modelled_finder_in_window
              (HtmlDiff.constructor Empty_set "<p>Rest well</p>"
                 "<ul><li>Rest</li></ul>"
                 (Some {| HtmlDiff.blockDiff := Some Spec.blockDiffOn |})))
    as (s & Hs & _).
  exists s. exact Hs.
Defined.

(* ------------------------------------------------------------------ *)
(** ** The alignment is the best one *)

Section Optimal.

Variable score : Z -> Z -> Z.
Variables oldCount newCount : nat.

#[local] Abbreviation dp := (HtmlDiff.dpTable score oldCount newCount).
#[local] Abbreviation D := (HtmlDiff.cell dp).
#[local] Abbreviation oc := (Z.of_nat oldCount).
#[local] Abbreviation nc := (Z.of_nat newCount).

Lemma cell_nonneg_from (a : nat) :
  forall (b : nat) (i j : Z),
    i = oc - Z.of_nat a -> j = nc - Z.of_nat b -> 0 <= i -> 0 <= j ->
    0 <= D i j.
Proof.
  induction a as [|a IHa]; intros b i j Hi Hj Hi0 Hj0.
  - replace i with oc by lia. rewrite cell_last_row. lia.
  - induction b as [|b IHb] in j, Hj, Hj0 |- *.
    + replace j with nc by lia. rewrite cell_last_column by lia. lia.
    + rewrite cell_recurrence by lia.
      pose proof (IHa (S b) (i + 1) j ltac:(lia) ltac:(lia) ltac:(lia) ltac:(lia)).
      lia.
Qed.

Lemma cell_nonneg (i j : Z) : 0 <= i <= oc -> 0 <= j <= nc -> 0 <= D i j.
Proof.
  intros Hi Hj.
  apply (cell_nonneg_from (Z.to_nat (oc - i)) (Z.to_nat (nc - j))); lia.
Qed.

Lemma cell_skip_old (i j : Z) :
  0 <= i < oc -> 0 <= j <= nc -> D (i + 1) j <= D i j.
Proof.
  intros Hi Hj. destruct (Z.eq_dec j nc) as [->|Hne].
  - rewrite !cell_last_column by lia. lia.
  - rewrite (cell_recurrence score oldCount newCount i j) by lia. lia.
Qed.

Lemma cell_skip_new (i j : Z) :
  0 <= i <= oc -> 0 <= j < nc -> D i (j + 1) <= D i j.
Proof.
  intros Hi Hj. destruct (Z.eq_dec i oc) as [->|Hne].
  - rewrite !cell_last_row. lia.
  - rewrite (cell_recurrence score oldCount newCount i j) by lia. lia.
Qed.

Lemma cell_skip_olds (n : nat) :
  forall i j, 0 <= i -> i + Z.of_nat n <= oc -> 0 <= j <= nc ->
    D (i + Z.of_nat n) j <= D i j.
Proof.
  induction n as [|n IH]; intros i j Hi Hn Hj.
  - rewrite Z.add_0_r. lia.
  - replace (i + Z.of_nat (S n)) with (i + 1 + Z.of_nat n) by lia.
    pose proof (IH (i + 1) j ltac:(lia) ltac:(lia) Hj).
    pose proof (cell_skip_old i j ltac:(lia) Hj). lia.
Qed.

Lemma cell_skip_news (n : nat) :
  forall i j, 0 <= i <= oc -> 0 <= j -> j + Z.of_nat n <= nc ->
    D i (j + Z.of_nat n) <= D i j.
Proof.
  induction n as [|n IH]; intros i j Hi Hj Hn.
  - rewrite Z.add_0_r. lia.
  - replace (j + Z.of_nat (S n)) with (j + 1 + Z.of_nat n) by lia.
    pose proof (IH i (j + 1) Hi ltac:(lia) ltac:(lia)).
    pose proof (cell_skip_new i j Hi ltac:(lia)). lia.
Qed.

Lemma cell_monotone (i j i' j' : Z) :
  0 <= i <= i' -> i' <= oc -> 0 <= j <= j' -> j' <= nc ->
  D i' j' <= D i j.
Proof.
  intros Hi Hi' Hj Hj'.
  pose proof (cell_skip_olds (Z.to_nat (i' - i)) i j ltac:(lia) ltac:(lia)
                ltac:(lia)) as H1.
  pose proof (cell_skip_news (Z.to_nat (j' - j)) i' j ltac:(lia) ltac:(lia)
                ltac:(lia)) as H2.
  replace (i + Z.of_nat (Z.to_nat (i' - i))) with i' in H1 by lia.
  replace (j + Z.of_nat (Z.to_nat (j' - j))) with j' in H2 by lia.
  lia.
Qed.

(** No alignment weighs more than the cell it starts from. *)
Lemma chain_weight_le (l : list HtmlDiff.Anchor) :
  forall i j, 0 <= i <= oc -> 0 <= j <= nc ->
    Spec.chain l i j oc nc -> Spec.weight score l <= D i j.
Proof.
  induction l as [|a l IH]; intros i j Hi Hj Hchain.
  - cbn [Spec.weight fold_right]. now apply cell_nonneg.
  - destruct Hchain as (Ha & Hb & Hrest).
    change (Spec.weight score (a :: l))
      with (score (HtmlDiff.oldIndex a) (HtmlDiff.newIndex a)
            + Spec.weight score l).
    pose proof (IH (HtmlDiff.oldIndex a + 1) (HtmlDiff.newIndex a + 1)
                  ltac:(lia) ltac:(lia) Hrest) as Hl.
    pose proof (cell_monotone i j (HtmlDiff.oldIndex a) (HtmlDiff.newIndex a)
                  ltac:(lia) ltac:(lia) ltac:(lia) ltac:(lia)) as Hm.
    pose proof (cell_recurrence score oldCount newCount
                  (HtmlDiff.oldIndex a) (HtmlDiff.newIndex a)
                  ltac:(lia) ltac:(lia)) as Hrec.
    pose proof (cell_monotone (HtmlDiff.oldIndex a) (HtmlDiff.newIndex a)
                  (HtmlDiff.oldIndex a + 1) (HtmlDiff.newIndex a + 1)
                  ltac:(lia) ltac:(lia) ltac:(lia) ltac:(lia)) as Hd.
    destruct (Z.gtb_spec (score (HtmlDiff.oldIndex a) (HtmlDiff.newIndex a)) 0);
      lia.
Qed.

(** The walk back through the table collects the weight of the cell it
    starts from. *)
Lemma backtrack_weight (fuel : nat) :
  forall i j : Z,
    0 <= i <= oc -> 0 <= j <= nc ->
    (Z.to_nat (oc - i) + Z.to_nat (nc - j) <= fuel)%nat ->
    Spec.weight score (HtmlDiff.backtrack fuel score dp oc nc i j []) = D i j.
Proof.
  induction fuel as [|fuel IH]; intros i j Hi Hj Hfuel.
  - assert (i = oc \/ j = nc) as [->| ->] by lia.
    + now rewrite cell_last_row.
    + now rewrite cell_last_column by lia.
  - cbn [HtmlDiff.backtrack].
    destruct (Z.ltb_spec i oc) as [Hlt|Hge].
    2:{ replace i with oc by lia. now rewrite cell_last_row. }
    destruct (Z.ltb_spec j nc) as [Hjlt|Hjge].
    2:{ replace j with nc by lia. now rewrite cell_last_column by lia. }
    cbn [andb].
    pose proof (cell_recurrence score oldCount newCount i j ltac:(lia) ltac:(lia))
      as Hrec.
    pose proof (cell_nonneg (i + 1) j ltac:(lia) ltac:(lia)) as N1.
    pose proof (cell_nonneg i (j + 1) ltac:(lia) ltac:(lia)) as N2.
    destruct (Z.gtb_spec (score i j) 0) as [Hpos|Hneg];
      [destruct (Z.eqb_spec (D i j) (D (i + 1) (j + 1) + score i j)) as [Heq|Hneq]|];
      cbn [andb].
    + rewrite backtrack_acc. cbn [app].
      change (Spec.weight score (?a :: ?l))
        with (score (HtmlDiff.oldIndex a) (HtmlDiff.newIndex a)
              + Spec.weight score l).
      cbn [HtmlDiff.oldIndex HtmlDiff.newIndex]. rewrite IH by lia. lia.
    + destruct (Z.geb_spec (D (i + 1) j) (D i (j + 1))) as [Hc|Hc];
        rewrite IH by lia; lia.
    + destruct (Z.geb_spec (D (i + 1) j) (D i (j + 1))) as [Hc|Hc];
        rewrite IH by lia; lia.
Qed.

Lemma backtrack_scores (fuel : nat) :
  forall i j,
    Forall (fun a => 0 < score (HtmlDiff.oldIndex a) (HtmlDiff.newIndex a))
      (HtmlDiff.backtrack fuel score dp oc nc i j []).
Proof.
  induction fuel as [|fuel IH]; intros i j; [constructor|].
  cbn [HtmlDiff.backtrack].
  destruct ((i <? oc) && (j <? nc)); [|constructor].
  destruct (Z.gtb_spec (score i j) 0) as [Hpos|Hneg]; cbn [andb].
  - destruct (_ =? _).
    + rewrite backtrack_acc. cbn [app]. constructor; [|apply IH].
      cbn [HtmlDiff.oldIndex HtmlDiff.newIndex]. lia.
    + destruct (_ >=? _); apply IH.
  - destruct (_ >=? _); apply IH.
Qed.

End Optimal.

Section Alignment.

Variable BlockExpression : Type.
Variable this : HtmlDiff.t BlockExpression.

#[local] Abbreviation oldBlocks := (HtmlDiff.oldBlocks BlockExpression this).
#[local] Abbreviation newBlocks := (HtmlDiff.newBlocks BlockExpression this).
#[local] Abbreviation score := (HtmlDiff.scoreForMatch BlockExpression this).

(** X23. Of all the ways to pair old blocks with new blocks in ascending
    order, none has a higher total score than the one that
    [matchBlocksByTypeSimilarity] returns. *)
Theorem alignment_is_optimal (l : list HtmlDiff.Anchor)
    (Hchain : Spec.chain l 0 0 (Js.len oldBlocks) (Js.len newBlocks)) :
  Spec.weight score l
  <= Spec.weight score (HtmlDiff.matchBlocksByTypeSimilarity _ this).
Proof.
  unfold HtmlDiff.matchBlocksByTypeSimilarity.
  destruct (HtmlDiff.blockAnalyzer _ this) as [an|] eqn:Han.
  - rewrite backtrack_weight by (pose proof (len_nonneg oldBlocks); lia).
    apply chain_weight_le; [lia|lia|exact Hchain].
  - cbn [Spec.weight fold_right]. clear Hchain.
    induction l as [|a l IH]; [cbn; lia|].
    change (Spec.weight score (a :: l))
      with (score (HtmlDiff.oldIndex a) (HtmlDiff.newIndex a)
            + Spec.weight score l).
    replace (score (HtmlDiff.oldIndex a) (HtmlDiff.newIndex a)) with 0; [lia|].
    unfold HtmlDiff.scoreForMatch. rewrite Han.
    destruct (Js.lookup oldBlocks (HtmlDiff.oldIndex a)),
      (Js.lookup newBlocks (HtmlDiff.newIndex a)); reflexivity.
Qed.

(** X24. [matchBlocksByTypeSimilarity] only pairs two blocks that both exist
    and have the same type, and whose score is positive. *)
Theorem anchors_pair_same_types :
  Forall
    (fun a =>
       exists an oldBlock newBlock,
         HtmlDiff.blockAnalyzer _ this = Some an
         /\ Js.lookup oldBlocks (HtmlDiff.oldIndex a) = Some oldBlock
         /\ Js.lookup newBlocks (HtmlDiff.newIndex a) = Some newBlock
         /\ BlockAnalyzer.isSameBlockType an (Some oldBlock) (Some newBlock) = true
         /\ 0 < score (HtmlDiff.oldIndex a) (HtmlDiff.newIndex a))
    (HtmlDiff.matchBlocksByTypeSimilarity _ this).
Proof.
  unfold HtmlDiff.matchBlocksByTypeSimilarity.
  destruct (HtmlDiff.blockAnalyzer _ this) as [an|] eqn:Han; [|constructor].
  eapply Forall_impl; [|apply backtrack_scores]. cbv beta.
  intros a Hpos. pose proof Hpos as Hpos'.
  unfold HtmlDiff.scoreForMatch in Hpos. rewrite Han in Hpos.
  destruct (Js.lookup oldBlocks (HtmlDiff.oldIndex a)) as [ob|]; [|lia].
  destruct (Js.lookup newBlocks (HtmlDiff.newIndex a)) as [nb|]; [|lia].
  destruct (BlockAnalyzer.isSameBlockType an (Some ob) (Some nb)) eqn:E;
    cbn [negb] in Hpos; [|lia].
  exists an, ob, nb. repeat split; trivial.
Qed.

End Alignment.

Lemma alignment_is_optimal_witness :
  let this :=
    Spec.alignState
      (Spec.tokens "<h2>A</h2><p>one two</p><p>three</p>")
      (Spec.tokens "<h2>A</h2><p>three</p>") Spec.blockDiffOn in
  let l := [{| HtmlDiff.oldIndex := 0; HtmlDiff.newIndex := 0 |};
            {| HtmlDiff.oldIndex := 1; HtmlDiff.newIndex := 1 |}] in
  Spec.weight (HtmlDiff.scoreForMatch _ this) l
  <= Spec.weight (HtmlDiff.scoreForMatch _ this)
       (HtmlDiff.matchBlocksByTypeSimilarity _ this).
Proof.
  cbv zeta.
  apply (alignment_is_optimal Empty_set
           (Spec.alignState
              (Spec.tokens "<h2>A</h2><p>one two</p><p>three</p>")
              (Spec.tokens "<h2>A</h2><p>three</p>") Spec.blockDiffOn)).
  vm_compute. repeat split; discriminate.
Defined.

(* ------------------------------------------------------------------ *)
(** ** The word-level diff, written out *)

Lemma tiles_inside (ops : list Operation.t) :
  forall a b c d, 0 <= a -> 0 <= b -> Spec.tiles ops a b c d ->
    Forall (fun op => 0 <= Operation.startInOld op /\ 0 <= Operation.endInOld op
                      /\ 0 <= Operation.startInNew op
                      /\ 0 <= Operation.endInNew op) ops.
Proof.
  induction ops as [|op ops IH]; intros a b c d Ha Hb H; [constructor|].
  destruct H as (H1 & H2 & H3 & H4 & H). constructor; [lia|].
  apply (IH (Operation.endInOld op) (Operation.endInNew op) c d);
    [lia|lia|exact H].
Qed.

Section Written.

Variable BlockExpression : Type.
Variable MatchFinder_findMatch :
  list string -> list string -> Z -> Z -> Z -> Z -> Types.MatchOptions ->
  option Match.t.
Hypothesis finder_in_window : Spec.finderInWindow MatchFinder_findMatch.

#[local] Abbreviation state := (HtmlDiff.t BlockExpression).

(** X25. With a match finder that answers inside its windows, the
    word-level part of [diff()] returns the concatenation, in order, of what
    each operation of [operations()] writes, read on the words with their
    original forms put back. *)
Theorem diffWords_rendering (this : state) :
  exists ops,
    HtmlDiff.operations _ MatchFinder_findMatch
      (HtmlDiff.set_matchGranularity _ this (Spec.granularity this)) = Some ops
    /\ HtmlDiff.diffWords _ MatchFinder_findMatch this
       = Some (Js.join
                 (HtmlDiff.content _ this
                  ++ flat_map (Spec.renderOperation (Spec.restored this)) ops)).
Proof.
  unfold HtmlDiff.diffWords. fold (Spec.granularity this).
  set (this1 := HtmlDiff.set_matchGranularity _ this (Spec.granularity this)).
  destruct (operations_matches BlockExpression MatchFinder_findMatch
              finder_in_window this1) as (ms & Hops & Hord & _).
  destruct (operationsLoop_tiles ms 0 0 _ _ [] Hord) as (ops & Hloop & Htiles).
  rewrite Hops, Hloop. exists ops. split; [reflexivity|].
  cbn [app]. rewrite performOperations_write
    by (eapply tiles_inside; [| |exact Htiles]; lia).
  reflexivity.
Qed.

End Written.

Lemma diffWords_rendering_witness :
  Spec.finderInWindow MatchFinder.findMatch
  /\ exists ops,
       HtmlDiff.operations _ MatchFinder.findMatch
         (HtmlDiff.set_matchGranularity _
            (Spec.orphanState ["a"; " "; "b"] ["a"; " "; "c"] 0) 3) = Some ops
       /\ HtmlDiff.diffWords _ MatchFinder.findMatch
            (Spec.orphanState ["a"; " "; "b"] ["a"; " "; "c"] 0)
          = Some (Js.join
                    (flat_map
                       (Spec.renderOperation
                          (Spec.restored
                             (Spec.orphanState ["a"; " "; "b"] ["a"; " "; "c"] 0)))
                       ops)).
Proof.
  split; [exact modelled_finder_in_window|].
  exact (diffWords_rendering Empty_set MatchFinder.findMatch
           modelled_finder_in_window
           (Spec.orphanState ["a"; " "; "b"] ["a"; " "; "c"] 0)).
Defined.

(* ------------------------------------------------------------------ *)
(** ** The order of the blocks *)

(** X26. The blocks that [findBlocks] reports are in ascending order, do
    not overlap and lie inside the word array; the loop already finds them
    in this order, so the final sort changes nothing. *)
Theorem findBlocks_in_order (this : BlockAnalyzer.t) (words : list string) :
  Spec.blocksOrdered (BlockAnalyzer.findBlocks this words) 0 (Js.len words)
  /\ BlockAnalyzer.findBlocks this words
     = BlockAnalyzer.findBlocksLoop this words 0 [] [] 0.
Proof.
  pose proof (findBlocksLoop_ordered this words 0 0 [] [] 0 eq_refl I) as H.
  simpl in H. specialize (H ltac:(lia) ltac:(lia) (Forall_nil _)).
  assert (Hsort : BlockAnalyzer.findBlocks this words
                  = BlockAnalyzer.findBlocksLoop this words 0 [] [] 0).
  { unfold BlockAnalyzer.findBlocks, BlockAnalyzer.sortBlocks.
    now rewrite (sortBlocks_ordered _ [] 0 (Js.len words)). }
  split; [rewrite Hsort; exact H|exact Hsort].
Qed.

(* ------------------------------------------------------------------ *)
(** ** The block sizes that [findMatch] tries *)

Section Sizes.

Variable BlockExpression : Type.
Variable MatchFinder_findMatch :
  list string -> list string -> Z -> Z -> Z -> Z -> Types.MatchOptions ->
  option Match.t.
Variable this : HtmlDiff.t BlockExpression.
Variables startInOld endInOld startInNew endInNew : Z.

#[local] Abbreviation ask :=
  (fun size : Z =>
     MatchFinder_findMatch (HtmlDiff.oldWords _ this) (HtmlDiff.newWords _ this)
       startInOld endInOld startInNew endInNew
       {| Types.blockSize := size;
          Types.repeatingWordsAccuracy := HtmlDiff.repeatingWordsAccuracy _ this;
          Types.ignoreWhitespaceDifferences :=
            HtmlDiff.ignoreWhiteSpaceDifferences _ this |}).

Lemma findMatchFrom_largest_first (i : nat) :
  match HtmlDiff.findMatchFrom _ MatchFinder_findMatch this i
          startInOld endInOld startInNew endInNew with
  | Some m =>
      exists size, 1 <= size <= Z.of_nat i /\ ask size = Some m
        /\ forall size', size < size' <= Z.of_nat i -> ask size' = None
  | None => forall size, 1 <= size <= Z.of_nat i -> ask size = None
  end.
Proof.
  induction i as [|i IH]; [intros size Hsize; lia|].
  cbn [HtmlDiff.findMatchFrom].
  destruct (MatchFinder_findMatch _ _ _ _ _ _ _) as [m|] eqn:E.
  - exists (Z.of_nat (S i)). split; [lia|]. split; [exact E|]. intros; lia.
  - destruct (HtmlDiff.findMatchFrom _ _ _ _ _ _ _ _) as [m|].
    + destruct IH as (size & H1 & H2 & H3). exists size.
      split; [lia|]. split; [exact H2|]. intros size' Hsize'.
      destruct (Z.eq_dec size' (Z.of_nat (S i))) as [->|Hne]; [exact E|].
      apply H3. lia.
    + intros size Hsize.
      destruct (Z.eq_dec size (Z.of_nat (S i))) as [->|Hne]; [exact E|].
      apply IH. lia.
Qed.

(** X27. [findMatch] asks the match finder for the block sizes from
    [matchGranularity] down to 1 and returns the first answer: the answer
    for the largest size that has one.  With a granularity of 0 (an empty
    side) it returns [null] without asking. *)
Theorem findMatch_largest_first :
  match HtmlDiff.findMatch _ MatchFinder_findMatch this
          startInOld endInOld startInNew endInNew with
  | Some m =>
      exists size,
        1 <= size <= HtmlDiff.matchGranularity _ this
        /\ MatchFinder_findMatch (HtmlDiff.oldWords _ this)
             (HtmlDiff.newWords _ this) startInOld endInOld startInNew endInNew
             {| Types.blockSize := size;
                Types.repeatingWordsAccuracy :=
                  HtmlDiff.repeatingWordsAccuracy _ this;
                Types.ignoreWhitespaceDifferences :=
                  HtmlDiff.ignoreWhiteSpaceDifferences _ this |} = Some m
        /\ forall size',
             size < size' <= HtmlDiff.matchGranularity _ this ->
             MatchFinder_findMatch (HtmlDiff.oldWords _ this)
               (HtmlDiff.newWords _ this) startInOld endInOld startInNew endInNew
               {| Types.blockSize := size';
                  Types.repeatingWordsAccuracy :=
                    HtmlDiff.repeatingWordsAccuracy _ this;
                  Types.ignoreWhitespaceDifferences :=
                    HtmlDiff.ignoreWhiteSpaceDifferences _ this |} = None
  | None =>
      forall size,
        1 <= size <= HtmlDiff.matchGranularity _ this ->
        MatchFinder_findMatch (HtmlDiff.oldWords _ this)
          (HtmlDiff.newWords _ this) startInOld endInOld startInNew endInNew
          {| Types.blockSize := size;
             Types.repeatingWordsAccuracy :=
               HtmlDiff.repeatingWordsAccuracy _ this;
             Types.ignoreWhitespaceDifferences :=
               HtmlDiff.ignoreWhiteSpaceDifferences _ this |} = None
  end.
Proof.
  unfold HtmlDiff.findMatch.
  pose proof (findMatchFrom_largest_first
                (Z.to_nat (HtmlDiff.matchGranularity _ this))) as H.
  destruct (HtmlDiff.findMatchFrom _ _ _ _ _ _ _ _) as [m|].
  - destruct H as (size & H1 & H2 & H3). exists size.
    split; [lia|]. split; [exact H2|]. intros size' Hsize'. apply H3. lia.
  - intros size Hsize. apply H. lia.
Qed.

End Sizes.

(* ------------------------------------------------------------------ *)
(** ** Block-aware diffing switched off *)

Section SwitchedOff.

Variable BlockExpression : Type.
Variable convertHtmlToListOfWords :
  string -> list BlockExpression -> list (string * option string).
Variable MatchFinder_findMatch :
  list string -> list string -> Z -> Z -> Z -> Z -> Types.MatchOptions ->
  option Match.t.
Variable v : option Types.BlockDiffOptions.

#[local] Abbreviation state := (HtmlDiff.t BlockExpression).
#[local] Abbreviation W this := (Spec.withBlockDiffOptions this v).

Lemma findMatchFrom_options (this : state) (i : nat) (so eo sn en : Z) :
  HtmlDiff.findMatchFrom _ MatchFinder_findMatch (W this) i so eo sn en
  = HtmlDiff.findMatchFrom _ MatchFinder_findMatch this i so eo sn en.
Proof.
  induction i as [|i IH]; [reflexivity|].
  cbn [HtmlDiff.findMatchFrom]. rewrite IH. reflexivity.
Qed.

Lemma findMatchingBlocks_options (fuel : nat) :
  forall (this : state) (so eo sn en : Z) (acc : list Match.t),
    HtmlDiff.findMatchingBlocks _ MatchFinder_findMatch fuel (W this)
      so eo sn en acc
    = HtmlDiff.findMatchingBlocks _ MatchFinder_findMatch fuel this
        so eo sn en acc.
Proof.
  induction fuel as [|fuel IH]; intros this so eo sn en acc; [reflexivity|].
  cbn [HtmlDiff.findMatchingBlocks]. unfold HtmlDiff.findMatch.
  rewrite findMatchFrom_options.
  change (HtmlDiff.matchGranularity _ (W this))
    with (HtmlDiff.matchGranularity _ this).
  destruct (HtmlDiff.findMatchFrom _ _ _ _ _ _ _ _) as [m|]; [|reflexivity].
  destruct ((so <? Match.startInOld m) && (sn <? Match.startInNew m)).
  - rewrite IH.
    destruct (HtmlDiff.findMatchingBlocks _ _ _ _ _ _ _ _ _) as [before|];
      [|reflexivity].
    destruct (_ && _); [apply IH|reflexivity].
  - destruct (_ && _); [apply IH|reflexivity].
Qed.

Lemma removeOrphansLoop_options (this : state) (ms : list Match.t) :
  forall prev curr,
    HtmlDiff.removeOrphansLoop _ (W this) prev curr ms
    = HtmlDiff.removeOrphansLoop _ this prev curr ms.
Proof.
  induction ms as [|next ms IH]; intros prev curr; [reflexivity|].
  cbn [HtmlDiff.removeOrphansLoop]. rewrite !IH. reflexivity.
Qed.

Lemma operations_options (this : state) :
  HtmlDiff.operations _ MatchFinder_findMatch (W this)
  = HtmlDiff.operations _ MatchFinder_findMatch this.
Proof.
  unfold HtmlDiff.operations, HtmlDiff.matchingBlocks.
  rewrite findMatchingBlocks_options.
  change (HtmlDiff.oldWords _ (W this)) with (HtmlDiff.oldWords _ this).
  change (HtmlDiff.newWords _ (W this)) with (HtmlDiff.newWords _ this).
  destruct (HtmlDiff.findMatchingBlocks _ _ _ _ _ _ _ _ _) as [ms|];
    [|reflexivity].
  cbv zeta. f_equal. unfold HtmlDiff.removeOrphans.
  destruct (ms ++ _); [reflexivity|]. now rewrite removeOrphansLoop_options.
Qed.

Lemma performOperation_options (this : state) (op : Operation.t) :
  HtmlDiff.performOperation _ (W this) op
  = W (HtmlDiff.performOperation _ this op).
Proof.
  unfold HtmlDiff.performOperation.
  destruct (Operation.action op); try reflexivity.
  unfold HtmlDiff.processReplaceOperation.
  change (HtmlDiff.blockAnalyzer _ (W this)) with (HtmlDiff.blockAnalyzer _ this).
  change (HtmlDiff.shouldUseBlockReplacement _ (W this) op)
    with (HtmlDiff.shouldUseBlockReplacement _ this op).
  destruct (_ && _); reflexivity.
Qed.

Lemma performOperations_options (ops : list Operation.t) :
  forall this : state,
    fold_left (HtmlDiff.performOperation _) ops (W this)
    = W (fold_left (HtmlDiff.performOperation _) ops this).
Proof.
  induction ops as [|op ops IH]; intros this; [reflexivity|].
  cbn [fold_left]. now rewrite performOperation_options, IH.
Qed.

Lemma diffWords_options (this : state) :
  HtmlDiff.diffWords _ MatchFinder_findMatch (W this)
  = HtmlDiff.diffWords _ MatchFinder_findMatch this.
Proof.
  unfold HtmlDiff.diffWords. cbv zeta.
  change (HtmlDiff.oldWords _ (W this)) with (HtmlDiff.oldWords _ this).
  change (HtmlDiff.newWords _ (W this)) with (HtmlDiff.newWords _ this).
  set (g := Z.min _ _).
  change (HtmlDiff.set_matchGranularity _ (W this) g)
    with (W (HtmlDiff.set_matchGranularity _ this g)).
  rewrite operations_options.
  destruct (HtmlDiff.operations _ _ _) as [ops|]; [|reflexivity].
  cbv zeta.
  match goal with
  | |- Some (Js.join (HtmlDiff.content _ (fold_left _ ops ?s1)))
       = Some (Js.join (HtmlDiff.content _ (fold_left _ ops ?s2))) =>
      change s1 with (W s2)
  end.
  now rewrite performOperations_options.
Qed.

Lemma diff_options (this : state) :
  HtmlDiff.blockAnalyzer _ this = None ->
  HtmlDiff.diff _ convertHtmlToListOfWords MatchFinder_findMatch (W this)
  = HtmlDiff.diff _ convertHtmlToListOfWords MatchFinder_findMatch this.
Proof.
  intros Han. unfold HtmlDiff.diff. cbn [HtmlDiff.diffDepth].
  unfold HtmlDiff.diffWith.
  change (HtmlDiff.oldText _ (W this)) with (HtmlDiff.oldText _ this).
  change (HtmlDiff.newText _ (W this)) with (HtmlDiff.newText _ this).
  destruct (String.eqb _ _); [reflexivity|]. cbv zeta.
  change (HtmlDiff.splitInputsIntoWords _ convertHtmlToListOfWords (W this))
    with (W (HtmlDiff.splitInputsIntoWords _ convertHtmlToListOfWords this)).
  change (HtmlDiff.blockAnalyzer _
            (W (HtmlDiff.splitInputsIntoWords _ convertHtmlToListOfWords this)))
    with (HtmlDiff.blockAnalyzer _ this).
  change (HtmlDiff.blockAnalyzer _
            (HtmlDiff.splitInputsIntoWords _ convertHtmlToListOfWords this))
    with (HtmlDiff.blockAnalyzer _ this).
  rewrite Han. apply diffWords_options.
Qed.

Lemma addBlockExpressions_options (l : list BlockExpression) :
  forall this : state,
    fold_left (HtmlDiff.addBlockExpression _) l (W this)
    = W (fold_left (HtmlDiff.addBlockExpression _) l this).
Proof.
  induction l as [|exp l IH]; intros this; [reflexivity|].
  cbn [fold_left].
  change (HtmlDiff.addBlockExpression _ (W this) exp)
    with (W (HtmlDiff.addBlockExpression _ this exp)).
  apply IH.
Qed.

Lemma addBlockExpressions_analyzer (l : list BlockExpression) :
  forall this : state,
    HtmlDiff.blockAnalyzer _ (fold_left (HtmlDiff.addBlockExpression _) l this)
    = HtmlDiff.blockAnalyzer _ this.
Proof.
  induction l as [|exp l IH]; intros this; [reflexivity|].
  cbn [fold_left]. now rewrite IH.
Qed.

End SwitchedOff.

(** X28. Block-diff options with [enabled: false] change nothing: whatever
    the other options, [diff] returns what it returns without the
    [blockDiff] option. *)
Theorem blockDiff_disabled (BlockExpression : Type)
    (convertHtmlToListOfWords :
       string -> list BlockExpression -> list (string * option string))
    (MatchFinder_findMatch :
       list string -> list string -> Z -> Z -> Z -> Z -> Types.MatchOptions ->
       option Match.t)
    (oldText newText : string)
    (blocksExpression : option (list BlockExpression))
    (blockElements : option (list string))
    (equivalentTypes : option (list (list string))) :
  Index.diff _ convertHtmlToListOfWords MatchFinder_findMatch oldText newText
    {| Index.blocksExpression := blocksExpression;
       Index.blockDiff :=
         Some {| Types.enabled := false;
                 Types.blockElements := blockElements;
                 Types.equivalentTypes := equivalentTypes |} |}
  = Index.diff _ convertHtmlToListOfWords MatchFinder_findMatch oldText newText
      {| Index.blocksExpression := blocksExpression; Index.blockDiff := None |}.
Proof.
  unfold Index.diff. cbn [Index.blocksExpression Index.blockDiff].
  set (v := Some {| Types.enabled := false;
                    Types.blockElements := blockElements;
                    Types.equivalentTypes := equivalentTypes |}).
  set (plain := HtmlDiff.constructor BlockExpression oldText newText
                  (Some {| HtmlDiff.blockDiff := None |})).
  change (HtmlDiff.constructor BlockExpression oldText newText
            (Some {| HtmlDiff.blockDiff := v |}))
    with (Spec.withBlockDiffOptions plain v).
  destruct blocksExpression as [l|].
  - rewrite addBlockExpressions_options. apply diff_options.
    now rewrite addBlockExpressions_analyzer.
  - now apply diff_options.
Qed.

(* ------------------------------------------------------------------ *)
(** ** Changes never follow one another *)

Lemma inserted_Forall {A} (P : A -> Prop) (l1 l2 : list A) :
  Spec.inserted l1 l2 -> Forall P l2 -> Forall P l1.
Proof.
  induction 1 as [l|x l1 l2 _ IH|x l1 l2 _ IH]; intros H; [constructor|..];
    inversion H; subst; [now apply IH|constructor; [assumption|now apply IH]].
Qed.

Lemma changesApart_equal (op : Operation.t) (ops : list Operation.t) :
  Operation.action op = Types.equal -> Spec.changesApart ops ->
  Spec.changesApart (op :: ops).
Proof.
  intros Hop Hops. destruct ops as [|next ops]; [exact I|].
  split; [congruence|exact Hops].
Qed.

Lemma operationsLoop_apart (ms : list Match.t) :
  forall (posOld posNew : Z) (acc : list Operation.t),
    Forall (fun m => Match.size m <> 0) (removelast ms) ->
    exists ops,
      HtmlDiff.operationsLoop (map Some ms) posOld posNew acc = Some (acc ++ ops)
      /\ Spec.changesApart ops.
Proof.
  induction ms as [|m ms IH]; intros posOld posNew acc Hsizes.
  { exists []. rewrite app_nil_r. split; [reflexivity|exact I]. }
  cbn [map HtmlDiff.operationsLoop].
  set (acc1 := match _ with Types.none => acc | _ => _ end).
  assert (Hgap : exists gaps, acc1 = acc ++ gaps /\ (List.length gaps <= 1)%nat).
  { subst acc1.
    destruct (posOld =? Match.startInOld m), (posNew =? Match.startInNew m);
      cbn [negb andb];
      first [ exists []; rewrite app_nil_r; split; [reflexivity|simpl; lia]
            | eexists [_]; split; [reflexivity|simpl; lia] ]. }
  destruct Hgap as (gaps & -> & Hgaps).
  destruct ms as [|m' ms].
  - (* the last match *)
    cbn [map HtmlDiff.operationsLoop].
    destruct (negb (Match.size m =? 0)).
    + eexists (gaps ++ [_]). split; [now rewrite <- app_assoc|].
      destruct gaps as [|g [|g' gaps]]; [exact I| |simpl in Hgaps; lia].
      split; [reflexivity|exact I].
    + exists gaps. split; [reflexivity|].
      destruct gaps as [|g [|g' gaps]]; [exact I|exact I|simpl in Hgaps; lia].
  - change (removelast (m :: m' :: ms)) with (m :: removelast (m' :: ms)) in Hsizes.
    inversion Hsizes as [|? ? Hm Hrest]; subst.
    destruct (Z.eqb_spec (Match.size m) 0) as [E|_]; [contradiction|]. cbn [negb].
    match goal with
    | |- context [HtmlDiff.operationsLoop _ _ _ ?acc2] =>
        destruct (IH (Match.endInOld m) (Match.endInNew m) acc2 Hrest)
          as (ops & -> & Hops)
    end.
    eexists (gaps ++ _ :: ops). split.
    + rewrite <- !app_assoc. reflexivity.
    + destruct gaps as [|g [|g' gaps]]; [| |simpl in Hgaps; lia]; cbn [app].
      * now apply changesApart_equal.
      * split; [reflexivity|]. now apply changesApart_equal.
Qed.

Section Apart.

Variable BlockExpression : Type.
Variable MatchFinder_findMatch :
  list string -> list string -> Z -> Z -> Z -> Z -> Types.MatchOptions ->
  option Match.t.
Hypothesis finder_in_window : Spec.finderInWindow MatchFinder_findMatch.

(** X29. With a match finder that answers inside its windows, no two
    operations that follow one another in the result of [operations()] are
    both changes: an insertion, a deletion or a replacement is followed by
    an equal stretch or is the last operation. *)
Theorem operations_changes_apart (this : HtmlDiff.t BlockExpression) :
  exists ops,
    HtmlDiff.operations _ MatchFinder_findMatch this = Some ops
    /\ Spec.changesApart ops.
Proof.
  unfold HtmlDiff.operations, HtmlDiff.matchingBlocks.
  pose proof (len_nonneg (HtmlDiff.oldWords _ this)).
  pose proof (len_nonneg (HtmlDiff.newWords _ this)).
  destruct (findMatchingBlocks_ordered BlockExpression MatchFinder_findMatch
              finder_in_window
              (S (List.length (HtmlDiff.oldWords _ this)
                  + List.length (HtmlDiff.newWords _ this)))
              this 0 (Js.len (HtmlDiff.oldWords _ this))
              0 (Js.len (HtmlDiff.newWords _ this)) [])
    as (ms & -> & _ & Hpos); [lia|lia|unfold Js.len; lia|].
  cbn [app]. cbv zeta.
  set (sentinel := {| Match.startInOld := Js.len (HtmlDiff.oldWords _ this);
                      Match.startInNew := Js.len (HtmlDiff.newWords _ this);
                      Match.size := 0 |}).
  destruct (ms ++ [sentinel]) as [|first rest] eqn:E.
  { destruct ms; discriminate. }
  destruct (removeOrphansLoop_keeps_last BlockExpression this rest
              {| Match.startInOld := 0; Match.startInNew := 0; Match.size := 0 |}
              first) as (init & Hloop & Hinit).
  unfold HtmlDiff.removeOrphans. rewrite Hloop.
  rewrite <- E, removelast_last in Hinit.
  destruct (operationsLoop_apart (init ++ [last rest first]) 0 0 [])
    as (ops & -> & Hops).
  - rewrite removelast_last. eapply inserted_Forall; [exact Hinit|].
    eapply Forall_impl; [|exact Hpos]. cbv beta. intros m Hm. lia.
  - exists ops. split; [reflexivity|exact Hops].
Qed.

End Apart.

Lemma operations_changes_apart_witness :
  Spec.finderInWindow MatchFinder.findMatch
  /\ exists ops,
       HtmlDiff.operations Empty_set MatchFinder.findMatch
         (HtmlDiff.set_matchGranularity _
            (Spec.orphanState ["a"; " "; "b"; " "; "c"] ["a"; " "; "x"; " "; "c"] 0)
            4)
       = Some ops
       /\ Spec.changesApart ops.
Proof.
  split; [exact modelled_finder_in_window|].
  apply (operations_changes_apart Empty_set MatchFinder.findMatch
           modelled_finder_in_window).
Defined.

(* ------------------------------------------------------------------ *)
(** ** The nested diff *)

Section Nested.

Variable BlockExpression : Type.
Variable convertHtmlToListOfWords :
  string -> list BlockExpression -> list (string * option string).
Variable MatchFinder_findMatch :
  list string -> list string -> Z -> Z -> Z -> Z -> Types.MatchOptions ->
  option Match.t.

(** X30. [diffWordRanges] returns what [diff] returns, called without
    options on the two joined texts: its two shortcuts, for two empty
    ranges and for two equal texts, return what that call would return. *)
Theorem diffWordRanges_is_diff (oldWords newWords : list string) :
  HtmlDiff.diffWordRanges
    (fun oldText newText =>
       HtmlDiff.diffDepth _ convertHtmlToListOfWords MatchFinder_findMatch 1
         (HtmlDiff.constructor _ oldText newText None))
    oldWords newWords
  = Index.diff _ convertHtmlToListOfWords MatchFinder_findMatch
      (Js.join oldWords) (Js.join newWords)
      {| Index.blocksExpression := None; Index.blockDiff := None |}.
Proof.
  unfold Index.diff, HtmlDiff.diff.
  cbn [Index.blocksExpression Index.blockDiff].
  change (HtmlDiff.constructor BlockExpression (Js.join oldWords)
            (Js.join newWords) (Some {| HtmlDiff.blockDiff := None |}))
    with (HtmlDiff.constructor BlockExpression (Js.join oldWords)
            (Js.join newWords) None).
  rewrite (nested_diff BlockExpression convertHtmlToListOfWords
             MatchFinder_findMatch 1).
  unfold HtmlDiff.diffWordRanges.
  destruct (Z.eqb_spec (Js.len oldWords) 0) as [Eo|Eo];
    [destruct (Z.eqb_spec (Js.len newWords) 0) as [En|En]|]; cbn [andb].
  - destruct oldWords; [|rewrite len_cons in Eo; pose proof (len_nonneg oldWords); lia].
    destruct newWords; [|rewrite len_cons in En; pose proof (len_nonneg newWords); lia].
    reflexivity.
  - destruct (String.eqb_spec (Js.join oldWords) (Js.join newWords)) as [E|E];
      [|reflexivity].
    cbn [HtmlDiff.diffDepth]. unfold HtmlDiff.diffWith.
    cbn [HtmlDiff.oldText HtmlDiff.newText HtmlDiff.constructor].
    now rewrite E, String.eqb_refl.
  - destruct (String.eqb_spec (Js.join oldWords) (Js.join newWords)) as [E|E];
      [|reflexivity].
    cbn [HtmlDiff.diffDepth]. unfold HtmlDiff.diffWith.
    cbn [HtmlDiff.oldText HtmlDiff.newText HtmlDiff.constructor].
    now rewrite E, String.eqb_refl.
Qed.

End Nested.

(* ================================================================== *)
(** * Blocks inserted between blocks that stay *)


Section InsertedOutput.

Variable BlockExpression : Type.
Variable convertHtmlToListOfWords :
  string -> list BlockExpression -> list (string * option string).
Variable MatchFinder_findMatch :
  list string -> list string -> Z -> Z -> Z -> Z -> Types.MatchOptions ->
  option Match.t.
Hypothesis finder_in_window : Spec.finderInWindow MatchFinder_findMatch.

#[local] Abbreviation state := (HtmlDiff.t BlockExpression).



End InsertedOutput.


